(** * The transaction dispatch queue of the faucet (class [TransactionQueue])

    A shallow embedding of the class [TransactionQueue]: the job records,
    the main job store, the pending queue, the in-flight set, the
    dead-letter queue, the retry timers and the suspended executions, with
    the methods of the class as functions on an explicit state.

    Job objects are shared by reference between the main store, the pending
    queue and the closures of timers and executions, so the state carries a
    heap of job objects and the structures hold references into it; the
    dead-letter queue holds copies, as the source spreads the job into a
    fresh object.

    Around the queue, the nonce store and the token functions of the
    authentication and the routes that verify a signature, submit a claim,
    report the status of a job and cancel it are embedded in the same way;
    what the libraries compute ([ethers], [jsonwebtoken]) is a variable of
    the section that uses it. *)

From Stdlib Require Import ZArith QArith Lqa String Ascii List Lia.
From stdpp Require Import gmap strings list pretty sorting.

Local Open Scope Z_scope.
Local Open Scope string_scope.
Local Open Scope list_scope.

(** ** Strings: the JavaScript string methods the queue uses *)

Module Js.

(** [c.toLowerCase()] on one ASCII character. *)
Definition lower_ascii (c : ascii) : ascii :=
  let n := nat_of_ascii c in
  if ((65 <=? n)%nat && (n <=? 90)%nat)%bool then ascii_of_nat (n + 32) else c.

(** [s.toLowerCase()], on the ASCII range. *)
Fixpoint toLowerCase (s : string) : string :=
  match s with
  | EmptyString => EmptyString
  | String c s' => String (lower_ascii c) (toLowerCase s')
  end.

(** [s.includes(pat)]. *)
Fixpoint includes (s pat : string) : bool :=
  String.prefix pat s ||
  match s with
  | EmptyString => false
  | String _ s' => includes s' pat
  end.

(** Truthiness of a string: only the empty string is falsy. *)
Definition truthy (s : string) : bool :=
  match s with EmptyString => false | String _ _ => true end.

(** Truthiness of an optional string ([undefined] is falsy). *)
Definition truthy_opt (o : option string) : bool :=
  match o with None => false | Some s => truthy s end.

(** The character class [[a-fA-F0-9]]. *)
Definition is_hex (c : ascii) : bool :=
  let n := nat_of_ascii c in
  ((48 <=? n)%nat && (n <=? 57)%nat) ||
  ((65 <=? n)%nat && (n <=? 70)%nat) ||
  ((97 <=? n)%nat && (n <=? 102)%nat).

(** [n] characters of the class, then the end of the input. *)
Fixpoint hex_exactly (n : nat) (s : string) : bool :=
  match n, s with
  | O, EmptyString => true
  | S n', String c s' => is_hex c && hex_exactly n' s'
  | _, _ => false
  end.

(** [/^0x[a-fA-F0-9]{40}$/.test(s)]. *)
Definition is_address (s : string) : bool :=
  match s with
  | String "0" (String "x" rest) => hex_exactly 40 rest
  | _ => false
  end.

End Js.

(** ** The data model *)

Inductive JobType := ETH_CLAIM | TOKEN_CLAIM.

Inductive JobStatus := pending | processing | completed | failed | retrying.

#[export] Instance JobStatus_eq_dec : EqDecision JobStatus.
Proof. solve_decision. Defined.

#[export] Instance JobType_eq_dec : EqDecision JobType.
Proof. solve_decision. Defined.

(** The [data] field of a job. *)
Record JobData := mkJobData {
  address : string;
  tokenAddress : option string;
  amount : option string;
  userAgent : option string;
  timestamp : Z
}.

(** [QueueJob]. Times are milliseconds; optional fields are options. *)
Record QueueJob := mkQueueJob {
  id : string;
  type : JobType;
  data : JobData;
  status : JobStatus;
  priority : Z;
  attempts : Z;
  maxAttempts : Z;
  createdAt : Z;
  updatedAt : Z;
  processedAt : option Z;
  completedAt : option Z;
  error : option string;
  transactionHash : option string;
  estimatedProcessingTime : option Z;
  position : option Z
}.

(** The argument of [addJob]: a [QueueJob] without [id], [status],
    [attempts], [createdAt], [updatedAt] and [position]. *)
Record JobInput := mkJobInput {
  in_type : JobType;
  in_data : JobData;
  in_priority : Z;
  in_maxAttempts : Z;
  in_processedAt : option Z;
  in_completedAt : option Z;
  in_error : option string;
  in_transactionHash : option string;
  in_estimatedProcessingTime : option Z
}.

(** ** Validation and error classification *)

(** [validateJobData]: [Some msg] is the message of the error it throws,
    [None] is a normal return. *)
Definition validateJobData (job : QueueJob) : option string :=
  if negb (Js.truthy (address (data job))) || negb (Js.is_address (address (data job)))
  then Some "Invalid recipient address"
  else
    match type job with
    | TOKEN_CLAIM =>
        match tokenAddress (data job) with
        | Some t =>
            if negb (Js.truthy t) || negb (Js.is_address t)
            then Some "Invalid token address" else None
        | None => Some "Invalid token address"
        end
    | ETH_CLAIM => None
    end.

(** [error.message || error.toString()] for an [Error] whose message is
    [msg]: an empty message is falsy and [toString()] of such an error is
    its name. *)
Definition errorText (msg : string) : string :=
  if Js.truthy msg then msg else "Error".

Definition nonRetryablePatterns : list string :=
  [ "insufficient funds"; "cooldown"; "blacklisted"; "invalid address";
    "invalid token"; "unauthorized"; "forbidden"; "not supported" ].

Definition retryablePatterns : list string :=
  [ "network"; "connection"; "timeout"; "rate limit"; "gas"; "nonce";
    "temporary" ].

(** A [for ... of] loop over patterns that returns on the first match. *)
Fixpoint firstMatch (lowered : string) (patterns : list string) : bool :=
  match patterns with
  | [] => false
  | p :: ps => if Js.includes lowered p then true else firstMatch lowered ps
  end.

(** [isRetryableError], on the message of the error. *)
Definition isRetryableError (msg : string) : bool :=
  let message := errorText msg in
  if firstMatch (Js.toLowerCase message) nonRetryablePatterns then false
  else if firstMatch (Js.toLowerCase message) retryablePatterns then true
  else true.

(** [isRetryableError] with the lower-casing left open. [Js.toLowerCase]
    is [String.prototype.toLowerCase] on ASCII text only; how the
    decision depends on the lowered text is the same whichever function
    lowers it. *)
Definition isRetryableErrorWith (toLowerCase : string -> string) (msg : string) : bool :=
  let message := errorText msg in
  if firstMatch (toLowerCase message) nonRetryablePatterns then false
  else if firstMatch (toLowerCase message) retryablePatterns then true
  else true.

(** [categorizeError], on the message of the error. *)
Definition categorizeError (msg : string) : string :=
  let message := errorText msg in
  if Js.includes message "Transaction submission timeout - network may be congested"
  then "Network congestion: Transaction submission took too long. Please try again."
  else if Js.includes message "Transaction timeout - blockchain confirmation took too long"
  then "Transaction timeout: Blockchain confirmation took longer than expected. Your transaction may still succeed."
  else if Js.includes message "network" || Js.includes message "connection"
          || Js.includes message "timeout"
  then "Network error: " +:+ message
  else if Js.includes message "insufficient funds" || Js.includes message "balance"
  then "Insufficient funds: " +:+ message
  else if Js.includes message "gas" || Js.includes message "Gas"
  then "Gas error: " +:+ message
  else if Js.includes message "nonce" || Js.includes message "Nonce"
  then "Nonce error: " +:+ message
  else if Js.includes message "revert" || Js.includes message "Revert"
  then "Transaction reverted: " +:+ message
  else if Js.includes message "rate limit" || Js.includes message "too many requests"
  then "Rate limited: " +:+ message
  else if Js.includes message "cooldown" || Js.includes message "Cooldown"
  then "Cooldown period not met: " +:+ message
  else "Unknown error: " +:+ message.

(** ** Insertion-ordered maps

    A JavaScript [Map] iterates in insertion order, and the dead-letter
    queue depends on it to find its oldest entry. *)

Module OMap.
Section Ops.
Context {V : Type}.

(** [m.get(k)]. *)
Fixpoint get (k : string) (m : list (string * V)) : option V :=
  match m with
  | [] => None
  | (k', v) :: m' => if String.eqb k k' then Some v else get k m'
  end.

(** [m.set(k, v)]: an existing key keeps its place, a new one goes last. *)
Fixpoint set (k : string) (v : V) (m : list (string * V)) : list (string * V) :=
  match m with
  | [] => [(k, v)]
  | (k', v') :: m' =>
      if String.eqb k k' then (k', v) :: m' else (k', v') :: set k v m'
  end.

(** [m.delete(k)]. *)
Fixpoint delete (k : string) (m : list (string * V)) : list (string * V) :=
  match m with
  | [] => []
  | (k', v') :: m' =>
      if String.eqb k k' then m' else (k', v') :: delete k m'
  end.

(** [m.keys().next().value]. *)
Definition firstKey (m : list (string * V)) : option string :=
  match m with [] => None | (k, _) :: _ => Some k end.

Definition keys (m : list (string * V)) : list string := map fst m.
End Ops.
End OMap.

(** ** Updates of a job object *)

Section JobUpdates.
Variable now : Z.

(** The assignments at the head of [processJob]. *)
Definition markStarted (j : QueueJob) : QueueJob :=
  mkQueueJob (id j) (type j) (data j) processing (priority j) (attempts j + 1)
    (maxAttempts j) (createdAt j) now (Some now) (completedAt j) (error j)
    (transactionHash j) (estimatedProcessingTime j) (position j).

(** The assignments after a successful submission. *)
Definition markCompleted (hash : string) (j : QueueJob) : QueueJob :=
  mkQueueJob (id j) (type j) (data j) completed (priority j) (attempts j)
    (maxAttempts j) (createdAt j) now (processedAt j) (Some now) (error j)
    (Some hash) (estimatedProcessingTime j) (position j).

(** [job.error = errorMessage; job.status = st; job.updatedAt = Date.now()]. *)
Definition markError (msg : string) (st : JobStatus) (j : QueueJob) : QueueJob :=
  mkQueueJob (id j) (type j) (data j) st (priority j) (attempts j)
    (maxAttempts j) (createdAt j) now (processedAt j) (completedAt j) (Some msg)
    (transactionHash j) (estimatedProcessingTime j) (position j).

(** The copy stored by [moveToDeadLetterQueue]. *)
Definition deadCopy (j : QueueJob) : QueueJob :=
  mkQueueJob (id j) (type j) (data j) failed (priority j) (attempts j)
    (maxAttempts j) (createdAt j) now (processedAt j) (completedAt j) (error j)
    (transactionHash j) (estimatedProcessingTime j) (position j).

(** The new job built by [retryFailedJob]. *)
Definition replayCopy (newId : string) (j : QueueJob) : QueueJob :=
  mkQueueJob newId (type j) (data j) pending (priority j) 0
    (maxAttempts j) now now None None None None
    (estimatedProcessingTime j) (position j).

(** The job built by [addJob]; [len] is the length of the pending queue. *)
Definition newJob (jobId : string) (len : nat) (i : JobInput) : QueueJob :=
  mkQueueJob jobId (in_type i) (in_data i) pending (in_priority i) 0
    (in_maxAttempts i) now now (in_processedAt i) (in_completedAt i)
    (in_error i) (in_transactionHash i) (in_estimatedProcessingTime i)
    (Some (Z.of_nat len + 1)).
End JobUpdates.

(** The retry timer's [job.status = 'pending']. *)
Definition markPending (j : QueueJob) : QueueJob :=
  mkQueueJob (id j) (type j) (data j) pending (priority j) (attempts j)
    (maxAttempts j) (createdAt j) (updatedAt j) (processedAt j) (completedAt j)
    (error j) (transactionHash j) (estimatedProcessingTime j) (position j).

Definition processingDelay : Z := 2000.
Definition maxConcurrentJobs : nat := 3.
Definition deadLetterCapacity : nat := 100.

(** The body of the [forEach] of [updateQueuePositions] at [index]. *)
Definition setPosition (index : Z) (j : QueueJob) : QueueJob :=
  mkQueueJob (id j) (type j) (data j) (status j) (priority j) (attempts j)
    (maxAttempts j) (createdAt j) (updatedAt j) (processedAt j) (completedAt j)
    (error j) (transactionHash j)
    (Some ((index + 1) * (processingDelay / 1000))) (Some (index + 1)).

(** [generateJobId]: [now] is [Date.now()], [rnd] the nine base-36 digits
    drawn from [Math.random()]. *)
Definition generateJobId (now : Z) (rnd : string) : string :=
  "job_" +:+ pretty now +:+ "_" +:+ rnd.

(** The backoff of the retry branch: [rnd] is the draw of [Math.random()],
    a number in [[0, 1)]. *)
Definition baseDelay (attempts : Z) : Z := Z.min (1000 * 2 ^ attempts) 30000.
Definition jitterOf (rnd : Q) : Q := (rnd * 1000)%Q.
Definition backoffDelay (attempts : Z) (rnd : Q) : Q :=
  (inject_Z (baseDelay attempts) + jitterOf rnd)%Q.

(** ** The state of a queue *)

Record TransactionQueue := mkQueue {
  heap : list QueueJob;                     (* the job objects, by reference *)
  jobs : gmap string nat;                   (* Map<string, QueueJob> *)
  pendingQueue : list nat;                  (* QueueJob[] *)
  processingJobs : gset string;             (* Set<string> *)
  deadLetterQueue : list (string * QueueJob); (* Map<string, QueueJob>, copies *)
  timers : list (nat * Q);                  (* retry callbacks not yet run: job, delay *)
  awaiting : list nat                       (* executions suspended on the executor *)
}.

Definition emptyQueue : TransactionQueue :=
  mkQueue [] ∅ [] ∅ [] [] [].

Definition withHeap (h : list QueueJob) (s : TransactionQueue) : TransactionQueue :=
  mkQueue h (jobs s) (pendingQueue s) (processingJobs s) (deadLetterQueue s)
    (timers s) (awaiting s).

Definition withPending (q : list nat) (s : TransactionQueue) : TransactionQueue :=
  mkQueue (heap s) (jobs s) q (processingJobs s) (deadLetterQueue s)
    (timers s) (awaiting s).

(** [updateQueuePositions]. *)
Fixpoint setPositions (h : list QueueJob) (q : list nat) (index : Z) : list QueueJob :=
  match q with
  | [] => h
  | r :: q' => setPositions (alter (setPosition index) r h) q' (index + 1)
  end.

Definition updateQueuePositions (s : TransactionQueue) : TransactionQueue :=
  withHeap (setPositions (heap s) (pendingQueue s) 0) s.

(** [addJob]: returns the job id. *)
Definition addJob (input : JobInput) (now : Z) (rnd : string)
    (s : TransactionQueue) : string * TransactionQueue :=
  let jobId := generateJobId now rnd in
  let job := newJob now jobId (length (pendingQueue s)) input in
  let r := length (heap s) in
  (jobId,
   updateQueuePositions
     (mkQueue (heap s ++ [job]) (<[jobId := r]> (jobs s)) (pendingQueue s ++ [r])
        (processingJobs s) (deadLetterQueue s) (timers s) (awaiting s))).

(** [getJob]: the main store first, then the dead-letter queue. *)
Definition getJob (jobId : string) (s : TransactionQueue) : option QueueJob :=
  match jobs s !! jobId with
  | Some r => heap s !! r
  | None => OMap.get jobId (deadLetterQueue s)
  end.

(** The test of [findIndex(j => j.id === jobId)]. *)
Definition hasId (h : list QueueJob) (jobId : string) (r : nat) : Prop :=
  id <$> h !! r = Some jobId.

#[export] Instance hasId_dec h jobId r : Decision (hasId h jobId r).
Proof. unfold hasId. apply _. Defined.

(** [cancelJob]: returns whether the job was cancelled. *)
Definition cancelJob (jobId : string) (now : Z) (s : TransactionQueue)
    : bool * TransactionQueue :=
  match jobs s !! jobId with
  | None => (false, s)
  | Some r =>
      match heap s !! r with
      | None => (false, s)
      | Some job =>
          if decide (status job = pending) then
            let h := <[r := markError now "Cancelled by user" failed job]> (heap s) in
            match list_find (hasId h jobId) (pendingQueue s) with
            | Some (index, _) =>
                (true, updateQueuePositions
                         (withPending (delete index (pendingQueue s)) (withHeap h s)))
            | None => (true, withHeap h s)
            end
          else (false, s)
      end
  end.

(** [moveToDeadLetterQueue], on the dead-letter queue. The guard
    [if (oldestKey)] skips an oldest key that is falsy. *)
Definition moveToDeadLetterQueue (now : Z) (job : QueueJob)
    (dlq : list (string * QueueJob)) : list (string * QueueJob) :=
  let dlq1 := OMap.set (id job) (deadCopy now job) dlq in
  if (deadLetterCapacity <? length dlq1)%nat then
    match OMap.firstKey dlq1 with
    | Some oldestKey =>
        if Js.truthy oldestKey then OMap.delete oldestKey dlq1 else dlq1
    | None => dlq1
    end
  else dlq1.

(** The [finally] clause of [processJob]. *)
Definition releaseSlot (jobId : string) (s : TransactionQueue) : TransactionQueue :=
  mkQueue (heap s) (jobs s) (pendingQueue s) (processingJobs s ∖ {[jobId]})
    (deadLetterQueue s) (timers s) (awaiting s).

(** The [catch] clause of [processJob] followed by its [finally]: [msg] is
    the message of the error caught, [rnd] the draw of [Math.random()]. *)
Definition processJob_catch (now : Z) (rnd : Q) (msg : string) (r : nat)
    (s : TransactionQueue) : TransactionQueue :=
  match heap s !! r with
  | None => s
  | Some job =>
      let errorMessage := categorizeError msg in
      let isRetryable := isRetryableError msg in
      if negb isRetryable || (maxAttempts job <=? attempts job)%Z then
        let job' := markError now errorMessage failed job in
        releaseSlot (id job)
          (mkQueue (<[r := job']> (heap s)) (jobs s) (pendingQueue s)
             (processingJobs s)
             (moveToDeadLetterQueue now job' (deadLetterQueue s))
             (timers s) (awaiting s))
      else
        let job' := markError now errorMessage retrying job in
        releaseSlot (id job)
          (mkQueue (<[r := job']> (heap s)) (jobs s) (pendingQueue s)
             (processingJobs s) (deadLetterQueue s)
             (timers s ++ [(r, backoffDelay (attempts job) rnd)]) (awaiting s))
  end.

(** [processJob] up to its first [await]: the guard, the bookkeeping and
    the validation. A validation error is caught at once; otherwise the
    execution is suspended until the executor settles. *)
Definition processJob_start (now : Z) (rnd : nat -> Q) (s : TransactionQueue)
    (r : nat) : TransactionQueue :=
  match heap s !! r with
  | None => s
  | Some job =>
      if decide (id job ∈ processingJobs s) then s
      else
        let job' := markStarted now job in
        let s1 := mkQueue (<[r := job']> (heap s)) (jobs s) (pendingQueue s)
                    ({[id job]} ∪ processingJobs s) (deadLetterQueue s)
                    (timers s) (awaiting s) in
        match validateJobData job' with
        | Some msg => processJob_catch now (rnd r) msg r s1
        | None =>
            mkQueue (heap s1) (jobs s1) (pendingQueue s1) (processingJobs s1)
              (deadLetterQueue s1) (timers s1) (awaiting s1 ++ [r])
        end
  end.

(** What the executor call settles to: a transaction hash, or an error
    with its message (the 60 s timeout of the race is one such error). *)
Inductive Outcome := Resolved (hash : string) | Rejected (msg : string).

(** [processJob] from the point where the executor settles. *)
Definition processJob_settle (now : Z) (rnd : Q) (o : Outcome) (r : nat)
    (s : TransactionQueue) : TransactionQueue :=
  match heap s !! r with
  | None => s
  | Some job =>
      let result :=
        match type job with
        | ETH_CLAIM => o
        | TOKEN_CLAIM =>
            if Js.truthy_opt (tokenAddress (data job)) then o
            else Rejected "Invalid job type or missing token address"
        end in
      match result with
      | Resolved hash =>
          releaseSlot (id job) (withHeap (<[r := markCompleted now hash job]> (heap s)) s)
      | Rejected msg => processJob_catch now rnd msg r s
      end
  end.

(** The comparator of the sort in [processNextJobs]. *)
Definition compareJobs (a b : QueueJob) : Z :=
  if decide (priority a ≠ priority b) then priority a - priority b
  else createdAt a - createdAt b.

Definition compareRefs (h : list QueueJob) (a b : nat) : Z :=
  match h !! a, h !! b with
  | Some ja, Some jb => compareJobs ja jb
  | _, _ => 0
  end.

(** [Array.prototype.sort] is stable; for a comparator that is a total
    preorder every stable sort gives the same array. *)
Fixpoint sortInsert (cmp : nat -> nat -> Z) (x : nat) (l : list nat) : list nat :=
  match l with
  | [] => [x]
  | y :: l' => if (cmp x y <=? 0)%Z then x :: y :: l' else y :: sortInsert cmp x l'
  end.

Definition sortBy (cmp : nat -> nat -> Z) (l : list nat) : list nat :=
  foldr (sortInsert cmp) [] l.

(** [processNextJobs]: one dispatch pass. *)
Definition processNextJobs (now : Z) (rnd : nat -> Q) (s : TransactionQueue)
    : TransactionQueue :=
  if (maxConcurrentJobs <=? size (processingJobs s))%nat then s
  else
    let sorted := sortBy (compareRefs (heap s)) (pendingQueue s) in
    let n := (maxConcurrentJobs - size (processingJobs s))%nat in
    let jobsToProcess := take n sorted in
    let s1 := withPending (drop n sorted) s in
    updateQueuePositions (foldl (processJob_start now rnd) s1 jobsToProcess).

(** The callback of the retry timer, run for the [k]-th outstanding timer. *)
Definition retryTimer (k : nat) (s : TransactionQueue) : TransactionQueue :=
  match timers s !! k with
  | None => s
  | Some (r, _) =>
      let s1 := mkQueue (heap s) (jobs s) (pendingQueue s) (processingJobs s)
                  (deadLetterQueue s) (delete k (timers s)) (awaiting s) in
      match heap s !! r with
      | None => s1
      | Some job =>
          if decide (status job = retrying) then
            updateQueuePositions
              (withPending (pendingQueue s ++ [r])
                 (withHeap (<[r := markPending job]> (heap s)) s1))
          else s1
      end
  end.

(** [retryFailedJob]: replay of a dead-letter entry as a new job. *)
Definition retryFailedJob (jobId : string) (now : Z) (rnd : string)
    (s : TransactionQueue) : bool * TransactionQueue :=
  match OMap.get jobId (deadLetterQueue s) with
  | None => (false, s)
  | Some failedJob =>
      let retryJob := replayCopy now (generateJobId now rnd) failedJob in
      let r := length (heap s) in
      let s1 := updateQueuePositions
                  (mkQueue (heap s ++ [retryJob]) (<[id retryJob := r]> (jobs s))
                     (pendingQueue s ++ [r]) (processingJobs s)
                     (deadLetterQueue s) (timers s) (awaiting s)) in
      (true,
       mkQueue (heap s1) (jobs s1) (pendingQueue s1) (processingJobs s1)
         (OMap.delete jobId (deadLetterQueue s1)) (timers s1) (awaiting s1))
  end.

(** The condition under which [cleanupOldJobs] deletes an entry. *)
Definition expired (h : list QueueJob) (cutoffTime : Z) (kv : string * nat) : Prop :=
  match h !! kv.2 with
  | Some job => (status job = completed ∨ status job = failed) ∧ updatedAt job < cutoffTime
  | None => False
  end.

#[export] Instance expired_dec h c kv : Decision (expired h c kv).
Proof. unfold expired. destruct (h !! kv.2); apply _. Defined.

(** [cleanupOldJobs]: the retention sweep of the main store. *)
Definition cleanupOldJobs (now : Z) (s : TransactionQueue) : TransactionQueue :=
  let cutoffTime := now - 24 * 60 * 60 * 1000 in
  mkQueue (heap s) (filter (λ kv, ¬ expired (heap s) cutoffTime kv) (jobs s))
    (pendingQueue s) (processingJobs s) (deadLetterQueue s) (timers s) (awaiting s).

(** [job.data.address.toLowerCase() === address.toLowerCase()]. *)
Definition sameAddress (addr : string) (job : QueueJob) : bool :=
  String.eqb (Js.toLowerCase (address (data job))) (Js.toLowerCase addr).

(** The ids that the first loop of [clearUserJobs] deletes from the main
    store: the [id] fields of the caller's completed and failed jobs. *)
Definition clearedIds (addr : string) (s : TransactionQueue) : list string :=
  omap (λ kv : string * nat,
          match heap s !! kv.2 with
          | Some job =>
              if sameAddress addr job
                 && (bool_decide (status job = completed) || bool_decide (status job = failed))
              then Some (id job) else None
          | None => None
          end)
       (map_to_list (jobs s)).

(** [clearUserJobs]: returns the number of entries cleared. *)
Definition clearUserJobs (addr : string) (s : TransactionQueue) : nat * TransactionQueue :=
  let ids := clearedIds addr s in
  let dead := filter (λ kv : string * QueueJob, sameAddress addr kv.2 = true)
                (deadLetterQueue s) in
  ((length ids + length dead)%nat,
   mkQueue (heap s) (foldr delete (jobs s) ids) (pendingQueue s) (processingJobs s)
     (foldr (λ kv m, OMap.delete kv.1 m) (deadLetterQueue s) dead)
     (timers s) (awaiting s)).

(** ** The queue as a transition system

    Each event is one synchronous segment of the event loop: a call of a
    public method, a tick of the dispatch interval, the settling of one
    executor call, the firing of one retry timer, or a retention sweep.
    [Date.now()] is read once per segment and the draws of [Math.random()]
    are supplied with the event. The timers and the executor may fire in
    any order and at any time, so real time is left out. [stopProcessing]
    and [destroy] end the life of the instance and are not events. *)

Inductive Event :=
| EvAddJob (input : JobInput) (now : Z) (rnd : string)
| EvTick (now : Z) (rnd : nat -> Q)
| EvSettle (k : nat) (o : Outcome) (now : Z) (rnd : Q)
| EvTimer (k : nat)
| EvCancel (jobId : string) (now : Z)
| EvRetryFailed (jobId : string) (now : Z) (rnd : string)
| EvCleanup (now : Z)
| EvClearUser (addr : string).

(** [generateJobId] is documented to generate a unique id: an id is fresh
    when no job object ever created carries it. *)
Definition freshId (jobId : string) (s : TransactionQueue) : Prop :=
  Forall (λ j, id j ≠ jobId) (heap s).

#[export] Instance freshId_dec jobId s : Decision (freshId jobId s).
Proof. unfold freshId. apply _. Defined.

(** The suspended execution number [k] is taken up again. *)
Definition resume (k : nat) (s : TransactionQueue) : TransactionQueue :=
  mkQueue (heap s) (jobs s) (pendingQueue s) (processingJobs s)
    (deadLetterQueue s) (timers s) (delete k (awaiting s)).

(** One event; [None] when the event cannot occur in [s]: a generated id
    that is not fresh, an execution or a timer that does not exist. *)
Definition step (e : Event) (s : TransactionQueue) : option TransactionQueue :=
  match e with
  | EvAddJob input now rnd =>
      if decide (freshId (generateJobId now rnd) s)
      then Some (addJob input now rnd s).2 else None
  | EvTick now rnd => Some (processNextJobs now rnd s)
  | EvSettle k o now rnd =>
      match awaiting s !! k with
      | Some r => Some (processJob_settle now rnd o r (resume k s))
      | None => None
      end
  | EvTimer k =>
      match timers s !! k with
      | Some _ => Some (retryTimer k s)
      | None => None
      end
  | EvCancel jobId now => Some (cancelJob jobId now s).2
  | EvRetryFailed jobId now rnd =>
      match OMap.get jobId (deadLetterQueue s) with
      | Some _ =>
          if decide (freshId (generateJobId now rnd) s)
          then Some (retryFailedJob jobId now rnd s).2 else None
      | None => Some (retryFailedJob jobId now rnd s).2
      end
  | EvCleanup now => Some (cleanupOldJobs now s)
  | EvClearUser addr => Some (clearUserJobs addr s).2
  end.

(** The states a queue can be in: those reached from the empty queue of
    the constructor by a finite sequence of events. *)
Inductive reachable : TransactionQueue -> Prop :=
| reach_init : reachable emptyQueue
| reach_step s e s' : reachable s -> step e s = Some s' -> reachable s'.

(** Running a list of events, for concrete scenarios. *)
Fixpoint run (es : list Event) (s : TransactionQueue) : option TransactionQueue :=
  match es with
  | [] => Some s
  | e :: es' => match step e s with Some s' => run es' s' | None => None end
  end.

(** ** Notions used in the statements *)

(** Everything in a job object except the two fields written by
    [updateQueuePositions]. *)
Definition core (j : QueueJob) :=
  (id j, type j, data j, status j, priority j, attempts j, maxAttempts j,
   createdAt j, updatedAt j, processedAt j, completedAt j, error j,
   transactionHash j).

Definition sameCore (j j' : QueueJob) : Prop := core j = core j'.

(** The invariant of the queue. The holding structures are determined by
    the status of the job objects: the pending queue holds the objects
    whose status is [pending], the suspended executions those whose status
    is [processing], and the in-flight set the ids of the latter. During a
    dispatch pass the jobs spliced off the queue and not yet started are
    [todo]. *)
Record InvT (todo : list nat) (s : TransactionQueue) : Prop := mkInvT {
  inv_ids : forall r1 r2 j1 j2,
    heap s !! r1 = Some j1 -> heap s !! r2 = Some j2 -> id j1 = id j2 -> r1 = r2;
  inv_truthy : forall r j, heap s !! r = Some j -> Js.truthy (id j) = true;
  inv_jobs : forall i r, jobs s !! i = Some r -> exists j, heap s !! r = Some j /\ id j = i;
  inv_live : forall r j,
    heap s !! r = Some j -> status j ≠ completed -> status j ≠ failed ->
    jobs s !! id j = Some r;
  inv_queue : forall r,
    r ∈ todo ++ pendingQueue s <-> exists j, heap s !! r = Some j /\ status j = pending;
  inv_nodup : NoDup (todo ++ pendingQueue s);
  inv_await : forall r,
    r ∈ awaiting s <-> exists j, heap s !! r = Some j /\ status j = processing;
  inv_await_nodup : NoDup (awaiting s);
  inv_proc : forall i,
    i ∈ processingJobs s <->
    exists r j, heap s !! r = Some j /\ id j = i /\ status j = processing;
  inv_size : (size (processingJobs s) + length todo <= maxConcurrentJobs)%nat;
  inv_attempts : forall r j,
    heap s !! r = Some j -> 1 <= maxAttempts j ->
    attempts j <= maxAttempts j /\
    (status j = pending \/ status j = retrying -> attempts j < maxAttempts j);
  inv_dlq_len : (length (deadLetterQueue s) <= deadLetterCapacity)%nat;
  inv_dlq : forall k d,
    (k, d) ∈ deadLetterQueue s ->
    id d = k /\ status d = failed /\
    exists r j, heap s !! r = Some j /\ id j = k /\ status j = failed
}.

(** The positions stored in the pending jobs follow the array. *)
Definition PosOk (s : TransactionQueue) : Prop :=
  forall k r, pendingQueue s !! k = Some r ->
    exists j, heap s !! r = Some j /\ position j = Some (Z.of_nat k + 1).

Definition Inv (s : TransactionQueue) : Prop := InvT [] s /\ PosOk s.

(** The state in which the execution of [r] is suspended on the executor. *)
Definition running (now : Z) (r : nat) (job : QueueJob) (s : TransactionQueue)
    : TransactionQueue :=
  mkQueue (<[r := markStarted now job]> (heap s)) (jobs s) (pendingQueue s)
    ({[id job]} ∪ processingJobs s) (deadLetterQueue s) (timers s) (awaiting s ++ [r]).

(** The status a status query reports for [jobId] from the main store. *)
Definition statusOf (s : TransactionQueue) (jobId : string) : option JobStatus :=
  match jobs s !! jobId with
  | Some r => status <$> (heap s !! r)
  | None => None
  end.

(** The fields of a job that no method writes after creation. *)
Definition stable (j j' : QueueJob) : Prop :=
  id j' = id j /\ type j' = type j /\ data j' = data j /\
  priority j' = priority j /\ maxAttempts j' = maxAttempts j /\
  createdAt j' = createdAt j.

(** Every object of [h] is still in [h'], with [d r] more attempts. *)
Definition evolves (d : nat -> Z) (h h' : list QueueJob) : Prop :=
  forall r j, h !! r = Some j ->
    exists j', h' !! r = Some j' /\ stable j j' /\ attempts j' = attempts j + d r.

Definition keeps : list QueueJob -> list QueueJob -> Prop := evolves (λ _, 0).

(** The jobs a dispatch pass takes off the pending queue in state [s]. *)
Definition jobsToProcess (s : TransactionQueue) : list nat :=
  if (maxConcurrentJobs <=? size (processingJobs s))%nat then []
  else take (maxConcurrentJobs - size (processingJobs s))
         (sortBy (compareRefs (heap s)) (pendingQueue s)).

(** The event dispatches the job [r]. *)
Definition dispatched (e : Event) (s : TransactionQueue) (r : nat) : Prop :=
  match e with
  | EvTick _ _ => r ∈ jobsToProcess s
  | _ => False
  end.

#[export] Instance dispatched_dec e s r : Decision (dispatched e s r).
Proof. destruct e; simpl; apply _. Defined.

(** Membership of a job id in the four structures. *)
Definition inPending (s : TransactionQueue) (i : string) : Prop :=
  exists r j, r ∈ pendingQueue s /\ heap s !! r = Some j /\ id j = i.
Definition inFlight (s : TransactionQueue) (i : string) : Prop :=
  i ∈ processingJobs s.
Definition inMain (s : TransactionQueue) (i : string) : Prop :=
  is_Some (jobs s !! i).
Definition inDead (s : TransactionQueue) (i : string) : Prop :=
  is_Some (OMap.get i (deadLetterQueue s)).

Definition exactlyOne (a b c d : Prop) : Prop :=
  (a /\ ~ b /\ ~ c /\ ~ d) \/ (~ a /\ b /\ ~ c /\ ~ d) \/
  (~ a /\ ~ b /\ c /\ ~ d) \/ (~ a /\ ~ b /\ ~ c /\ d).

(** The 1-based rank of [r] by (priority, createdAt) among the jobs of
    [q]: one more than the number of jobs that sort strictly before it. *)
Definition rankOf (h : list QueueJob) (q : list nat) (r : nat) : Z :=
  1 + Z.of_nat (length (filter (λ r', compareRefs h r' r < 0) q)).

(** ** Concrete inputs and states *)

Definition demoAddress : string := "0x1234567890abcdefABCDEF1234567890abcdef12".

Definition demoInput (p : Z) : JobInput :=
  mkJobInput ETH_CLAIM (mkJobData demoAddress None None None 0) p 3
    None None None None None.

Definition noJitter : nat -> Q := λ _, 0%Q.

(** One job submitted. *)
Definition demoSubmitted : TransactionQueue :=
  Eval vm_compute in (addJob (demoInput 1) 1 "a" emptyQueue).2.

(** One job submitted and dispatched, its execution suspended. *)
Definition demoRunning : TransactionQueue :=
  Eval vm_compute in processNextJobs 2 noJitter demoSubmitted.

Definition demoDeadEvents : list Event :=
  [ EvAddJob (demoInput 1) 1 "a"; EvTick 2 noJitter;
    EvSettle 0 (Rejected "insufficient funds for gas") 3 0%Q ].

(** One job submitted, dispatched and failed for good. *)
Definition demoDead : TransactionQueue :=
  Eval vm_compute in default emptyQueue (run demoDeadEvents emptyQueue).

Definition fillCycle (n : nat) : list Event :=
  [ EvAddJob (demoInput 1) (Z.of_nat n) "a"; EvTick (Z.of_nat n) noJitter;
    EvSettle 0 (Rejected "insufficient funds") (Z.of_nat n) 0%Q ].

Definition fillEvents : list Event := concat (map fillCycle (seq 0 100)).

(** A hundred jobs submitted, dispatched and failed for good, one by one. *)
Definition demoFull : TransactionQueue :=
  Eval vm_compute in default emptyQueue (run fillEvents emptyQueue).

Definition badInput : JobInput :=
  mkJobInput ETH_CLAIM (mkJobData "not-an-address" None None None 0) 1 3
    None None None None None.

Definition lastChanceInput : JobInput :=
  mkJobInput ETH_CLAIM (mkJobData demoAddress None None None 0) 1 1
    None None None None None.

(** A job with [maxAttempts] = 1 submitted and dispatched. *)
Definition demoLastChance : TransactionQueue :=
  Eval vm_compute in
    processNextJobs 2 noJitter (addJob lastChanceInput 1 "a" emptyQueue).2.

(** Priority 2 submitted first, priority 1 second. *)
Definition demoUnsorted : TransactionQueue :=
  Eval vm_compute in
    (addJob (demoInput 1) 2 "b" (addJob (demoInput 2) 1 "a" emptyQueue).2).2.

(** The submissions of the scenario with priorities 2, 1, 2, 1, 3. *)
Definition demoFiveEvents : list Event :=
  [ EvAddJob (demoInput 2) 1 "a"; EvAddJob (demoInput 1) 2 "b";
    EvAddJob (demoInput 2) 3 "c"; EvAddJob (demoInput 1) 4 "d";
    EvAddJob (demoInput 3) 5 "e" ].

Definition demoFive : TransactionQueue :=
  Eval vm_compute in default emptyQueue (run demoFiveEvents emptyQueue).

(** ** Further notions: the dead-letter queue and the state machine *)

(** What holds of the dead-letter queue: no key twice, and every entry is
    a failed job stored under its own id with its error text. *)
Definition DlqOk (dlq : list (string * QueueJob)) : Prop :=
  NoDup (OMap.keys dlq) /\
  Forall (λ kv, id kv.2 = kv.1 /\ status kv.2 = failed /\ is_Some (error kv.2)) dlq.

(** [getDeadLetterQueue]: the entries, oldest first. *)
Definition getDeadLetterQueue (s : TransactionQueue) : list QueueJob :=
  map snd (deadLetterQueue s).

(** [getPendingJobs]: the jobs of the pending queue, in array order. *)
Definition getPendingJobs (s : TransactionQueue) : list QueueJob :=
  omap (λ r, heap s !! r) (pendingQueue s).

(** The edges of the status of a job. *)
Definition transition (a b : JobStatus) : Prop :=
  match a, b with
  | pending, processing | pending, failed | pending, retrying
  | processing, completed | processing, failed | processing, retrying
  | retrying, pending => True
  | _, _ => False
  end.

(** Every object of [h] is still in [h'] with the same status. *)
Definition statusKept (h h' : list QueueJob) : Prop :=
  forall r j, h !! r = Some j -> exists j', h' !! r = Some j' /\ status j' = status j.

(** Every object of [h] is still in [h'], its status the same or one edge
    further. *)
Definition statusMoves (h h' : list QueueJob) : Prop :=
  forall r j, h !! r = Some j ->
    exists j', h' !! r = Some j' /\
      (status j' = status j \/ transition (status j) (status j')).

(** The jobs of [todo] leave [pending], every other status is kept. *)
Definition statusPicked (todo : list nat) (h h' : list QueueJob) : Prop :=
  forall r j, h !! r = Some j ->
    exists j', h' !! r = Some j' /\
      if decide (r ∈ todo)
      then status j = pending /\
           (status j' = processing \/ status j' = failed \/ status j' = retrying)
      else status j' = status j.

(** The test of the first loop of [clearUserJobs] on a main-store entry:
    a completed or failed job of the caller. *)
Definition clearable (addr : string) (h : list QueueJob) (kv : string * nat) : Prop :=
  match h !! kv.2 with
  | Some job => sameAddress addr job = true /\ (status job = completed \/ status job = failed)
  | None => False
  end.

#[export] Instance clearable_dec addr h kv : Decision (clearable addr h kv).
Proof. unfold clearable. destruct (h !! kv.2); apply _. Defined.

(** ** Statistics *)

Module Stats.
(** [QueueStats]. *)
Record QueueStats := mkQueueStats {
  totalJobs : nat;
  pendingJobs : nat;
  processingJobs : nat;
  completedJobs : nat;
  failedJobs : nat;
  averageProcessingTime : Q;
  queueLength : nat
}.
End Stats.

(** [Array.from(this.jobs.values())]. The counts and the sum of
    [getStats] do not depend on the order of the array. *)
Definition allJobs (s : TransactionQueue) : list QueueJob :=
  omap (λ kv : string * nat, heap s !! kv.2) (map_to_list (jobs s)).

(** [allJobs.filter(job => job.status === st)]. *)
Definition withStatus (st : JobStatus) (l : list QueueJob) : list QueueJob :=
  filter (λ job, status job = st) l.

(** [getStats]. The average is the exact quotient. *)
Definition getStats (s : TransactionQueue) : Stats.QueueStats :=
  let allJobs := allJobs s in
  let completedJobs := withStatus completed allJobs in
  let averageProcessingTime :=
    if (0 <? length completedJobs)%nat
    then Qdiv
           (inject_Z (foldl (λ sum job, sum + (default 0 (completedAt job) - createdAt job))
                        0 completedJobs))
           (inject_Z (Z.of_nat (length completedJobs)))
    else 0%Q in
  Stats.mkQueueStats
    (length allJobs)
    (length (withStatus pending allJobs))
    (length (withStatus processing allJobs))
    (length completedJobs)
    (length (withStatus failed allJobs))
    averageProcessingTime
    (length (pendingQueue s)).

(** The test [status = st] on the object behind a main-store entry. *)
Definition entryStatus (h : list QueueJob) (st : JobStatus) (kv : string * nat) : Prop :=
  status <$> h !! kv.2 = Some st.

#[export] Instance entryStatus_dec h st kv : Decision (entryStatus h st kv).
Proof. unfold entryStatus. apply _. Defined.

(** ** The payload of the jobs handed to the executor *)

(** The jobs whose execution is suspended on the executor have passed
    [validateJobData]. *)
Definition AwaitValid (s : TransactionQueue) : Prop :=
  forall r, r ∈ awaiting s ->
    exists job, heap s !! r = Some job /\ validateJobData job = None.

(** ** Authentication: nonces, signatures and tokens *)

Module Auth.

(** [JWTPayload], without the two fields that [jwt.sign] adds. *)
Record JWTPayload := mkJWTPayload {
  p_address : string;
  p_isAdmin : bool
}.

(** An entry of the nonce store. *)
Record NonceEntry := mkNonceEntry {
  nonce : string;
  timestamp : Z
}.

(** [nonces] is a [Map<string, { nonce, timestamp }>].
    [storeNonce]; [now] is [Date.now()]. *)
Definition storeNonce (address nonce : string) (now : Z) (nonces : gmap string NonceEntry)
    : gmap string NonceEntry :=
  <[Js.toLowerCase address := mkNonceEntry nonce now]> nonces.

(** [getNonce]: [None] is [null]. *)
Definition getNonce (address : string) (nonces : gmap string NonceEntry) : option string :=
  match nonces !! Js.toLowerCase address with
  | Some data => Some (Auth.nonce data)
  | None => None
  end.

(** [removeNonce]. *)
Definition removeNonce (address : string) (nonces : gmap string NonceEntry) : gmap string NonceEntry :=
  delete (Js.toLowerCase address) nonces.

(** The test of the sweep that runs every five minutes. *)
Definition expiredNonce (now : Z) (kv : string * NonceEntry) : Prop :=
  now - timestamp kv.2 > 300000.

#[global] Instance expiredNonce_dec now kv : Decision (expiredNonce now kv).
Proof. unfold expiredNonce. apply _. Defined.

(** The callback of the [setInterval]: every expired entry is deleted. *)
Definition sweepNonces (now : Z) (nonces : gmap string NonceEntry) : gmap string NonceEntry :=
  filter (λ kv, ¬ expiredNonce now kv) nonces.

Section Library.
(** What the libraries compute: [ethers.isAddress], [ethers.verifyMessage]
    ([None] when it throws), [jwt.sign] and [jwt.verify] with the secret of
    the configuration ([None] when they throw), and the administrator's
    address of the configuration. *)
Variable isAddress : string -> bool.
Variable verifyMessage : string -> string -> option string.
Variable sign : JWTPayload -> option string.
Variable verify : string -> option JWTPayload.
Variable adminAddress : string.

(** [isAdmin]. *)
Definition isAdmin (address : string) : bool :=
  String.eqb (Js.toLowerCase address) (Js.toLowerCase adminAddress).

(** [generateToken]: [None] when [jwt.sign] throws. *)
Definition generateToken (address : string) : option string :=
  sign (mkJWTPayload (Js.toLowerCase address) (isAdmin address)).

(** [verifyToken]: [inr] is the message of the error it throws. *)
Definition verifyToken (token : string) : JWTPayload + string :=
  match verify token with
  | Some payload => inl payload
  | None => inr "Invalid or expired token"
  end.

(** [verifySignature]. *)
Definition verifySignature (address signature nonce : string) : bool :=
  let message := "Please sign this message to authenticate with the faucet: " +:+ nonce in
  match verifyMessage message signature with
  | Some recoveredAddress =>
      String.eqb (Js.toLowerCase recoveredAddress) (Js.toLowerCase address)
  | None => false
  end.

(** The body of a request to the verification route; the fields that are
    present are strings. *)
Record VerifyBody := mkVerifyBody {
  vb_address : option string;
  vb_signature : option string;
  vb_nonce : option string
}.

(** The response: the status code with the [error] field, or the token
    with the address. *)
Inductive VerifyResponse :=
| VerifyError (code : nat) (error : string)
| VerifyOk (token : string) (address : string).

(** [POST] of the verification route, after the body has been parsed. *)
Definition verifyRoute (body : VerifyBody) (nonces : gmap string NonceEntry)
    : VerifyResponse * gmap string NonceEntry :=
  let address := default EmptyString (vb_address body) in
  let signature := default EmptyString (vb_signature body) in
  let nonce := default EmptyString (vb_nonce body) in
  if negb (Js.truthy address) || negb (isAddress address)
  then (VerifyError 400 "Invalid Address", nonces)
  else if negb (Js.truthy signature) || negb (Js.truthy nonce)
  then (VerifyError 400 "Missing Data", nonces)
  else
    let storedNonce := getNonce address nonces in
    if negb (Js.truthy_opt storedNonce) || negb (bool_decide (storedNonce = Some nonce))
    then (VerifyError 400 "Invalid Nonce", nonces)
    else if negb (verifySignature address signature nonce)
    then (VerifyError 400 "Invalid Signature", nonces)
    else
      let nonces' := removeNonce address nonces in
      match generateToken address with
      | Some token => (VerifyOk token (Js.toLowerCase address), nonces')
      | None => (VerifyError 500 "Internal Server Error", nonces')
      end.

(** [POST] of the nonce route for a body with the field [address];
    [nonce] is the hexadecimal string drawn from [crypto.randomBytes]. *)
Definition nonceRoute (address : option string) (nonce : string) (now : Z)
    (nonces : gmap string NonceEntry) : option string * gmap string NonceEntry :=
  let address := default EmptyString address in
  if negb (Js.truthy address) || negb (isAddress address)
  then (None, nonces)
  else (Some nonce, storeNonce address nonce now nonces).
End Library.
End Auth.

(** ** The cancellation route *)

Module Routes.
Section Cancel.
Variable verify : string -> option Auth.JWTPayload.

(** The response: the status code with the [error] field, or success
    with the job id. *)
Inductive CancelResponse :=
| CancelError (code : nat) (error : string)
| CancelOk (jobId : string).

(** [authHeader.substring(7)]. *)
Definition bearerToken (authHeader : string) : string :=
  String.substring 7 (String.length authHeader - 7) authHeader.

(** [POST] of the cancellation route: [authHeader] is the authorization
    header ([None] when absent), [jobId] the route parameter. *)
Definition cancelRoute (authHeader : option string) (jobId : string) (now : Z)
    (s : TransactionQueue) : CancelResponse * TransactionQueue :=
  let header := default EmptyString authHeader in
  if negb (Js.truthy header) || negb (String.prefix "Bearer " header)
  then (CancelError 401 "Unauthorized", s)
  else
    let token := bearerToken header in
    match Auth.verifyToken verify token with
    | inr _ => (CancelError 401 "Unauthorized", s)
    | inl payload =>
        if negb (Js.truthy jobId) then (CancelError 400 "Missing Job ID", s)
        else
          match getJob jobId s with
          | None => (CancelError 404 "Job Not Found", s)
          | Some job =>
              if negb (Auth.p_isAdmin payload)
                 && negb (String.eqb (Js.toLowerCase (address (data job)))
                            (Js.toLowerCase (Auth.p_address payload)))
              then (CancelError 403 "Forbidden", s)
              else if negb (bool_decide (status job = pending))
              then (CancelError 400 "Cannot Cancel", s)
              else
                let cancelled := cancelJob jobId now s in
                if negb cancelled.1
                then (CancelError 500 "Cancellation Failed", cancelled.2)
                else (CancelOk jobId, cancelled.2)
          end
    end.
End Cancel.
(** ** The claim route, on the queue path *)

Section Claim.
Variable verify : string -> option Auth.JWTPayload.
Variable isAddress : string -> bool.

(** The fields [address] and [tokenAddress] of the body of a claim; the
    fields that are present are strings, and [useQueue] is left at its
    default, [true]. *)
Record ClaimBody := mkClaimBody {
  cb_address : option string;
  cb_tokenAddress : option string
}.

(** An entry of [dailyClaims]. *)
Record DailyClaim := mkDailyClaim {
  count : Z;
  lastClaim : Z
}.

(** What the route works on: its map [dailyClaims] and the queue. *)
Record ClaimState := mkClaimState {
  dailyClaims : gmap string DailyClaim;
  queue : TransactionQueue
}.

(** The response: the status code with the [error] field, or the queued
    job with [position] and [estimatedTime]. *)
Inductive ClaimResponse :=
| ClaimError (code : nat) (error : string)
| ClaimQueued (jobId : string) (position : Z) (estimatedTime : Z).

Definition zeroAddress : string := "0x0000000000000000000000000000000000000000".

(** The key of [dailyClaims]; [today] is [new Date().toDateString()]. *)
Definition claimKey (address today : string) : string :=
  Js.toLowerCase address +:+ "-" +:+ today.

(** [x || 0] for an optional number. *)
Definition orZero (x : option Z) : Z := default 0 x.

(** [POST] of the claim route for a request that leaves [useQueue] at its
    default: [authHeader] and [userAgent] are the two headers read,
    [today] the date string, [now] is [Date.now()] and [rnd] the digits
    drawn by [generateJobId]. With the queue enabled the direct path is
    taken only when the queue throws, which [addJob] and [getJob] do
    not. *)
Definition claimRoute (authHeader userAgent : option string) (body : ClaimBody)
    (today : string) (now : Z) (rnd : string) (st : ClaimState)
    : ClaimResponse * ClaimState :=
  let address := default EmptyString (cb_address body) in
  let tokenAddress := default EmptyString (cb_tokenAddress body) in
  let header := default EmptyString authHeader in
  if negb (Js.truthy header) || negb (String.prefix "Bearer " header)
  then (ClaimError 401 "Unauthorized", st)
  else
    match Auth.verifyToken verify (bearerToken header) with
    | inr _ => (ClaimError 401 "Unauthorized", st)
    | inl payload =>
        if negb (Js.truthy address) || negb (isAddress address)
        then (ClaimError 400 "Invalid Address", st)
        else if negb (String.eqb (Auth.p_address payload) (Js.toLowerCase address))
        then (ClaimError 403 "Forbidden", st)
        else
          let key := claimKey address today in
          let claimData := dailyClaims st !! key in
          if match claimData with Some d => (5 <=? count d)%Z | None => false end
          then (ClaimError 429 "Rate Limited", st)
          else if Js.truthy tokenAddress && negb (String.eqb tokenAddress zeroAddress)
                  && negb (isAddress tokenAddress)
          then (ClaimError 400 "Invalid Token Address", st)
          else
            let jobType :=
              if negb (Js.truthy tokenAddress) || String.eqb tokenAddress zeroAddress
              then ETH_CLAIM else TOKEN_CLAIM in
            let priority := match jobType with ETH_CLAIM => 1 | TOKEN_CLAIM => 2 end in
            let added :=
              addJob
                (mkJobInput jobType
                   (mkJobData address
                      (if Js.truthy tokenAddress then Some tokenAddress else None)
                      None
                      (if Js.truthy_opt userAgent then userAgent else None)
                      now)
                   priority 3 None None None None None)
                now rnd (queue st) in
            let claims' :=
              <[key := mkDailyClaim
                         (orZero (count <$> claimData) + 1) now]> (dailyClaims st) in
            let job := getJob added.1 added.2 in
            (ClaimQueued added.1
               (orZero (job ≫= position)) (orZero (job ≫= estimatedProcessingTime)),
             mkClaimState claims' added.2)
    end.

(** A request to the claim route. *)
Record ClaimRequest := mkClaimRequest {
  rq_authHeader : option string;
  rq_userAgent : option string;
  rq_body : ClaimBody;
  rq_today : string;
  rq_now : Z;
  rq_rnd : string
}.

Definition serve (rq : ClaimRequest) (st : ClaimState) : ClaimResponse * ClaimState :=
  claimRoute (rq_authHeader rq) (rq_userAgent rq) (rq_body rq) (rq_today rq)
    (rq_now rq) (rq_rnd rq) st.

(** The key under which a request is counted. *)
Definition requestKey (rq : ClaimRequest) : string :=
  claimKey (default EmptyString (cb_address (rq_body rq))) (rq_today rq).

Definition isQueued (r : ClaimResponse) : bool :=
  match r with ClaimQueued _ _ _ => true | ClaimError _ _ => false end.

(** The number of requests of [rqs], served one after the other from
    [st], that are queued under the key [k]. *)
Fixpoint queuedFor (k : string) (rqs : list ClaimRequest) (st : ClaimState) : nat :=
  match rqs with
  | [] => 0
  | rq :: rqs' =>
      let res := serve rq st in
      ((if isQueued res.1 && bool_decide (requestKey rq = k) then 1 else 0)
       + queuedFor k rqs' res.2)%nat
  end.

(** The count stored under the key [k], zero when there is none. *)
Definition dailyCount (k : string) (st : ClaimState) : Z :=
  orZero (count <$> dailyClaims st !! k).

(** The state after the requests of [rqs]. *)
Definition serveAll (rqs : list ClaimRequest) (st : ClaimState) : ClaimState :=
  foldl (λ st rq, (serve rq st).2) st rqs.
End Claim.
End Routes.

(** ** The status route *)

Module StatusRoute.

(** The response: the status code with the [error] field, or the fields
    of the job with the three computed ones. *)
Inductive StatusResponse :=
| StatusError (code : nat) (error : string)
| StatusOk (job : QueueJob) (position : Z) (estimatedTime : option Z)
    (estimatedCompletionTime : option Z).

(** [getPendingJobs().findIndex(j => j.id === jobId)]. *)
Definition findIndex (jobId : string) (s : TransactionQueue) : Z :=
  match list_find (λ j, id j = jobId) (getPendingJobs s) with
  | Some (index, _) => Z.of_nat index
  | None => -1
  end.

(** [Math.ceil(x / 1000)]. *)
Definition ceilSeconds (x : Z) : Z := - ((- x) / 1000).

(** [GET] of the status route; [now] and [now'] are the two values of
    [Date.now()], in the order they are read. *)
Definition statusRoute (jobId : string) (now now' : Z) (s : TransactionQueue)
    : StatusResponse :=
  if negb (Js.truthy jobId) then StatusError 400 "Missing Job ID"
  else
    match getJob jobId s with
    | None => StatusError 404 "Job Not Found"
    | Some job =>
        let queuePosition :=
          match position job with
          | Some p => if (p =? 0)%Z then findIndex jobId s + 1 else p
          | None => findIndex jobId s + 1
          end in
        let estimatedCompletionTime :=
          if bool_decide (status job = pending) && negb (queuePosition =? 0)%Z
          then Some (now + queuePosition * 30 * 1000)
          else None in
        let estimatedTime :=
          match estimatedCompletionTime with
          | Some t => if (t =? 0)%Z then None else Some (ceilSeconds (t - now'))
          | None => None
          end in
        StatusOk job queuePosition estimatedTime estimatedCompletionTime
    end.
End StatusRoute.

(** ** Concrete requests *)

(** A verifier for the examples: the token is the address it was issued
    for, no administrator. *)
Definition demoVerify (token : string) : option Auth.JWTPayload :=
  Some (Auth.mkJWTPayload token false).

(** A claim of ETH for [demoAddress] under its own token. *)
Definition demoClaim (now : Z) (rnd : string) : Routes.ClaimRequest :=
  Routes.mkClaimRequest
    (Some "Bearer 0x1234567890abcdefabcdef1234567890abcdef12") None
    (Routes.mkClaimBody (Some demoAddress) None) "Mon Nov 02 2026" now rnd.

Definition demoClaims : list Routes.ClaimRequest :=
  [ demoClaim 1 "a"; demoClaim 2 "b"; demoClaim 3 "c"; demoClaim 4 "d";
    demoClaim 5 "e"; demoClaim 6 "f"; demoClaim 7 "g" ].

Definition demoClaimState : Routes.ClaimState := Routes.mkClaimState ∅ emptyQueue.

(** ** Job ids *)

(** The string has no underscore. *)
Fixpoint noUnderscore (s : string) : bool :=
  match s with
  | EmptyString => true
  | String c s' => negb (Ascii.eqb c "_") && noUnderscore s'
  end.

(** ** Retry timers *)

(** The object behind [r] is waiting for a retry. *)
Definition retryingAt (h : list QueueJob) (r : nat) : Prop :=
  exists j, h !! r = Some j /\ status j = retrying.

(** Two heaps with the same retrying objects. *)
Definition sameRetrying (h h' : list QueueJob) : Prop :=
  forall r, retryingAt h r <-> retryingAt h' r.

(** The outstanding retry timers are those of the retrying jobs, one
    each. *)
Definition TimersOk (s : TransactionQueue) : Prop :=
  NoDup (timers s).*1 /\ forall r, r ∈ (timers s).*1 <-> retryingAt (heap s) r.

(** One job submitted, dispatched and failed with a retryable error: it
    waits for its retry. *)
Definition demoRetryingEvents : list Event :=
  [ EvAddJob (demoInput 1) 1 "a"; EvTick 2 noJitter;
    EvSettle 0 (Rejected "network down") 3 0%Q ].

Definition demoRetrying : TransactionQueue :=
  Eval vm_compute in default emptyQueue (run demoRetryingEvents emptyQueue).

(** * Properties *)

(** ** Strings *)

Lemma prefix_app (p b : string) : String.prefix p (p +:+ b) = true.
Proof.
  induction p as [|c p IH]; simpl.
  - by destruct b.
  - destruct (ascii_dec c c); [exact IH | congruence].
Qed.

Lemma includes_prefix (s p : string) : String.prefix p s = true -> Js.includes s p = true.
Proof. intros H. destruct s; simpl in *; by rewrite H. Qed.

Lemma includes_app (a p b : string) : Js.includes (a +:+ p +:+ b) p = true.
Proof.
  induction a as [|c a IH].
  - apply includes_prefix. exact (prefix_app p b).
  - simpl. rewrite IH. apply orb_true_r.
Qed.

Lemma toLowerCase_app (a b : string) :
  Js.toLowerCase (a +:+ b) = Js.toLowerCase a +:+ Js.toLowerCase b.
Proof. induction a as [|c a IH]; simpl; [reflexivity | by rewrite IH]. Qed.

Lemma truthy_app_r (a b : string) : Js.truthy b = true -> Js.truthy (a +:+ b) = true.
Proof. by destruct a. Qed.

Lemma errorText_truthy (msg : string) : Js.truthy msg = true -> errorText msg = msg.
Proof. unfold errorText. by intros ->. Qed.

Lemma firstMatch_true (lowered : string) (ps : list string) :
  firstMatch lowered ps = true <-> exists p, p ∈ ps /\ Js.includes lowered p = true.
Proof.
  induction ps as [|q ps IH]; simpl.
  - split; [discriminate | intros (p & Hp & _); by apply elem_of_nil in Hp].
  - destruct (Js.includes lowered q) eqn:E.
    + split; [intros _; exists q; split; [left | done] | done].
    + rewrite IH. split.
      * intros (p & Hp & Hi). exists p. split; [by right | done].
      * intros (p & Hp & Hi). apply elem_of_cons in Hp as [-> | Hp]; [congruence |].
        by exists p.
Qed.

Lemma generateJobId_truthy (now : Z) (rnd : string) :
  Js.truthy (generateJobId now rnd) = true.
Proof. reflexivity. Qed.

(** ** Insertion-ordered maps *)

Section OMapFacts.
Context {V : Type}.
Implicit Types (m : list (string * V)) (k : string) (v : V).

Lemma omap_get_set_eq m k v : OMap.get k (OMap.set k v m) = Some v.
Proof.
  induction m as [|[k' v'] m IH]; simpl.
  - by rewrite String.eqb_refl.
  - destruct (String.eqb k k') eqn:E; simpl; rewrite E; [done | exact IH].
Qed.

Lemma omap_get_set_ne m k k' v :
  k ≠ k' -> OMap.get k' (OMap.set k v m) = OMap.get k' m.
Proof.
  intros Hne. induction m as [|[k0 v0] m IH]; simpl.
  - destruct (String.eqb k' k) eqn:E; [|done].
    apply String.eqb_eq in E. congruence.
  - destruct (String.eqb k k0) eqn:E; simpl; [|by rewrite IH].
    apply String.eqb_eq in E. subst k0.
    destruct (String.eqb k' k) eqn:E'; [|done].
    apply String.eqb_eq in E'. congruence.
Qed.

Lemma omap_get_elem m k v : OMap.get k m = Some v -> (k, v) ∈ m.
Proof.
  induction m as [|[k' v'] m IH]; simpl; [done|].
  destruct (String.eqb k k') eqn:E.
  - apply String.eqb_eq in E. intros [= ->]. subst. left.
  - intros H. right. by apply IH.
Qed.

Lemma omap_get_None m k : OMap.get k m = None <-> k ∉ OMap.keys m.
Proof.
  induction m as [|[k' v'] m IH]; simpl.
  - split; [intros _; apply not_elem_of_nil | done].
  - destruct (String.eqb k k') eqn:E.
    + apply String.eqb_eq in E. subst. split; [done | intros H; destruct H; left].
    + apply String.eqb_neq in E. rewrite IH, not_elem_of_cons. tauto.
Qed.

Lemma omap_set_absent m k v :
  OMap.get k m = None -> OMap.set k v m = m ++ [(k, v)].
Proof.
  induction m as [|[k' v'] m IH]; simpl; [done|].
  destruct (String.eqb k k'); [done | intros H; by rewrite IH].
Qed.

Lemma omap_set_present m k v :
  OMap.get k m ≠ None -> length (OMap.set k v m) = length m.
Proof.
  induction m as [|[k' v'] m IH]; simpl; [done|].
  destruct (String.eqb k k'); simpl; [done | intros H; by rewrite IH].
Qed.

Lemma omap_set_firstKey m k v :
  m ≠ [] -> OMap.firstKey (OMap.set k v m) = OMap.firstKey m.
Proof. destruct m as [|[k' v'] m]; simpl; [done|]. by destruct (String.eqb k k'). Qed.

Lemma omap_elem_set m k v k' v' :
  (k', v') ∈ OMap.set k v m -> (k' = k /\ v' = v) \/ (k', v') ∈ m.
Proof.
  induction m as [|[k0 v0] m IH]; simpl.
  - intros H. apply list_elem_of_singleton in H. left. by inversion H.
  - destruct (String.eqb k k0) eqn:E.
    + apply String.eqb_eq in E. subst k0.
      intros H. apply elem_of_cons in H as [H | H].
      * left. by inversion H.
      * right. by right.
    + intros H. apply elem_of_cons in H as [H | H].
      * right. rewrite H. left.
      * destruct (IH H) as [? | ?]; [by left | right; by right].
Qed.

Lemma omap_elem_delete m k x : x ∈ OMap.delete k m -> x ∈ m.
Proof.
  induction m as [|[k0 v0] m IH]; simpl; [done|].
  destruct (String.eqb k k0).
  - intros H. by right.
  - intros H. apply elem_of_cons in H as [-> | H]; [left | right; by apply IH].
Qed.

Lemma omap_length_delete m k : (length (OMap.delete k m) <= length m)%nat.
Proof.
  induction m as [|[k0 v0] m IH]; simpl; [done|].
  destruct (String.eqb k k0); simpl; lia.
Qed.

Lemma omap_get_delete_ne m k k' :
  k ≠ k' -> OMap.get k' (OMap.delete k m) = OMap.get k' m.
Proof.
  intros Hne. induction m as [|[k0 v0] m IH]; simpl; [done|].
  destruct (String.eqb k k0) eqn:E; simpl.
  - apply String.eqb_eq in E. subst k0.
    destruct (String.eqb k' k) eqn:E'; [|done].
    apply String.eqb_eq in E'. congruence.
  - by rewrite IH.
Qed.

Lemma omap_elem_foldr_delete m (ks : list (string * V)) x :
  x ∈ foldr (λ kv acc, OMap.delete kv.1 acc) m ks -> x ∈ m.
Proof.
  induction ks as [|kv ks IH]; simpl; [done|].
  intros H. apply IH. by eapply omap_elem_delete.
Qed.

Lemma omap_length_foldr_delete m (ks : list (string * V)) :
  (length (foldr (λ kv acc, OMap.delete kv.1 acc) m ks) <= length m)%nat.
Proof.
  induction ks as [|kv ks IH]; simpl; [done|].
  etrans; [apply omap_length_delete | exact IH].
Qed.
End OMapFacts.

(** ** The dead-letter queue *)

Lemma move_elem now job dlq k d :
  (k, d) ∈ moveToDeadLetterQueue now job dlq ->
  (k = id job /\ d = deadCopy now job) \/ (k, d) ∈ dlq.
Proof.
  unfold moveToDeadLetterQueue.
  assert (Hset : (k, d) ∈ OMap.set (id job) (deadCopy now job) dlq ->
                 (k = id job /\ d = deadCopy now job) \/ (k, d) ∈ dlq)
    by apply omap_elem_set.
  destruct (_ <? _)%nat; [|done].
  destruct (OMap.firstKey _) as [oldest|]; [|done].
  destruct (Js.truthy oldest); [|done].
  intros H. apply Hset. by eapply omap_elem_delete.
Qed.

Lemma move_full now job dlq :
  length dlq = deadLetterCapacity ->
  OMap.get (id job) dlq = None ->
  (forall k d, (k, d) ∈ dlq -> Js.truthy k = true) ->
  exists oldest rest,
    dlq = oldest :: rest /\
    moveToDeadLetterQueue now job dlq = rest ++ [(id job, deadCopy now job)].
Proof.
  intros Hlen Hnone Htruthy. unfold moveToDeadLetterQueue.
  rewrite (omap_set_absent _ _ _ Hnone).
  destruct dlq as [|[k0 d0] rest]; [discriminate Hlen|].
  exists (k0, d0), rest. split; [done|].
  rewrite length_app, Hlen. simpl.
  rewrite (Htruthy k0 d0) by left.
  by rewrite String.eqb_refl.
Qed.

Lemma move_length now job dlq :
  (length dlq <= deadLetterCapacity)%nat ->
  (forall k d, (k, d) ∈ dlq -> Js.truthy k = true) ->
  (length (moveToDeadLetterQueue now job dlq) <= deadLetterCapacity)%nat.
Proof.
  intros Hlen Htruthy.
  destruct (OMap.get (id job) dlq) as [d|] eqn:Hget.
  - unfold moveToDeadLetterQueue.
    assert (Hl : length (OMap.set (id job) (deadCopy now job) dlq) = length dlq)
      by (apply omap_set_present; congruence).
    rewrite Hl.
    destruct (Nat.ltb_spec deadLetterCapacity (length dlq)); [lia | by rewrite Hl].
  - destruct (decide (length dlq = deadLetterCapacity)) as [Hfull | Hnot].
    + destruct (move_full now job dlq Hfull Hget Htruthy) as (o & rest & -> & ->).
      rewrite length_app. simpl in *. lia.
    + unfold moveToDeadLetterQueue.
      rewrite (omap_set_absent _ _ _ Hget), length_app. simpl.
      destruct (Nat.ltb_spec deadLetterCapacity (length dlq + 1)); [lia|].
      rewrite length_app. simpl. lia.
Qed.

Lemma move_get now job dlq :
  (length dlq <= deadLetterCapacity)%nat ->
  OMap.get (id job) (moveToDeadLetterQueue now job dlq) = Some (deadCopy now job).
Proof.
  intros Hlen. unfold moveToDeadLetterQueue.
  destruct (Nat.ltb_spec deadLetterCapacity
              (length (OMap.set (id job) (deadCopy now job) dlq))) as [Hgt | Hle];
    [|apply omap_get_set_eq].
  destruct (OMap.get (id job) dlq) as [d|] eqn:Hget.
  { rewrite omap_set_present in Hgt by congruence. lia. }
  assert (Happ : forall m : list (string * QueueJob),
             OMap.get (id job) m = None ->
             OMap.get (id job) (m ++ [(id job, deadCopy now job)]) = Some (deadCopy now job)).
  { intros m Hm. rewrite <- (omap_set_absent _ _ _ Hm). apply omap_get_set_eq. }
  rewrite (omap_set_absent _ _ _ Hget) in *.
  destruct dlq as [|[k0 d0] rest].
  { simpl in Hgt. unfold deadLetterCapacity in Hgt. lia. }
  simpl in Hget. destruct (String.eqb (id job) k0) eqn:E; [done|].
  simpl. destruct (Js.truthy k0).
  - rewrite String.eqb_refl. by apply Happ.
  - simpl. rewrite E. by apply Happ.
Qed.

(** ** Queue positions *)

Lemma sameCore_fields j j' :
  sameCore j j' ->
  id j = id j' /\ status j = status j' /\ attempts j = attempts j' /\
  maxAttempts j = maxAttempts j' /\ priority j = priority j' /\
  createdAt j = createdAt j'.
Proof. unfold sameCore, core. intros [=]. by repeat split. Qed.

Lemma sameCore_heap_refl (h : list QueueJob) : Forall2 sameCore h h.
Proof. apply Forall2_same_length_lookup_2; [done|]. intros i x y ? ?. by simplify_eq. Qed.

Lemma sameCore_heap_trans (h1 h2 h3 : list QueueJob) :
  Forall2 sameCore h1 h2 -> Forall2 sameCore h2 h3 -> Forall2 sameCore h1 h3.
Proof.
  intros H12 H23. eapply Forall2_trans; [| exact H12 | exact H23].
  unfold sameCore. intros x y z ? ?. congruence.
Qed.

Lemma sameCore_alter (h : list QueueJob) (f : QueueJob -> QueueJob) r :
  (forall j, sameCore j (f j)) -> Forall2 sameCore h (alter f r h).
Proof.
  intros Hf. apply Forall2_same_length_lookup_2; [by rewrite length_alter|].
  intros i x y Hx Hy. destruct (decide (r = i)) as [->|Hne].
  - rewrite list_lookup_alter_eq, Hx in Hy. simpl in Hy. simplify_eq. apply Hf.
  - rewrite list_lookup_alter_ne, Hx in Hy by done. simplify_eq. reflexivity.
Qed.

Lemma setPositions_sameCore (q : list nat) (h : list QueueJob) (i : Z) :
  Forall2 sameCore h (setPositions h q i).
Proof.
  revert h i. induction q as [|r q IH]; intros h i; simpl.
  - apply sameCore_heap_refl.
  - eapply sameCore_heap_trans; [|apply IH]. by apply sameCore_alter.
Qed.

Lemma setPositions_notin (q : list nat) (h : list QueueJob) (i : Z) (r : nat) :
  r ∉ q -> setPositions h q i !! r = h !! r.
Proof.
  revert h i. induction q as [|r0 q IH]; intros h i Hr; simpl; [done|].
  apply not_elem_of_cons in Hr as [Hne Hr].
  rewrite IH by done. by apply list_lookup_alter_ne.
Qed.

Lemma setPositions_lookup (q : list nat) (h : list QueueJob) (i : Z) (k r : nat) :
  NoDup q -> q !! k = Some r -> is_Some (h !! r) ->
  exists j, setPositions h q i !! r = Some j /\ position j = Some (i + Z.of_nat k + 1).
Proof.
  revert h i k. induction q as [|r0 q IH]; intros h i k Hnd Hk [j Hj]; [done|].
  apply NoDup_cons in Hnd as [Hr0 Hnd].
  destruct k as [|k]; simpl in *.
  - simplify_eq. rewrite setPositions_notin by done.
    rewrite list_lookup_alter_eq, Hj. simpl. eexists. split; [done|].
    simpl. f_equal. lia.
  - destruct (IH (alter (setPosition i) r0 h) (i + 1) k Hnd Hk) as (j' & Hj' & Hp).
    { destruct (decide (r0 = r)) as [->|Hne].
      - rewrite list_lookup_alter_eq, Hj. by eexists.
      - rewrite list_lookup_alter_ne by done. by eexists. }
    exists j'. split; [done|]. rewrite Hp. f_equal. lia.
Qed.

(** ** The invariant of the queue *)

(** One job object changes, and the structures follow its status. *)
Lemma InvT_update todo s r j j' todo' pq' proc' dlq' tm' aw' :
  InvT todo s ->
  heap s !! r = Some j ->
  id j' = id j -> maxAttempts j' = maxAttempts j ->
  status j ≠ completed -> status j ≠ failed ->
  (1 <= maxAttempts j ->
   attempts j' <= maxAttempts j /\
   (status j' = pending \/ status j' = retrying -> attempts j' < maxAttempts j)) ->
  (forall x, x ∈ todo' ++ pq' <->
     (x ≠ r /\ x ∈ todo ++ pendingQueue s) \/ (x = r /\ status j' = pending)) ->
  NoDup (todo' ++ pq') ->
  (forall x, x ∈ aw' <->
     (x ≠ r /\ x ∈ awaiting s) \/ (x = r /\ status j' = processing)) ->
  NoDup aw' ->
  (forall i, i ∈ proc' <->
     (i ≠ id j /\ i ∈ processingJobs s) \/ (i = id j /\ status j' = processing)) ->
  (size proc' + length todo' <= maxConcurrentJobs)%nat ->
  (length dlq' <= deadLetterCapacity)%nat ->
  (forall k d, (k, d) ∈ dlq' ->
     (k, d) ∈ deadLetterQueue s \/
     (k = id j /\ id d = k /\ status d = failed /\ status j' = failed)) ->
  InvT todo' (mkQueue (<[r := j']> (heap s)) (jobs s) pq' proc' dlq' tm' aw').
Proof.
  intros HI Hj Hid Hmax Hnc Hnf Hatt Hq Hnd Haw Hawnd Hproc Hsize Hdlen Hdlq.
  assert (Hlt : (r < length (heap s))%nat) by (by eapply lookup_lt_Some).
  assert (Hnew : forall x y, <[r := j']> (heap s) !! x = Some y <->
                   (x = r /\ y = j') \/ (x ≠ r /\ heap s !! x = Some y)).
  { intros x y. rewrite list_lookup_insert_Some. split.
    - intros [(<- & <- & _) | (Hne & H)]; [by left | right]. by split.
    - intros [[-> ->] | [Hne H]]; [by left | right]. by split. }
  destruct HI as [Iids Itr Ijobs Ilive Iq Ind Iaw Iawnd Iproc Isize Iatt Idl Idlq].
  constructor; simpl.
  - intros r1 r2 j1 j2 H1 H2 Heq.
    apply Hnew in H1 as [[-> ->] | [Hn1 H1]]; apply Hnew in H2 as [[-> ->] | [Hn2 H2]].
    + done.
    + symmetry. eapply Iids; [exact H2 | exact Hj | congruence].
    + eapply Iids; [exact H1 | exact Hj | congruence].
    + by eapply Iids.
  - intros x y H. apply Hnew in H as [[-> ->] | [_ H]].
    + rewrite Hid. by eapply Itr.
    + by eapply Itr.
  - intros i x H. destruct (Ijobs i x H) as (y & Hy & Hi).
    destruct (decide (x = r)) as [->|Hne].
    + exists j'. split; [apply Hnew; by left | simplify_eq; done].
    + exists y. split; [apply Hnew; by right | done].
  - intros x y H Hc Hf. apply Hnew in H as [[-> ->] | [_ H]].
    + rewrite Hid. by apply Ilive.
    + by apply Ilive.
  - intros x. rewrite Hq. split.
    + intros [[Hne Hin] | [-> Hst]].
      * apply Iq in Hin as (y & Hy & Hs). exists y. split; [apply Hnew; by right | done].
      * exists j'. split; [apply Hnew; by left | done].
    + intros (y & Hy & Hs). apply Hnew in Hy as [[-> ->] | [Hne Hy]].
      * by right.
      * left. split; [done|]. apply Iq. by exists y.
  - done.
  - intros x. rewrite Haw. split.
    + intros [[Hne Hin] | [-> Hst]].
      * apply Iaw in Hin as (y & Hy & Hs). exists y. split; [apply Hnew; by right | done].
      * exists j'. split; [apply Hnew; by left | done].
    + intros (y & Hy & Hs). apply Hnew in Hy as [[-> ->] | [Hne Hy]].
      * by right.
      * left. split; [done|]. apply Iaw. by exists y.
  - done.
  - intros i. rewrite Hproc. split.
    + intros [[Hne Hin] | [-> Hst]].
      * apply Iproc in Hin as (x & y & Hy & Hi & Hs).
        exists x, y. split; [|done]. apply Hnew. right. split; [|done].
        intros ->. by simplify_eq.
      * exists r, j'. split; [apply Hnew; by left | done].
    + intros (x & y & Hy & Hi & Hs). apply Hnew in Hy as [[-> ->] | [Hne Hy]].
      * right. split; [congruence | done].
      * left. split.
        -- intros ->. apply Hne. eapply Iids; [exact Hy | exact Hj | done].
        -- apply Iproc. by exists x, y.
  - done.
  - intros x y H Hm. apply Hnew in H as [[-> ->] | [_ H]].
    + rewrite Hmax in *. by apply Hatt.
    + by eapply Iatt.
  - done.
  - intros k d Hin. destruct (Hdlq k d Hin) as [Hold | (-> & Hd & Hs & Hs')].
    + destruct (Idlq k d Hold) as (? & ? & x & y & Hy & Hi & Hst).
      split; [done|]. split; [done|].
      destruct (decide (x = r)) as [->|Hne]; [simplify_eq; done|].
      exists x, y. split; [apply Hnew; by right | done].
    + split; [done|]. split; [done|].
      exists r, j'. split; [apply Hnew; by left | done].
Qed.

(** The invariant does not read the two fields of [updateQueuePositions]. *)
Lemma InvT_sameCore todo s h' :
  InvT todo s -> Forall2 sameCore (heap s) h' -> InvT todo (withHeap h' s).
Proof.
  intros HI HF.
  assert (Hfw : forall r j, heap s !! r = Some j ->
                  exists j', h' !! r = Some j' /\ sameCore j j')
    by (intros r j; apply Forall2_lookup_l, HF).
  assert (Hbw : forall r j', h' !! r = Some j' ->
                  exists j, heap s !! r = Some j /\ sameCore j j')
    by (intros r j'; apply Forall2_lookup_r, HF).
  destruct HI as [Iids Itr Ijobs Ilive Iq Ind Iaw Iawnd Iproc Isize Iatt Idl Idlq].
  constructor; simpl; try done.
  - intros r1 r2 j1 j2 H1 H2 Heq.
    destruct (Hbw _ _ H1) as (y1 & Hy1 & (E1 & _)%sameCore_fields).
    destruct (Hbw _ _ H2) as (y2 & Hy2 & (E2 & _)%sameCore_fields).
    eapply Iids; [exact Hy1 | exact Hy2 | congruence].
  - intros r j H. destruct (Hbw _ _ H) as (y & Hy & (E & _)%sameCore_fields).
    rewrite <- E. by eapply Itr.
  - intros i r H. destruct (Ijobs i r H) as (y & Hy & Hi).
    destruct (Hfw _ _ Hy) as (y' & Hy' & (E & _)%sameCore_fields).
    exists y'. split; [done | congruence].
  - intros r j H Hc Hf. destruct (Hbw _ _ H) as (y & Hy & (E & Es & _)%sameCore_fields).
    rewrite <- E. apply Ilive; congruence.
  - intros r. rewrite Iq. split.
    + intros (y & Hy & Hs). destruct (Hfw _ _ Hy) as (y' & Hy' & (_ & Es & _)%sameCore_fields).
      exists y'. split; [done | congruence].
    + intros (y & Hy & Hs). destruct (Hbw _ _ Hy) as (y' & Hy' & (_ & Es & _)%sameCore_fields).
      exists y'. split; [done | congruence].
  - intros r. rewrite Iaw. split.
    + intros (y & Hy & Hs). destruct (Hfw _ _ Hy) as (y' & Hy' & (_ & Es & _)%sameCore_fields).
      exists y'. split; [done | congruence].
    + intros (y & Hy & Hs). destruct (Hbw _ _ Hy) as (y' & Hy' & (_ & Es & _)%sameCore_fields).
      exists y'. split; [done | congruence].
  - intros i. rewrite Iproc. split.
    + intros (r & y & Hy & Hi & Hs).
      destruct (Hfw _ _ Hy) as (y' & Hy' & (E & Es & _)%sameCore_fields).
      exists r, y'. split; [done|]. split; congruence.
    + intros (r & y & Hy & Hi & Hs).
      destruct (Hbw _ _ Hy) as (y' & Hy' & (E & Es & _)%sameCore_fields).
      exists r, y'. split; [done|]. split; congruence.
  - intros r j H Hm.
    destruct (Hbw _ _ H) as (y & Hy & (_ & Es & Ea & Em & _)%sameCore_fields).
    rewrite <- Es, <- Ea, <- Em in *. by eapply Iatt.
  - intros k d Hin. destruct (Idlq k d Hin) as (? & ? & r & y & Hy & Hi & Hs).
    split; [done|]. split; [done|].
    destruct (Hfw _ _ Hy) as (y' & Hy' & (E & Es & _)%sameCore_fields).
    exists r, y'. split; [done|]. split; congruence.
Qed.

Lemma PosOk_update s r j j' jobs' proc' dlq' tm' aw' :
  PosOk s -> heap s !! r = Some j -> position j' = position j ->
  PosOk (mkQueue (<[r := j']> (heap s)) jobs' (pendingQueue s) proc' dlq' tm' aw').
Proof.
  intros HP Hj Hpos k x Hk. simpl in *.
  destruct (HP k x Hk) as (y & Hy & Hp).
  destruct (decide (x = r)) as [->|Hne].
  - exists j'. split; [|by simplify_eq; congruence].
    apply list_lookup_insert_eq. by eapply lookup_lt_Some.
  - exists y. by rewrite list_lookup_insert_ne.
Qed.

Lemma PosOk_updateQueuePositions s :
  NoDup (pendingQueue s) ->
  (forall r, r ∈ pendingQueue s -> is_Some (heap s !! r)) ->
  PosOk (updateQueuePositions s).
Proof.
  intros Hnd Hval k r Hk. simpl in *.
  destruct (setPositions_lookup (pendingQueue s) (heap s) 0 k r Hnd Hk) as (j & Hj & Hp).
  { apply Hval. by eapply list_elem_of_lookup_2. }
  exists j. split; [done|]. rewrite Hp. f_equal; lia.
Qed.

Lemma InvT_valid todo s r :
  InvT todo s -> r ∈ pendingQueue s -> is_Some (heap s !! r).
Proof.
  intros HI Hr. destruct (proj1 (inv_queue _ _ HI r)) as (j & Hj & _).
  - apply elem_of_app. by right.
  - by exists j.
Qed.

Lemma Inv_positions s : InvT [] s -> Inv (updateQueuePositions s).
Proof.
  intros HI. split.
  - apply InvT_sameCore; [done | apply setPositions_sameCore].
  - apply PosOk_updateQueuePositions.
    + by apply (inv_nodup _ _ HI).
    + intros r. by apply InvT_valid with [].
Qed.

(** A new job object enters the heap, the main store and the queue. *)
Lemma InvT_alloc s job :
  InvT [] s -> freshId (id job) s -> Js.truthy (id job) = true ->
  status job = pending -> attempts job = 0 ->
  InvT [] (mkQueue (heap s ++ [job]) (<[id job := length (heap s)]> (jobs s))
             (pendingQueue s ++ [length (heap s)]) (processingJobs s)
             (deadLetterQueue s) (timers s) (awaiting s)).
Proof.
  intros HI Hfresh Htr Hst Hatt.
  assert (Hnew : forall x y, (heap s ++ [job]) !! x = Some y <->
                   (heap s !! x = Some y) \/ (x = length (heap s) /\ y = job)).
  { intros x y. rewrite lookup_snoc_Some. split.
    - intros [[_ H] | [-> ->]]; [by left | by right].
    - intros [H | [-> ->]]; [left | by right]. split; [by eapply lookup_lt_Some | done]. }
  assert (Hold : forall x y, heap s !! x = Some y -> x ≠ length (heap s) /\ id y ≠ id job).
  { intros x y H. split.
    - apply lookup_lt_Some in H. lia.
    - unfold freshId in Hfresh. rewrite Forall_forall in Hfresh.
      apply Hfresh. by eapply list_elem_of_lookup_2. }
  destruct HI as [Iids Itr Ijobs Ilive Iq Ind Iaw Iawnd Iproc Isize Iatt Idl Idlq].
  simpl in *.
  constructor; simpl; try done.
  - intros r1 r2 j1 j2 H1 H2 Heq.
    apply Hnew in H1 as [H1 | [-> ->]]; apply Hnew in H2 as [H2 | [-> ->]].
    + by eapply Iids.
    + by destruct (Hold _ _ H1).
    + destruct (Hold _ _ H2) as [_ ?]. congruence.
    + done.
  - intros x y H. apply Hnew in H as [H | [-> ->]]; [by eapply Itr | done].
  - intros i x H. apply lookup_insert_Some in H as [[<- <-] | [Hne H]].
    + exists job. split; [apply Hnew; by right | done].
    + destruct (Ijobs i x H) as (y & Hy & Hi). exists y. split; [apply Hnew; by left | done].
  - intros x y H Hc Hf. apply Hnew in H as [H | [-> ->]].
    + destruct (Hold _ _ H) as [_ Hne]. rewrite lookup_insert_ne by done. by apply Ilive.
    + apply lookup_insert_eq.
  - intros x. rewrite elem_of_app, list_elem_of_singleton. split.
    + intros [Hin | ->].
      * apply Iq in Hin as (y & Hy & Hs). exists y. split; [apply Hnew; by left | done].
      * exists job. split; [apply Hnew; by right | done].
    + intros (y & Hy & Hs). apply Hnew in Hy as [Hy | [-> ->]]; [left | by right].
      apply Iq. by exists y.
  - apply NoDup_app. split; [done|]. split; [|apply NoDup_singleton].
    intros x Hx Hx'. apply list_elem_of_singleton in Hx'. subst x.
    apply Iq in Hx as (y & Hy & _). by destruct (Hold _ _ Hy).
  - intros x. rewrite Iaw. split.
    + intros (y & Hy & Hs). exists y. split; [apply Hnew; by left | done].
    + intros (y & Hy & Hs). apply Hnew in Hy as [Hy | [-> ->]]; [by exists y | congruence].
  - intros i. rewrite Iproc. split.
    + intros (x & y & Hy & Hi & Hs). exists x, y. split; [apply Hnew; by left | done].
    + intros (x & y & Hy & Hi & Hs).
      apply Hnew in Hy as [Hy | [-> ->]]; [by exists x, y | congruence].
  - intros x y H Hm. apply Hnew in H as [H | [-> ->]]; [by eapply Iatt|].
    rewrite Hatt. split; [lia | intros _; lia].
  - intros k d Hin. destruct (Idlq k d Hin) as (? & ? & x & y & Hy & Hi & Hs).
    split; [done|]. split; [done|]. exists x, y. split; [apply Hnew; by left | done].
Qed.

(** Entries leave the main store and the dead-letter queue. *)
Lemma InvT_shrink todo s jobs' dlq' :
  InvT todo s ->
  (forall i r, jobs' !! i = Some r -> jobs s !! i = Some r) ->
  (forall i r, jobs s !! i = Some r -> jobs' !! i = None ->
     exists j, heap s !! r = Some j /\ (status j = completed \/ status j = failed)) ->
  (length dlq' <= deadLetterCapacity)%nat ->
  (forall x, x ∈ dlq' -> x ∈ deadLetterQueue s) ->
  InvT todo (mkQueue (heap s) jobs' (pendingQueue s) (processingJobs s) dlq'
               (timers s) (awaiting s)).
Proof.
  intros HI Hsub Hdel Hlen Hdsub.
  destruct HI as [Iids Itr Ijobs Ilive Iq Ind Iaw Iawnd Iproc Isize Iatt Idl Idlq].
  constructor; simpl; try done.
  - intros i r H. apply Ijobs. by apply Hsub.
  - intros r j H Hc Hf. pose proof (Ilive r j H Hc Hf) as Hl.
    destruct (jobs' !! id j) as [r'|] eqn:E.
    + apply Hsub in E. congruence.
    + destruct (Hdel _ _ Hl E) as (y & Hy & [Hs | Hs]); simplify_eq; done.
  - intros k d Hin. apply Idlq. by apply Hdsub.
Qed.

Lemma InvT_not_queue todo s r j :
  InvT todo s -> heap s !! r = Some j -> status j ≠ pending ->
  r ∉ todo ++ pendingQueue s.
Proof.
  intros HI Hj Hs Hin. apply (inv_queue _ _ HI) in Hin as (y & Hy & Hst).
  by simplify_eq.
Qed.

Lemma InvT_not_awaiting todo s r j :
  InvT todo s -> heap s !! r = Some j -> status j ≠ processing -> r ∉ awaiting s.
Proof.
  intros HI Hj Hs Hin. apply (inv_await _ _ HI) in Hin as (y & Hy & Hst).
  by simplify_eq.
Qed.

Lemma InvT_not_proc todo s r j :
  InvT todo s -> heap s !! r = Some j -> status j ≠ processing ->
  id j ∉ processingJobs s.
Proof.
  intros HI Hj Hs Hin. apply (inv_proc _ _ HI) in Hin as (x & y & Hy & Hi & Hst).
  assert (x = r) by (eapply (inv_ids _ _ HI); eauto). by simplify_eq.
Qed.

(** The invariant does not read the timers. *)
Lemma InvT_timers todo s tm :
  InvT todo s ->
  InvT todo (mkQueue (heap s) (jobs s) (pendingQueue s) (processingJobs s)
               (deadLetterQueue s) tm (awaiting s)).
Proof. intros [? ? ? ? ? ? ? ? ? ? ? ? ?]. by constructor. Qed.

(** The invariant reads the queue and the spliced jobs as one set. *)
Lemma InvT_requeue todo s todo' pq' :
  InvT todo s -> todo' ++ pq' ≡ₚ todo ++ pendingQueue s ->
  (size (processingJobs s) + length todo' <= maxConcurrentJobs)%nat ->
  InvT todo' (withPending pq' s).
Proof.
  intros [Iids Itr Ijobs Ilive Iq Ind Iaw Iawnd Iproc Isize Iatt Idl Idlq] Hperm Hsz.
  constructor; simpl; try done.
  - intros r. rewrite Hperm. apply Iq.
  - by rewrite Hperm.
Qed.

Lemma PosOk_same s s' :
  heap s' = heap s -> pendingQueue s' = pendingQueue s -> PosOk s -> PosOk s'.
Proof. unfold PosOk. intros -> ->. done. Qed.

(** *** Submission and replay *)

Lemma addJob_Inv input now rnd s :
  Inv s -> freshId (generateJobId now rnd) s -> Inv (addJob input now rnd s).2.
Proof.
  intros [HI _] Hfresh. apply Inv_positions.
  by apply (InvT_alloc s (newJob now (generateJobId now rnd) (length (pendingQueue s)) input)).
Qed.

Lemma retryFailedJob_Inv jobId now rnd s :
  Inv s -> freshId (generateJobId now rnd) s -> Inv (retryFailedJob jobId now rnd s).2.
Proof.
  intros HInv Hfresh. unfold retryFailedJob.
  destruct (OMap.get jobId (deadLetterQueue s)) as [failedJob|]; [|done].
  destruct HInv as [HI _]. simpl.
  pose proof (InvT_alloc s (replayCopy now (generateJobId now rnd) failedJob) HI Hfresh
                eq_refl eq_refl eq_refl) as HA.
  apply Inv_positions in HA as [HA HP]. split.
  - refine (InvT_shrink _ _ _ (OMap.delete jobId (deadLetterQueue s)) HA _ _ _ _); simpl.
    + done.
    + intros i r H1 H2. congruence.
    + etrans; [apply omap_length_delete | apply (inv_dlq_len _ _ HI)].
    + intros x. apply omap_elem_delete.
  - eapply PosOk_same; [| | exact HP]; done.
Qed.

(** *** Retention and clearing *)

Lemma cleanupOldJobs_Inv now s : Inv s -> Inv (cleanupOldJobs now s).
Proof.
  intros [HI HP]. split; [|by eapply PosOk_same; [| | exact HP]].
  apply InvT_shrink; try done.
  - intros i r H. by apply map_lookup_filter_Some in H as [H _].
  - intros i r H Hnone.
    destruct (decide (expired (heap s) (now - 24 * 60 * 60 * 1000) (i, r))) as [He | Hn].
    + unfold expired in He. simpl in He. destruct (heap s !! r) as [j|]; [|done].
      exists j. split; [done | tauto].
    + assert (filter (λ kv, ¬ expired (heap s) (now - 24 * 60 * 60 * 1000) kv) (jobs s) !! i
              = Some r) as Hsome by (by apply map_lookup_filter_Some).
      congruence.
  - apply (inv_dlq_len _ _ HI).
Qed.

Lemma lookup_foldr_delete (m : gmap string nat) (ks : list string) (i : string) :
  foldr delete m ks !! i = if decide (i ∈ ks) then None else m !! i.
Proof.
  induction ks as [|k ks IH]; simpl; [done|].
  destruct (decide (k = i)) as [->|Hne].
  - rewrite lookup_delete_eq. by rewrite decide_True by left.
  - rewrite lookup_delete_ne, IH by done.
    destruct (decide (i ∈ ks)).
    + by rewrite decide_True by (by right).
    + rewrite decide_False; [done|]. rewrite not_elem_of_cons. by split.
Qed.

Lemma clearUserJobs_Inv addr s : Inv s -> Inv (clearUserJobs addr s).2.
Proof.
  intros [HI HP]. split; [|by eapply PosOk_same; [| | exact HP]].
  unfold clearUserJobs. simpl. apply InvT_shrink; try done.
  - intros i r H. rewrite lookup_foldr_delete in H. by case_decide.
  - intros i r H Hnone. rewrite lookup_foldr_delete in Hnone.
    case_decide as Hin; [|congruence].
    unfold clearedIds in Hin. apply list_elem_of_omap in Hin as ([k x] & Hkx & Hsome).
    apply elem_of_map_to_list in Hkx. simpl in Hsome.
    destruct (heap s !! x) as [job|] eqn:Hjob; [|done].
    destruct (sameAddress addr job && _) eqn:Hc; [|done].
    injection Hsome as Hsome. subst i.
    destruct (inv_jobs _ _ HI k x Hkx) as (y & Hy & Hi).
    assert (y = job) as -> by congruence.
    rewrite Hi in H. assert (x = r) as -> by congruence.
    exists job. split; [done|].
    apply andb_true_iff in Hc as [_ Hc]. apply orb_true_iff in Hc as [Hc | Hc];
      apply bool_decide_eq_true in Hc; tauto.
  - etrans; [apply omap_length_foldr_delete | apply (inv_dlq_len _ _ HI)].
  - intros x. apply omap_elem_foldr_delete.
Qed.

(** *** Membership after one element joins or leaves *)

Lemma keep_iff {A} (l : list A) (r x : A) (P : Prop) :
  r ∉ l -> ~ P -> (x ∈ l <-> (x ≠ r /\ x ∈ l) \/ (x = r /\ P)).
Proof.
  intros Hr HP. split.
  - intros Hx. left. split; [|done]. by intros ->.
  - intros [[_ Hx] | [_ HP']]; [done | by destruct HP].
Qed.

Lemma snoc_iff {A} (l : list A) (r x : A) (P : Prop) :
  r ∉ l -> P -> (x ∈ l ++ [r] <-> (x ≠ r /\ x ∈ l) \/ (x = r /\ P)).
Proof.
  intros Hr HP. rewrite elem_of_app, list_elem_of_singleton. split.
  - intros [Hx | ->]; [left | by right]. split; [|done]. by intros ->.
  - intros [[_ Hx] | [-> _]]; [by left | by right].
Qed.

Lemma NoDup_snoc_fresh {A} (l : list A) (r : A) : NoDup l -> r ∉ l -> NoDup (l ++ [r]).
Proof.
  intros Hnd Hr. apply NoDup_app. split; [done|]. split; [|apply NoDup_singleton].
  intros x Hx Hx'. apply list_elem_of_singleton in Hx'. by subst.
Qed.

Lemma NoDup_delete_at {A} (l : list A) (k : nat) : NoDup l -> NoDup (delete k l).
Proof. intros Hnd. eapply sublist_NoDup; [exact Hnd | apply sublist_delete]. Qed.

Lemma drop_iff {A} (l : list A) (k : nat) (r x : A) (P : Prop) :
  NoDup l -> l !! k = Some r -> ~ P ->
  (x ∈ delete k l <-> (x ≠ r /\ x ∈ l) \/ (x = r /\ P)).
Proof.
  intros Hnd Hk HP. rewrite delete_take_drop.
  rewrite <- (take_drop_middle l k r Hk) in Hnd.
  rewrite <- (take_drop_middle l k r Hk) at 3.
  apply NoDup_app in Hnd as (_ & Hdisj & Hnd). apply NoDup_cons in Hnd as [Hr _].
  rewrite !elem_of_app, elem_of_cons. split.
  - intros [Hx | Hx]; left.
    + split; [|by left]. intros ->. apply (Hdisj _ Hx). left.
    + split; [|right; by right]. by intros ->.
  - intros [[Hne [Hx | [-> | Hx]]] | [_ HP']]; [by left | done | by right | by destruct HP].
Qed.

Lemma keep_set_iff (S : gset string) (i0 i : string) (P : Prop) :
  i0 ∉ S -> ~ P -> (i ∈ S <-> (i ≠ i0 /\ i ∈ S) \/ (i = i0 /\ P)).
Proof.
  intros Hr HP. split.
  - intros Hx. left. split; [|done]. by intros ->.
  - intros [[_ Hx] | [_ HP']]; [done | by destruct HP].
Qed.

Lemma add_set_iff (S : gset string) (i0 i : string) (P : Prop) :
  P -> (i ∈ {[i0]} ∪ S <-> (i ≠ i0 /\ i ∈ S) \/ (i = i0 /\ P)).
Proof.
  intros HP. rewrite elem_of_union, elem_of_singleton.
  destruct (decide (i = i0)); tauto.
Qed.

Lemma del_set_iff (S : gset string) (i0 i : string) (P : Prop) :
  ~ P -> (i ∈ S ∖ {[i0]} <-> (i ≠ i0 /\ i ∈ S) \/ (i = i0 /\ P)).
Proof.
  intros HP. rewrite elem_of_difference, elem_of_singleton. tauto.
Qed.

(** *** Cancellation *)

Lemma cancelJob_find s jobId r job j' :
  InvT [] s -> jobs s !! jobId = Some r -> heap s !! r = Some job ->
  status job = pending -> id j' = id job ->
  exists index,
    list_find (hasId (<[r := j']> (heap s)) jobId) (pendingQueue s) = Some (index, r) /\
    pendingQueue s !! index = Some r.
Proof.
  intros HI Hjobs Hjob Hst Hid.
  destruct (inv_jobs _ _ HI jobId r Hjobs) as (y & Hy & Hidy).
  assert (y = job) as -> by congruence.
  assert (Hin : r ∈ pendingQueue s) by (apply (inv_queue _ _ HI); by exists job).
  assert (Hr : hasId (<[r := j']> (heap s)) jobId r).
  { unfold hasId. rewrite list_lookup_insert_eq by (by eapply lookup_lt_Some).
    simpl. congruence. }
  destruct (list_find_elem_of (hasId (<[r := j']> (heap s)) jobId) _ r Hin Hr)
    as [[index x] Hfind].
  exists index. pose proof Hfind as Hf.
  apply list_find_Some in Hf as (Hk & Hhas & _).
  assert (x = r) as ->; [|done].
  destruct (decide (x = r)) as [|Hne]; [done|].
  unfold hasId in Hhas. rewrite list_lookup_insert_ne in Hhas by done.
  destruct (heap s !! x) as [jx|] eqn:Hx; [|done]. simpl in Hhas.
  eapply (inv_ids _ _ HI); [exact Hx | exact Hjob | congruence].
Qed.

Lemma cancelJob_Inv jobId now s : Inv s -> Inv (cancelJob jobId now s).2.
Proof.
  intros [HI HP]. unfold cancelJob.
  destruct (jobs s !! jobId) as [r|] eqn:Hjobs; [|done].
  destruct (heap s !! r) as [job|] eqn:Hjob; [|done].
  case_decide as Hst; [|done].
  destruct (cancelJob_find s jobId r job (markError now "Cancelled by user" failed job)
              HI Hjobs Hjob Hst eq_refl) as (index & -> & Hk).
  simpl. apply Inv_positions. unfold withPending, withHeap. simpl.
  pose proof (inv_nodup _ _ HI) as Hnd. simpl in Hnd.
  apply (InvT_update [] s r job _ []); simpl; try done.
  - rewrite Hst. done.
  - rewrite Hst. done.
  - intros Hm. destruct (inv_attempts _ _ HI r job Hjob Hm) as [Ha _].
    split; [done | intros [? | ?]; done].
  - intros x. apply drop_iff; done.
  - by apply NoDup_delete_at.
  - intros x. apply keep_iff; [|done].
    eapply InvT_not_awaiting; [done..|]. by rewrite Hst.
  - apply (inv_await_nodup _ _ HI).
  - intros i. apply keep_set_iff; [|done].
    eapply InvT_not_proc; [done..|]. by rewrite Hst.
  - pose proof (inv_size _ _ HI) as Hs. simpl in *. lia.
  - apply (inv_dlq_len _ _ HI).
  - intros k d Hin. by left.
Qed.

(** *** The retry timer *)

Lemma retryTimer_Inv k s : Inv s -> Inv (retryTimer k s).
Proof.
  intros [HI HP]. unfold retryTimer.
  destruct (timers s !! k) as [[r d]|]; [|done].
  assert (Hidle : Inv (mkQueue (heap s) (jobs s) (pendingQueue s) (processingJobs s)
                         (deadLetterQueue s) (delete k (timers s)) (awaiting s))).
  { split; [by apply InvT_timers | by eapply PosOk_same; [| | exact HP]]. }
  destruct (heap s !! r) as [job|] eqn:Hjob; [|done].
  case_decide as Hst; [|done].
  apply Inv_positions. unfold withPending, withHeap. simpl.
  assert (Hnq : r ∉ pendingQueue s).
  { eapply (InvT_not_queue []); [done..|]. by rewrite Hst. }
  pose proof (inv_nodup _ _ HI) as Hnd. simpl in Hnd.
  apply (InvT_update [] s r job _ []); simpl; try done.
  - by rewrite Hst.
  - by rewrite Hst.
  - intros Hm. destruct (inv_attempts _ _ HI r job Hjob Hm) as [Ha Hb].
    split; [done | intros _; apply Hb; by right].
  - intros x. by apply snoc_iff.
  - by apply NoDup_snoc_fresh.
  - intros x. apply keep_iff; [|done].
    eapply InvT_not_awaiting; [done..|]. by rewrite Hst.
  - apply (inv_await_nodup _ _ HI).
  - intros i. apply keep_set_iff; [|done].
    eapply InvT_not_proc; [done..|]. by rewrite Hst.
  - pose proof (inv_size _ _ HI) as Hs. simpl in *. lia.
  - apply (inv_dlq_len _ _ HI).
  - intros k' d' Hin. by left.
Qed.

(** *** Failure and completion of an execution *)

Lemma release_subseteq (S : gset string) (i : string) : S ∖ {[i]} ⊆ S.
Proof. intros x Hx. by apply elem_of_difference in Hx as [Hx _]. Qed.

Lemma release_size (S : gset string) (i : string) : (size (S ∖ {[i]}) <= size S)%nat.
Proof. apply subseteq_size, release_subseteq. Qed.

Lemma InvT_dlq_truthy todo s k d :
  InvT todo s -> (k, d) ∈ deadLetterQueue s -> Js.truthy k = true.
Proof.
  intros HI Hin. destruct (inv_dlq _ _ HI k d Hin) as (_ & _ & r & j & Hj & <- & _).
  by eapply (inv_truthy _ _ HI).
Qed.

Lemma processJob_catch_InvT todo s k r now rnd msg :
  InvT todo s -> awaiting s !! k = Some r ->
  InvT todo (processJob_catch now rnd msg r (resume k s)).
Proof.
  intros HI Hk.
  assert (Hin : r ∈ awaiting s) by (by eapply list_elem_of_lookup_2).
  apply (inv_await _ _ HI) in Hin as (job & Hjob & Hst).
  unfold processJob_catch. simpl. rewrite Hjob.
  assert (Hnq : r ∉ todo ++ pendingQueue s).
  { eapply InvT_not_queue; [done..|]. by rewrite Hst. }
  pose proof (inv_nodup _ _ HI) as Hnd.
  pose proof (inv_await_nodup _ _ HI) as Hawnd.
  assert (Hsz : forall X : gset string,
            X ⊆ processingJobs s -> (size X + length todo <= maxConcurrentJobs)%nat).
  { intros X HX. apply subseteq_size in HX. pose proof (inv_size _ _ HI). lia. }
  destruct (negb (isRetryableError msg) || (maxAttempts job <=? attempts job)%Z) eqn:Hperm;
    unfold releaseSlot; simpl.
  - apply (InvT_update todo s r job _ todo); simpl; try done.
    + by rewrite Hst.
    + by rewrite Hst.
    + intros Hm. destruct (inv_attempts _ _ HI r job Hjob Hm) as [Ha _].
      split; [done | intros [? | ?]; done].
    + intros x. by apply keep_iff.
    + intros x. by apply drop_iff.
    + by apply NoDup_delete_at.
    + intros i. by apply del_set_iff.
    + apply Hsz, release_subseteq.
    + apply move_length; [apply (inv_dlq_len _ _ HI)|].
      intros k' d'. by apply (InvT_dlq_truthy todo s).
    + intros k' d' Hin. apply move_elem in Hin as [[-> ->] | Hin]; [by right | by left].
  - apply orb_false_iff in Hperm as [_ Hle]. apply Z.leb_gt in Hle.
    apply (InvT_update todo s r job _ todo); simpl; try done.
    + by rewrite Hst.
    + by rewrite Hst.
    + intros Hm. split; [lia | intros _; done].
    + intros x. by apply keep_iff.
    + intros x. by apply drop_iff.
    + by apply NoDup_delete_at.
    + intros i. by apply del_set_iff.
    + apply Hsz, release_subseteq.
    + apply (inv_dlq_len _ _ HI).
    + intros k' d' Hin. by left.
Qed.

Lemma processJob_settle_InvT todo s k r now rnd o :
  InvT todo s -> awaiting s !! k = Some r ->
  InvT todo (processJob_settle now rnd o r (resume k s)).
Proof.
  intros HI Hk.
  assert (Hin : r ∈ awaiting s) by (by eapply list_elem_of_lookup_2).
  apply (inv_await _ _ HI) in Hin as (job & Hjob & Hst).
  unfold processJob_settle. simpl. rewrite Hjob.
  assert (Hcatch : forall msg, InvT todo (processJob_catch now rnd msg r (resume k s)))
    by (intros msg; by apply processJob_catch_InvT).
  assert (Hdone : forall hash,
            InvT todo (releaseSlot (id job)
                         (withHeap (<[r := markCompleted now hash job]> (heap (resume k s)))
                            (resume k s)))).
  { intros hash. unfold releaseSlot, withHeap. simpl.
    pose proof (inv_nodup _ _ HI) as Hnd.
    pose proof (inv_await_nodup _ _ HI) as Hawnd.
    apply (InvT_update todo s r job _ todo); simpl; try done.
    - by rewrite Hst.
    - by rewrite Hst.
    - intros Hm. destruct (inv_attempts _ _ HI r job Hjob Hm) as [Ha _].
      split; [done | intros [? | ?]; done].
    - intros x. apply keep_iff; [|done].
      eapply InvT_not_queue; [done..|]. by rewrite Hst.
    - intros x. by apply drop_iff.
    - by apply NoDup_delete_at.
    - intros i. by apply del_set_iff.
    - pose proof (release_size (processingJobs s) (id job)).
      pose proof (inv_size _ _ HI). lia.
    - apply (inv_dlq_len _ _ HI).
    - intros k' d' Hin. by left. }
  destruct (type job); [destruct o; auto|].
  destruct (Js.truthy_opt _); [destruct o; auto | auto].
Qed.

Lemma processJob_catch_PosOk now rnd msg r s :
  PosOk s -> PosOk (processJob_catch now rnd msg r s).
Proof.
  intros HP. unfold processJob_catch.
  destruct (heap s !! r) as [job|] eqn:Hjob; [|done].
  destruct (_ || _); unfold releaseSlot; simpl; by eapply PosOk_update.
Qed.

Lemma processJob_settle_PosOk now rnd o r s :
  PosOk s -> PosOk (processJob_settle now rnd o r s).
Proof.
  intros HP. unfold processJob_settle.
  destruct (heap s !! r) as [job|] eqn:Hjob; [|done].
  assert (Hc : forall msg, PosOk (processJob_catch now rnd msg r s))
    by (intros; by apply processJob_catch_PosOk).
  assert (Hd : forall hash,
            PosOk (releaseSlot (id job)
                     (withHeap (<[r := markCompleted now hash job]> (heap s)) s))).
  { intros hash. unfold releaseSlot, withHeap. simpl. by eapply PosOk_update. }
  destruct (type job); [destruct o; auto|].
  destruct (Js.truthy_opt _); [destruct o; auto | auto].
Qed.

Lemma settle_Inv s k r now rnd o :
  Inv s -> awaiting s !! k = Some r ->
  Inv (processJob_settle now rnd o r (resume k s)).
Proof.
  intros [HI HP] Hk. split.
  - by apply processJob_settle_InvT.
  - apply processJob_settle_PosOk. by eapply PosOk_same; [| | exact HP].
Qed.

(** *** The dispatch pass *)

Lemma processJob_start_eq now rnd s r job :
  heap s !! r = Some job -> id job ∉ processingJobs s ->
  processJob_start now rnd s r =
    match validateJobData (markStarted now job) with
    | Some msg =>
        processJob_catch now (rnd r) msg r (resume (length (awaiting s)) (running now r job s))
    | None => running now r job s
    end.
Proof.
  intros Hjob Hnot. unfold processJob_start. rewrite Hjob.
  rewrite decide_False by done. simpl.
  destruct (validateJobData (markStarted now job)); [|done].
  unfold resume, running. simpl.
  replace (delete (length (awaiting s)) (awaiting s ++ [r])) with (awaiting s); [done|].
  by rewrite (delete_middle (awaiting s) [] r), app_nil_r.
Qed.

Lemma running_InvT now todo s r job :
  InvT (r :: todo) s -> heap s !! r = Some job -> InvT todo (running now r job s).
Proof.
  intros HI Hjob.
  assert (Hst : status job = pending).
  { destruct (proj1 (inv_queue _ _ HI r)) as (y & Hy & Hs); [left|]. congruence. }
  pose proof (inv_nodup _ _ HI) as Hnd. simpl in Hnd.
  apply NoDup_cons in Hnd as [Hr Hnd].
  assert (Hna : r ∉ awaiting s).
  { eapply InvT_not_awaiting; [done..|]. by rewrite Hst. }
  assert (Hnp : id job ∉ processingJobs s).
  { eapply InvT_not_proc; [done..|]. by rewrite Hst. }
  unfold running.
  apply (InvT_update (r :: todo) s r job _ todo); simpl; try done.
  - by rewrite Hst.
  - by rewrite Hst.
  - intros Hm. destruct (inv_attempts _ _ HI r job Hjob Hm) as [_ Hb].
    split; [|intros [? | ?]; done]. assert (attempts job < maxAttempts job) by auto. lia.
  - intros x. rewrite elem_of_cons. split.
    + intros Hx. left. split; [by intros -> | by right].
    + intros [[Hne [-> | Hx]] | [_ ?]]; done.
  - intros x. by apply snoc_iff.
  - apply NoDup_snoc_fresh; [apply (inv_await_nodup _ _ HI) | done].
  - intros i. by apply add_set_iff.
  - rewrite size_union by (by apply disjoint_singleton_l).
    rewrite size_singleton. pose proof (inv_size _ _ HI) as Hs. simpl in Hs. lia.
  - apply (inv_dlq_len _ _ HI).
  - intros k d Hin. by left.
Qed.

Lemma processJob_start_InvT now rnd todo s r :
  InvT (r :: todo) s -> InvT todo (processJob_start now rnd s r).
Proof.
  intros HI.
  destruct (proj1 (inv_queue _ _ HI r)) as (job & Hjob & Hst); [left|].
  assert (Hnp : id job ∉ processingJobs s).
  { eapply InvT_not_proc; [done..|]. by rewrite Hst. }
  rewrite (processJob_start_eq now rnd s r job Hjob Hnp).
  pose proof (running_InvT now todo s r job HI Hjob) as HR.
  destruct (validateJobData _) as [msg|]; [|done].
  apply processJob_catch_InvT; [done|]. simpl.
  by rewrite (list_lookup_middle (awaiting s) [] r).
Qed.

Lemma dispatch_InvT now rnd todo s :
  InvT todo s -> InvT [] (foldl (processJob_start now rnd) s todo).
Proof.
  revert s. induction todo as [|r todo IH]; intros s HI; simpl; [done|].
  apply IH. by apply processJob_start_InvT.
Qed.

Lemma sortInsert_perm cmp x l : sortInsert cmp x l ≡ₚ x :: l.
Proof.
  induction l as [|y l IH]; simpl; [done|].
  destruct (cmp x y <=? 0)%Z; [done|]. rewrite IH. apply Permutation_swap.
Qed.

Lemma sortBy_perm cmp l : sortBy cmp l ≡ₚ l.
Proof.
  induction l as [|x l IH]; simpl; [done|].
  unfold sortBy in *. simpl. by rewrite sortInsert_perm, IH.
Qed.

Lemma processNextJobs_Inv now rnd s : Inv s -> Inv (processNextJobs now rnd s).
Proof.
  intros [HI HP]. unfold processNextJobs.
  destruct (Nat.leb_spec maxConcurrentJobs (size (processingJobs s))) as [Hfull | Hfree];
    [by split|].
  apply Inv_positions, dispatch_InvT.
  apply (InvT_requeue [] s); [done | |].
  - simpl. rewrite take_drop. apply sortBy_perm.
  - rewrite length_take. lia.
Qed.

(** *** Every reachable state satisfies the invariant *)

Lemma emptyQueue_Inv : Inv emptyQueue.
Proof.
  split.
  - constructor; try done.
    + intros r. split; [intros H; by apply elem_of_nil in H | intros (j & H & _); done].
    + apply NoDup_nil_2.
    + intros r. split; [intros H; by apply elem_of_nil in H | intros (j & H & _); done].
    + apply NoDup_nil_2.
    + intros i. split; [intros H; by apply elem_of_empty in H | intros (r & j & H & _); done].
    + unfold emptyQueue, processingJobs, maxConcurrentJobs. rewrite size_empty. simpl. lia.
    + unfold deadLetterCapacity. simpl. lia.
    + intros k d H. by apply elem_of_nil in H.
  - intros k r H. done.
Qed.

Lemma step_Inv e s s' : Inv s -> step e s = Some s' -> Inv s'.
Proof.
  intros HI Hstep. destruct e; simpl in Hstep.
  - case_decide; [|done]. simplify_eq. by apply addJob_Inv.
  - simplify_eq. by apply processNextJobs_Inv.
  - destruct (awaiting s !! k) as [r|] eqn:Hk; [|done]. simplify_eq.
    by apply settle_Inv.
  - destruct (timers s !! k); [|done]. simplify_eq. by apply retryTimer_Inv.
  - simplify_eq. by apply cancelJob_Inv.
  - destruct (OMap.get jobId (deadLetterQueue s)) eqn:Hget.
    + case_decide; [|done]. simplify_eq. by apply retryFailedJob_Inv.
    + simplify_eq. unfold retryFailedJob. by rewrite Hget.
  - simplify_eq. by apply cleanupOldJobs_Inv.
  - simplify_eq. by apply clearUserJobs_Inv.
Qed.

Lemma reachable_Inv s : reachable s -> Inv s.
Proof.
  induction 1 as [|s e s' _ IH Hstep]; [apply emptyQueue_Inv | by eapply step_Inv].
Qed.

Lemma run_reachable es s s' : reachable s -> run es s = Some s' -> reachable s'.
Proof.
  revert s. induction es as [|e es IH]; intros s Hs Hrun; simpl in Hrun.
  - by simplify_eq.
  - destruct (step e s) as [s1|] eqn:Hstep; [|done].
    eapply IH; [|exact Hrun]. by eapply reach_step.
Qed.

(** * The properties of the specification *)

(** ** Concrete scenarios *)

Lemma demoSubmitted_reachable : reachable demoSubmitted.
Proof.
  apply (reach_step emptyQueue (EvAddJob (demoInput 1) 1 "a")); [apply reach_init|].
  vm_compute. reflexivity.
Qed.

Lemma demoRunning_reachable : reachable demoRunning.
Proof.
  apply (reach_step demoSubmitted (EvTick 2 noJitter)); [apply demoSubmitted_reachable|].
  vm_compute. reflexivity.
Qed.

(** ** Error classification *)

Lemma isRetryableError_spec msg :
  isRetryableError msg =
  negb (firstMatch (Js.toLowerCase (errorText msg)) nonRetryablePatterns).
Proof.
  unfold isRetryableError.
  destruct (firstMatch (Js.toLowerCase (errorText msg)) nonRetryablePatterns); [done|].
  by destruct (firstMatch (Js.toLowerCase (errorText msg)) retryablePatterns).
Qed.

Lemma insufficient_funds_not_retryable pre post :
  isRetryableError (pre +:+ "insufficient funds" +:+ post) = false.
Proof.
  rewrite isRetryableError_spec. apply negb_false_iff.
  rewrite errorText_truthy by (by apply truthy_app_r).
  rewrite !toLowerCase_app.
  change (Js.toLowerCase "insufficient funds") with "insufficient funds".
  apply firstMatch_true. exists "insufficient funds". split; [left | apply includes_app].
Qed.

(** What the [catch] clause leaves behind when the failure is permanent. *)
Lemma catch_permanent s k r job now rnd msg :
  Inv s -> awaiting s !! k = Some r -> heap s !! r = Some job ->
  negb (isRetryableError msg) || (maxAttempts job <=? attempts job)%Z = true ->
  let s' := processJob_catch now rnd msg r (resume k s) in
  heap s' !! r = Some (markError now (categorizeError msg) failed job) /\
  OMap.get (id job) (deadLetterQueue s') =
    Some (deadCopy now (markError now (categorizeError msg) failed job)) /\
  timers s' = timers s /\ pendingQueue s' = pendingQueue s.
Proof.
  intros [HI _] Hk Hjob Hperm. unfold processJob_catch. simpl.
  rewrite Hjob, Hperm. unfold releaseSlot. simpl.
  split; [apply list_lookup_insert_eq; by eapply lookup_lt_Some|].
  split; [|done].
  apply (move_get now (markError now (categorizeError msg) failed job)).
  apply (inv_dlq_len _ _ HI).
Qed.

Lemma firstMatch_Exists (lowered : string) (ps : list string) :
  firstMatch lowered ps = true <-> Exists (λ p, Js.includes lowered p = true) ps.
Proof.
  rewrite firstMatch_true, Exists_exists. split; intros (p & Hp & Hi); by exists p.
Qed.

Lemma isRetryableErrorWith_spec (lower : string -> string) (msg : string) :
  isRetryableErrorWith lower msg =
  negb (firstMatch (lower (errorText msg)) nonRetryablePatterns).
Proof.
  unfold isRetryableErrorWith.
  destruct (firstMatch (lower (errorText msg)) nonRetryablePatterns); [done|].
  by destruct (firstMatch (lower (errorText msg)) retryablePatterns).
Qed.

(** C4: the classification, for the lower-casing of the model and for any
    other. An error is non-retryable exactly when its lowered text
    contains "insufficient funds", "cooldown", "blacklisted", "invalid
    address", "invalid token", "unauthorized", "forbidden" or "not
    supported"; these are decided first, so such an error is
    non-retryable also when its text contains "network", "connection",
    "timeout", "rate limit", "gas", "nonce" or "temporary"; and an error
    that contains none of the eight is retryable, whether one of the
    seven matches or no pattern at all does. A message that contains
    "insufficient funds" is non-retryable whatever else it contains, so
    the failing job is dead-lettered as failed with the attempts it had,
    without a retry being scheduled. *)
Theorem classification_priority (msg : string) :
  (forall lower : string -> string,
     let text := lower (errorText msg) in
     (isRetryableErrorWith lower msg = false <->
      Exists (λ p, Js.includes text p = true)
        [ "insufficient funds"; "cooldown"; "blacklisted"; "invalid address";
          "invalid token"; "unauthorized"; "forbidden"; "not supported" ]) /\
     (Exists (λ p, Js.includes text p = true)
        [ "insufficient funds"; "cooldown"; "blacklisted"; "invalid address";
          "invalid token"; "unauthorized"; "forbidden"; "not supported" ] ->
      Exists (λ q, Js.includes text q = true)
        [ "network"; "connection"; "timeout"; "rate limit"; "gas"; "nonce";
          "temporary" ] ->
      isRetryableErrorWith lower msg = false) /\
     (Forall (λ p, Js.includes text p = false)
        [ "insufficient funds"; "cooldown"; "blacklisted"; "invalid address";
          "invalid token"; "unauthorized"; "forbidden"; "not supported" ] ->
      isRetryableErrorWith lower msg = true)) /\
  isRetryableError msg = isRetryableErrorWith Js.toLowerCase msg /\
  (forall pre post, msg = pre +:+ "insufficient funds" +:+ post ->
     isRetryableError msg = false /\
     forall s k r job now rnd,
       reachable s -> awaiting s !! k = Some r -> heap s !! r = Some job ->
       let s' := processJob_catch now rnd msg r (resume k s) in
       (exists j', heap s' !! r = Some j' /\ status j' = failed /\
                   attempts j' = attempts job) /\
       (exists d, OMap.get (id job) (deadLetterQueue s') = Some d /\
                  status d = failed /\ attempts d = attempts job) /\
       timers s' = timers s /\ r ∉ pendingQueue s').
Proof.
  split; [|split; [reflexivity|]].
  - intros lower text. subst text.
    assert (Hiff : isRetryableErrorWith lower msg = false <->
              Exists (λ p, Js.includes (lower (errorText msg)) p = true)
                nonRetryablePatterns).
    { by rewrite isRetryableErrorWith_spec, negb_false_iff, firstMatch_Exists. }
    split; [exact Hiff|]. split; [intros Hp _; by apply Hiff|].
    intros Hnone. apply not_false_iff_true. intros E.
    apply Hiff, Exists_exists in E as (p & Hp & Hi).
    rewrite Forall_forall in Hnone. rewrite (Hnone p Hp) in Hi. done.
  - intros pre post ->.
    pose proof (insufficient_funds_not_retryable pre post) as Hnr.
    split; [done|]. intros s k r job now rnd Hreach Hk Hjob.
    pose proof (reachable_Inv s Hreach) as HInv.
    destruct (catch_permanent s k r job now rnd (pre +:+ "insufficient funds" +:+ post)
                HInv Hk Hjob) as (Hh & Hd & Ht & Hq).
    { by rewrite Hnr. }
    split; [eexists; split; [exact Hh | done]|].
    split; [eexists; split; [exact Hd | done]|].
    split; [done|]. simpl. rewrite Hq.
    destruct HInv as [HI _].
    assert (r ∈ awaiting s) as Hin by (by eapply list_elem_of_lookup_2).
    apply (inv_await _ _ HI) in Hin as (y & Hy & Hst).
    eapply (InvT_not_queue []); [done..|]. by rewrite Hst.
Qed.

Lemma classification_priority_witness :
  isRetryableError "insufficient funds for gas" = false /\
  isRetryableError "something odd" = true /\
  isRetryableError "network timeout" = true /\
  exists d, OMap.get "job_1_a"
              (deadLetterQueue
                 (processJob_catch 3 0%Q "insufficient funds for gas" 0%nat
                    (resume 0 demoRunning))) = Some d /\
            status d = failed /\ attempts d = 1.
Proof.
  destruct (classification_priority "insufficient funds for gas") as (Hg & Heq & H).
  destruct (classification_priority "something odd") as (Ho & Heqo & _).
  destruct (classification_priority "network timeout") as (Hn & Heqn & _).
  destruct (Hg Js.toLowerCase) as (_ & Horder & _).
  destruct (Ho Js.toLowerCase) as (_ & _ & Hdefault).
  destruct (Hn Js.toLowerCase) as (_ & _ & Hretry).
  split; [rewrite Heq; apply Horder; apply (bool_decide_unpack _); vm_compute; exact I|].
  split; [rewrite Heqo; apply Hdefault; apply (bool_decide_unpack _); vm_compute; exact I|].
  split; [rewrite Heqn; apply Hretry; apply (bool_decide_unpack _); vm_compute; exact I|].
  destruct (H EmptyString " for gas" eq_refl) as (_ & Hdl).
  destruct (Hdl demoRunning 0%nat 0%nat
              (mkQueueJob "job_1_a" ETH_CLAIM (mkJobData demoAddress None None None 0)
                 processing 1 1 3 1 2 (Some 2) None None None (Some 2) (Some 1))
              3 0%Q demoRunning_reachable eq_refl eq_refl) as (_ & Hd & _).
  exact Hd.
Defined.

(** ** Backoff *)

Lemma baseDelay_mono a b : 0 <= a <= b -> baseDelay a <= baseDelay b.
Proof.
  intros [Ha Hab]. unfold baseDelay.
  assert (2 ^ a <= 2 ^ b) by (apply Z.pow_le_mono_r; lia). lia.
Qed.

Lemma baseDelay_cap a : baseDelay a <= 30000.
Proof. unfold baseDelay. lia. Qed.

Lemma catch_retry s r job now rnd msg :
  heap s !! r = Some job ->
  isRetryableError msg = true -> attempts job < maxAttempts job ->
  let s' := processJob_catch now rnd msg r s in
  timers s' = timers s ++ [(r, backoffDelay (attempts job) rnd)] /\
  heap s' !! r = Some (markError now (categorizeError msg) retrying job) /\
  deadLetterQueue s' = deadLetterQueue s.
Proof.
  intros Hjob Hr Hlt. unfold processJob_catch. rewrite Hjob, Hr.
  replace (maxAttempts job <=? attempts job)%Z with false by (symmetry; by apply Z.leb_gt).
  simpl. split; [done|]. split; [|done].
  apply list_lookup_insert_eq. by eapply lookup_lt_Some.
Qed.

(** C8: the retry is scheduled after
    [min(1000 * 2^attempts, 30000) + jitter] milliseconds with the jitter
    in [[0, 1000)], and with a jitter of zero the delay does not decrease
    when the attempts counter grows, and never passes the cap. *)
Theorem backoff_delay (n : Z) (rnd : Q) :
  (0 <= rnd)%Q -> (rnd < 1)%Q ->
  (backoffDelay n rnd == inject_Z (Z.min (1000 * 2 ^ n) 30000) + jitterOf rnd)%Q /\
  (0 <= jitterOf rnd)%Q /\ (jitterOf rnd < 1000)%Q /\
  (forall s r job now msg,
     heap s !! r = Some job -> isRetryableError msg = true ->
     attempts job < maxAttempts job ->
     timers (processJob_catch now rnd msg r s)
     = timers s ++ [(r, backoffDelay (attempts job) rnd)]) /\
  (forall a b, 0 <= a <= b ->
     (backoffDelay a 0 <= backoffDelay b 0)%Q /\ (backoffDelay b 0 <= 30000)%Q).
Proof.
  intros H0 H1. split; [reflexivity|].
  split; [unfold jitterOf; lra|]. split; [unfold jitterOf; lra|].
  split.
  - intros s r job now msg Hjob Hr Hlt.
    by destruct (catch_retry s r job now rnd msg Hjob Hr Hlt) as [-> _].
  - intros a b Hab. unfold backoffDelay, jitterOf.
    pose proof (baseDelay_mono a b Hab) as Hm. pose proof (baseDelay_cap b) as Hc.
    rewrite Zle_Qle in Hm. rewrite Zle_Qle in Hc.
    change (inject_Z 30000) with 30000%Q in Hc. split; lra.
Qed.

Lemma backoff_delay_witness :
  (backoffDelay 1 (1 # 2) == 2500)%Q /\
  timers (processJob_catch 3 (1 # 2) "network timeout" 0%nat (resume 0 demoRunning))
  = [(0%nat, backoffDelay 1 (1 # 2))] /\
  (backoffDelay 2 0 <= backoffDelay 5 0)%Q.
Proof.
  assert (H0 : (0 <= 1 # 2)%Q) by (unfold Qle; simpl; lia).
  assert (H1 : (1 # 2 < 1)%Q) by (unfold Qlt; simpl; lia).
  destruct (backoff_delay 1 (1 # 2) H0 H1) as (Hd & _ & _ & Ht & Hm).
  split; [rewrite Hd; reflexivity|].
  split.
  - exact (Ht (resume 0 demoRunning) 0%nat
             (mkQueueJob "job_1_a" ETH_CLAIM (mkJobData demoAddress None None None 0)
                processing 1 1 3 1 2 (Some 2) None None None (Some 2) (Some 1))
             3 "network timeout" eq_refl eq_refl eq_refl).
  - apply (Hm 2 5). lia.
Defined.

(** ** Status queries *)

(** C10: [getJob] returns the record of the main store when the id is
    there and falls back to the dead-letter queue only when it is not; the
    retention sweep leaves the dead-letter queue as it is, so an id held
    there is still answered after the sweep has deleted it from the main
    store. *)
Theorem getJob_main_store_first (s : TransactionQueue) (jobId : string) :
  (forall r, jobs s !! jobId = Some r -> getJob jobId s = heap s !! r) /\
  (jobs s !! jobId = None -> getJob jobId s = OMap.get jobId (deadLetterQueue s)) /\
  (forall now, deadLetterQueue (cleanupOldJobs now s) = deadLetterQueue s) /\
  (forall now d,
     OMap.get jobId (deadLetterQueue s) = Some d ->
     jobs (cleanupOldJobs now s) !! jobId = None ->
     getJob jobId (cleanupOldJobs now s) = Some d) /\
  (reachable s ->
   (forall r, jobs s !! jobId = Some r ->
      exists j, getJob jobId s = Some j /\ heap s !! r = Some j /\ id j = jobId) /\
   (forall now, is_Some (OMap.get jobId (deadLetterQueue s)) ->
      is_Some (getJob jobId (cleanupOldJobs now s)))).
Proof.
  split; [intros r H; unfold getJob; by rewrite H|].
  split; [intros H; unfold getJob; by rewrite H|].
  split; [done|].
  split; [intros now d Hd Hn; unfold getJob; by rewrite Hn|].
  intros Hreach. split.
  - intros r Hr. destruct (reachable_Inv s Hreach) as [HI _].
    destruct (inv_jobs _ _ HI jobId r Hr) as (j & Hj & Hid).
    exists j. unfold getJob. by rewrite Hr.
  - intros now Hd.
    assert (Hreach' : reachable (cleanupOldJobs now s))
      by (by apply (reach_step s (EvCleanup now))).
    destruct (reachable_Inv _ Hreach') as [HI _].
    unfold getJob. destruct (jobs (cleanupOldJobs now s) !! jobId) as [r|] eqn:Hr; [|done].
    destruct (inv_jobs _ _ HI jobId r Hr) as (j & Hj & _). by exists j.
Qed.

Lemma demoDead_reachable : reachable demoDead.
Proof.
  apply (run_reachable demoDeadEvents emptyQueue); [apply reach_init|].
  vm_compute. reflexivity.
Qed.

Lemma getJob_main_store_first_witness :
  (exists d, getJob "job_1_a" (cleanupOldJobs 90000000 demoDead) = Some d /\
             jobs (cleanupOldJobs 90000000 demoDead) !! "job_1_a" = None) /\
  (exists j, getJob "job_1_a" demoDead = Some j /\ heap demoDead !! 0%nat = Some j).
Proof.
  destruct (getJob_main_store_first demoDead "job_1_a") as (_ & _ & _ & Hsweep & Hreach).
  destruct (Hreach demoDead_reachable) as [Hmain _].
  split.
  - assert (Hgone : jobs (cleanupOldJobs 90000000 demoDead) !! "job_1_a" = None)
      by (vm_compute; reflexivity).
    eexists. split; [|exact Hgone].
    refine (Hsweep 90000000 _ _ Hgone). vm_compute. reflexivity.
  - destruct (Hmain 0%nat) as (j & Hg & Hh & _); [vm_compute; reflexivity|].
    by exists j.
Defined.

(** ** The dead-letter queue is bounded *)

Lemma demoFull_reachable : reachable demoFull.
Proof.
  apply (run_reachable fillEvents emptyQueue); [apply reach_init|].
  vm_compute. reflexivity.
Qed.

(** C7: in every reachable state the dead-letter queue holds at most its
    capacity of 100 entries, and so it does after any further insertion;
    an insertion of a new id into a full queue removes the first entry,
    the oldest, and nothing else, and any other insertion removes
    nothing. *)
Theorem deadLetter_bounded (s : TransactionQueue) :
  reachable s ->
  (length (deadLetterQueue s) <= deadLetterCapacity)%nat /\
  forall now job,
    let dlq := deadLetterQueue s in
    let dlq' := moveToDeadLetterQueue now job dlq in
    (length dlq' <= deadLetterCapacity)%nat /\
    (length dlq = deadLetterCapacity -> OMap.get (id job) dlq = None ->
     exists oldest rest,
       dlq = oldest :: rest /\ dlq' = rest ++ [(id job, deadCopy now job)]) /\
    ((length dlq < deadLetterCapacity)%nat \/ OMap.get (id job) dlq ≠ None ->
     dlq' = OMap.set (id job) (deadCopy now job) dlq).
Proof.
  intros Hreach. destruct (reachable_Inv s Hreach) as [HI _].
  pose proof (inv_dlq_len _ _ HI) as Hlen.
  assert (Htr : forall k d, (k, d) ∈ deadLetterQueue s -> Js.truthy k = true)
    by (intros k d; apply (InvT_dlq_truthy [] s k d HI)).
  split; [done|]. intros now job dlq dlq'. subst dlq dlq'.
  split; [by apply move_length|]. split; [intros; by apply move_full|].
  intros Hno. unfold moveToDeadLetterQueue.
  destruct (Nat.ltb_spec deadLetterCapacity
              (length (OMap.set (id job) (deadCopy now job) (deadLetterQueue s))))
    as [Hgt | Hle]; [|done].
  exfalso. destruct (OMap.get (id job) (deadLetterQueue s)) eqn:Hget.
  - rewrite omap_set_present in Hgt by congruence. lia.
  - rewrite (omap_set_absent _ _ _ Hget), length_app in Hgt. simpl in Hgt.
    destruct Hno as [Hlt | Hne]; [lia | done].
Qed.

Lemma deadLetter_bounded_witness :
  length (deadLetterQueue demoFull) = deadLetterCapacity /\
  exists oldest rest,
    deadLetterQueue demoFull = oldest :: rest /\
    oldest.1 = "job_0_a" /\
    moveToDeadLetterQueue 7 (newJob 7 "job_7_z" 0 (demoInput 1)) (deadLetterQueue demoFull)
    = rest ++ [("job_7_z", deadCopy 7 (newJob 7 "job_7_z" 0 (demoInput 1)))].
Proof.
  split; [reflexivity|].
  destruct (deadLetter_bounded demoFull demoFull_reachable) as [_ H].
  destruct (H 7 (newJob 7 "job_7_z" 0 (demoInput 1))) as (_ & Hfull & _).
  destruct (Hfull eq_refl) as (oldest & rest & Hd & Hm); [vm_compute; reflexivity|].
  exists oldest, rest. split; [exact Hd|]. split; [|exact Hm].
  assert (Hk : OMap.firstKey (deadLetterQueue demoFull) = Some "job_0_a")
    by (vm_compute; reflexivity).
  rewrite Hd in Hk. destruct oldest. simpl in *. congruence.
Defined.

(** ** The concurrency ceiling *)

Lemma processJob_catch_pending now rnd msg r s :
  pendingQueue (processJob_catch now rnd msg r s) = pendingQueue s.
Proof.
  unfold processJob_catch. destruct (heap s !! r); [|done]. by destruct (_ || _).
Qed.

Lemma processJob_start_pending now rnd s r :
  pendingQueue (processJob_start now rnd s r) = pendingQueue s.
Proof.
  unfold processJob_start. destruct (heap s !! r); [|done].
  case_decide; [done|]. destruct (validateJobData _); [|done].
  by rewrite processJob_catch_pending.
Qed.

Lemma dispatch_pending now rnd todo s :
  pendingQueue (foldl (processJob_start now rnd) s todo) = pendingQueue s.
Proof.
  revert s. induction todo as [|r todo IH]; intros s; simpl; [done|].
  by rewrite IH, processJob_start_pending.
Qed.

Lemma processNextJobs_pending now rnd s :
  pendingQueue (processNextJobs now rnd s) =
  if (maxConcurrentJobs <=? size (processingJobs s))%nat then pendingQueue s
  else drop (maxConcurrentJobs - size (processingJobs s))
         (sortBy (compareRefs (heap s)) (pendingQueue s)).
Proof.
  unfold processNextJobs. destruct (_ <=? _)%nat; [done|].
  simpl. by rewrite dispatch_pending.
Qed.

Lemma processNextJobs_jobsToProcess now rnd s :
  processNextJobs now rnd s =
  if (maxConcurrentJobs <=? size (processingJobs s))%nat then s
  else updateQueuePositions
         (foldl (processJob_start now rnd)
            (withPending
               (drop (maxConcurrentJobs - size (processingJobs s))
                  (sortBy (compareRefs (heap s)) (pendingQueue s))) s)
            (jobsToProcess s)).
Proof. unfold processNextJobs, jobsToProcess. by destruct (_ <=? _)%nat. Qed.

Lemma jobsToProcess_length s :
  (length (jobsToProcess s) <= maxConcurrentJobs - size (processingJobs s))%nat.
Proof.
  unfold jobsToProcess. destruct (_ <=? _)%nat; simpl; [lia|].
  rewrite length_take. lia.
Qed.

Lemma processJob_start_guard now rnd s r job :
  heap s !! r = Some job -> id job ∈ processingJobs s ->
  processJob_start now rnd s r = s.
Proof. intros Hjob Hin. unfold processJob_start. rewrite Hjob. by rewrite decide_True. Qed.

(** C3: in every reachable state the in-flight set holds at most
    [maxConcurrentJobs] = 3 ids; a dispatch pass takes at most the free
    slots, ceiling minus in-flight, off the pending queue and leaves the
    set within the ceiling; and [processJob] does nothing for a job whose
    id is in the in-flight set. *)
Theorem inflight_bounded (s : TransactionQueue) :
  reachable s ->
  (size (processingJobs s) <= maxConcurrentJobs)%nat /\
  maxConcurrentJobs = 3%nat /\
  (length (jobsToProcess s) <= maxConcurrentJobs - size (processingJobs s))%nat /\
  (forall now rnd,
     (length (pendingQueue s)
      <= length (pendingQueue (processNextJobs now rnd s))
         + (maxConcurrentJobs - size (processingJobs s)))%nat /\
     (size (processingJobs (processNextJobs now rnd s)) <= maxConcurrentJobs)%nat) /\
  (forall now rnd s0 r job,
     heap s0 !! r = Some job -> id job ∈ processingJobs s0 ->
     processJob_start now rnd s0 r = s0).
Proof.
  intros Hreach. destruct (reachable_Inv s Hreach) as [HI _].
  pose proof (inv_size _ _ HI) as Hsz. simpl in Hsz.
  split; [lia|]. split; [done|]. split; [apply jobsToProcess_length|]. split.
  - intros now rnd. split.
    + rewrite processNextJobs_pending.
      destruct (Nat.leb_spec maxConcurrentJobs (size (processingJobs s))); [lia|].
      rewrite length_drop, (Permutation_length (sortBy_perm _ _)). lia.
    + assert (Hreach' : reachable (processNextJobs now rnd s))
        by (by apply (reach_step s (EvTick now rnd))).
      destruct (reachable_Inv _ Hreach') as [HI' _].
      pose proof (inv_size _ _ HI') as Hsz'. simpl in Hsz'. lia.
  - intros now rnd s0 r job. apply processJob_start_guard.
Qed.

Lemma inflight_bounded_witness :
  (size (processingJobs demoRunning) <= 3)%nat /\
  processJob_start 5 noJitter demoRunning 0%nat = demoRunning.
Proof.
  destruct (inflight_bounded demoRunning demoRunning_reachable)
    as (Hsz & _ & _ & _ & Hguard).
  split; [exact Hsz|].
  refine (Hguard 5 noJitter demoRunning 0%nat _ eq_refl _).
  apply (bool_decide_unpack _). vm_compute. exact I.
Defined.

(** ** Submission *)

Lemma validateJobData_messages job msg :
  validateJobData job = Some msg ->
  msg = "Invalid recipient address" \/ msg = "Invalid token address".
Proof.
  unfold validateJobData. destruct (_ || _); [intros [= <-]; by left|].
  destruct (type job); [done|].
  destruct (tokenAddress (data job)) as [t|]; [|intros [= <-]; by right].
  destruct (_ || _); [intros [= <-]; by right | done].
Qed.

Lemma processJob_catch_cases now rnd msg r s job :
  heap s !! r = Some job ->
  exists st, (st = failed \/ st = retrying) /\
    heap (processJob_catch now rnd msg r s) !! r
    = Some (markError now (categorizeError msg) st job) /\
    awaiting (processJob_catch now rnd msg r s) = awaiting s.
Proof.
  intros Hjob. unfold processJob_catch. rewrite Hjob.
  assert (Hlt : (r < length (heap s))%nat) by (by eapply lookup_lt_Some).
  destruct (_ || _); simpl.
  - exists failed. split; [by left|]. split; [by apply list_lookup_insert_eq | done].
  - exists retrying. split; [by right|]. split; [by apply list_lookup_insert_eq | done].
Qed.

(** C1, counterexample: a submission whose recipient is not an address is
    accepted: an id is returned, the record is in the main store and the
    job is in the pending queue. *)
Lemma addJob_accepts_invalid_payload :
  validateJobData (newJob 1 (generateJobId 1 "a") 0 badInput)
  = Some "Invalid recipient address" /\
  (addJob badInput 1 "a" emptyQueue).1 = "job_1_a" /\
  jobs (addJob badInput 1 "a" emptyQueue).2 !! "job_1_a" = Some 0%nat /\
  pendingQueue (addJob badInput 1 "a" emptyQueue).2 = [0%nat] /\
  length (heap (addJob badInput 1 "a" emptyQueue).2) = 1%nat.
Proof. vm_compute. repeat split. Qed.

(** C1, as the code has it: [addJob] does not look at the payload. Every
    submission creates a pending job with no attempts, stores it in the
    main store under the id it returns and appends it to the pending
    queue. The payload is validated by [processJob] at dispatch: for a
    payload that does not match its kind the attempt is counted, the
    executor is not called, and the job fails with the validation error,
    to be retried or dead-lettered as any failure. *)
Theorem addJob_stores_unvalidated (input : JobInput) (now : Z) (rnd : string)
    (s : TransactionQueue) :
  let r := length (heap s) in
  let res := addJob input now rnd s in
  res.1 = generateJobId now rnd /\
  jobs res.2 !! res.1 = Some r /\
  pendingQueue res.2 = pendingQueue s ++ [r] /\
  (exists job, heap res.2 !! r = Some job /\ id job = res.1 /\ status job = pending /\
               attempts job = 0 /\ type job = in_type input /\ data job = in_data input) /\
  forall now' rnd' s0 r0 job msg,
    heap s0 !! r0 = Some job -> id job ∉ processingJobs s0 ->
    validateJobData job = Some msg ->
    let s1 := processJob_start now' rnd' s0 r0 in
    (msg = "Invalid recipient address" \/ msg = "Invalid token address") /\
    awaiting s1 = awaiting s0 /\
    exists j', heap s1 !! r0 = Some j' /\ attempts j' = attempts job + 1 /\
               error j' = Some (categorizeError msg) /\
               (status j' = failed \/ status j' = retrying).
Proof.
  intros r res. subst r res. simpl.
  split; [done|]. split; [apply lookup_insert_eq|]. split; [done|]. split.
  - set (job := newJob now (generateJobId now rnd) (length (pendingQueue s)) input).
    destruct (Forall2_lookup_l _ _ _ (length (heap s)) job
                (setPositions_sameCore (pendingQueue s ++ [length (heap s)])
                   (heap s ++ [job]) 0)) as (j' & Hj' & Hc).
    { by apply list_lookup_middle. }
    exists j'. split; [done|]. unfold sameCore, core in Hc.
    injection Hc as <- <- <- <- _ <- _ _ _ _ _ _ _. done.
  - intros now' rnd' s0 r0 job msg Hjob Hnp Hval.
    split; [by eapply validateJobData_messages|].
    rewrite (processJob_start_eq now' rnd' s0 r0 job Hjob Hnp).
    change (validateJobData (markStarted now' job)) with (validateJobData job).
    rewrite Hval.
    destruct (processJob_catch_cases now' (rnd' r0) msg r0
                (resume (length (awaiting s0)) (running now' r0 job s0))
                (markStarted now' job)) as (st & Hst & Hh & Haw).
    { simpl. apply list_lookup_insert_eq. by eapply lookup_lt_Some. }
    split.
    + rewrite Haw. simpl. by rewrite (delete_middle (awaiting s0) [] r0), app_nil_r.
    + eexists. split; [exact Hh|]. simpl. split; [done|]. split; [done|].
      destruct Hst as [-> | ->]; [by left | by right].
Qed.

Lemma addJob_stores_unvalidated_witness :
  let s0 := (addJob badInput 1 "a" emptyQueue).2 in
  awaiting (processJob_start 2 noJitter s0 0%nat) = [] /\
  exists j', heap (processJob_start 2 noJitter s0 0%nat) !! 0%nat = Some j' /\
             attempts j' = 1 /\
             error j' = Some (categorizeError "Invalid recipient address").
Proof.
  destruct (addJob_stores_unvalidated badInput 1 "a" emptyQueue) as (_ & _ & _ & _ & H).
  destruct (H 2 noJitter (addJob badInput 1 "a" emptyQueue).2 0%nat
              (setPosition 0 (newJob 1 "job_1_a" 0 badInput))
              "Invalid recipient address" eq_refl) as (_ & Haw & j' & Hj' & Ha & He & _).
  - apply (bool_decide_unpack _). vm_compute. exact I.
  - reflexivity.
  - split; [exact Haw|]. exists j'. split; [exact Hj'|]. split; [exact Ha | exact He].
Defined.

(** ** Cancellation *)

(** C9, counterexample: the error of a cancelled job is "Cancelled by
    user", not "cancelled by caller". *)
Lemma cancelJob_error_text :
  (cancelJob "job_1_a" 5 demoSubmitted).1 = true /\
  (error <$> (heap (cancelJob "job_1_a" 5 demoSubmitted).2 !! 0%nat))
  = Some (Some "Cancelled by user") /\
  (error <$> (heap (cancelJob "job_1_a" 5 demoSubmitted).2 !! 0%nat))
  ≠ Some (Some "cancelled by caller").
Proof. vm_compute. split; [done|]. split; [done | discriminate]. Qed.

(** C9, as the code has it: cancelling a job whose status is pending
    succeeds: its status becomes failed, its error "Cancelled by user", it
    leaves the pending queue and stays in the main store; cancelling it
    again, or cancelling an id that is unknown or whose job is not pending,
    returns false and leaves the state as it is. *)
Theorem cancelJob_pending_only (s : TransactionQueue) (jobId : string) (now : Z) :
  reachable s ->
  (forall r job,
     jobs s !! jobId = Some r -> heap s !! r = Some job -> status job = pending ->
     let res := cancelJob jobId now s in
     res.1 = true /\
     (exists j', heap res.2 !! r = Some j' /\ status j' = failed /\
                 error j' = Some "Cancelled by user") /\
     r ∈ pendingQueue s /\ (r ∉ pendingQueue res.2) /\
     jobs res.2 !! jobId = Some r /\
     forall now', cancelJob jobId now' res.2 = (false, res.2)) /\
  (statusOf s jobId ≠ Some pending -> cancelJob jobId now s = (false, s)).
Proof.
  intros Hreach. destruct (reachable_Inv s Hreach) as [HI _]. split.
  - intros r job Hjobs Hjob Hst res. subst res.
    set (j' := markError now "Cancelled by user" failed job).
    destruct (cancelJob_find s jobId r job j' HI Hjobs Hjob Hst eq_refl)
      as (index & Hfind & Hk).
    assert (Hres : cancelJob jobId now s
                   = (true, updateQueuePositions
                              (withPending (delete index (pendingQueue s))
                                 (withHeap (<[r := j']> (heap s)) s)))).
    { unfold cancelJob. rewrite Hjobs, Hjob. rewrite decide_True by done.
      fold j'. by rewrite Hfind. }
    rewrite Hres. simpl.
    pose proof (inv_nodup _ _ HI) as Hnd. simpl in Hnd.
    assert (Hout : r ∉ delete index (pendingQueue s)).
    { intros Hin.
      apply (drop_iff _ _ _ _ False Hnd Hk (λ f, f)) in Hin as [[Hne _] | [_ []]]. done. }
    assert (Hh : setPositions (<[r := j']> (heap s)) (delete index (pendingQueue s)) 0 !! r
                 = Some j').
    { rewrite setPositions_notin by done.
      apply list_lookup_insert_eq. by eapply lookup_lt_Some. }
    split; [done|]. split; [by exists j'|].
    split; [by eapply list_elem_of_lookup_2|]. split; [done|]. split; [done|].
    intros now'. unfold cancelJob. simpl. rewrite Hjobs, Hh.
    by rewrite decide_False.
  - unfold statusOf, cancelJob. destruct (jobs s !! jobId) as [r|]; [|done].
    destruct (heap s !! r) as [job|]; [|done]. simpl. intros Hne.
    rewrite decide_False; [done|]. congruence.
Qed.

Lemma cancelJob_pending_only_witness :
  (cancelJob "job_1_a" 5 demoSubmitted).1 = true /\
  (0%nat ∉ pendingQueue (cancelJob "job_1_a" 5 demoSubmitted).2) /\
  cancelJob "job_1_a" 6 demoRunning = (false, demoRunning).
Proof.
  destruct (cancelJob_pending_only demoSubmitted "job_1_a" 5 demoSubmitted_reachable)
    as [Hp _].
  destruct (Hp 0%nat (setPosition 0 (newJob 1 "job_1_a" 0 (demoInput 1)))
              eq_refl eq_refl eq_refl) as (Ht & _ & _ & Hout & _).
  split; [exact Ht|]. split; [exact Hout|].
  destruct (cancelJob_pending_only demoRunning "job_1_a" 6 demoRunning_reachable)
    as [_ Hn].
  apply Hn. vm_compute. discriminate.
Defined.

(** ** The attempts counter *)

Lemma stable_refl j : stable j j.
Proof. by repeat split. Qed.

Lemma evolves_trans d1 d2 h1 h2 h3 :
  evolves d1 h1 h2 -> evolves d2 h2 h3 -> evolves (λ r, d1 r + d2 r) h1 h3.
Proof.
  intros H12 H23 r j Hj.
  destruct (H12 r j Hj) as (j2 & Hj2 & (?&?&?&?&?&?) & Ha2).
  destruct (H23 r j2 Hj2) as (j3 & Hj3 & (?&?&?&?&?&?) & Ha3).
  exists j3. split; [done|]. split; [repeat split; congruence | lia].
Qed.

Lemma evolves_ext d d' h h' :
  (forall r, d r = d' r) -> evolves d h h' -> evolves d' h h'.
Proof.
  intros Hd H r j Hj. destruct (H r j Hj) as (j' & ? & ? & ?).
  exists j'. rewrite <- Hd. done.
Qed.

Lemma keeps_refl h : keeps h h.
Proof. intros r j Hj. exists j. split; [done|]. split; [apply stable_refl | lia]. Qed.

Lemma keeps_trans h1 h2 h3 : keeps h1 h2 -> keeps h2 h3 -> keeps h1 h3.
Proof.
  intros H12 H23. eapply evolves_ext; [|by eapply evolves_trans]. intros r. simpl. lia.
Qed.

Lemma evolves_insert (n : Z) h r0 j0 j' :
  h !! r0 = Some j0 -> stable j0 j' -> attempts j' = attempts j0 + n ->
  evolves (λ r, if decide (r = r0) then n else 0) h (<[r0 := j']> h).
Proof.
  intros Hj0 Hs Ha r j Hj. destruct (decide (r = r0)) as [->|Hne].
  - exists j'. rewrite list_lookup_insert_eq by (by eapply lookup_lt_Some).
    assert (j = j0) as -> by congruence. done.
  - exists j. rewrite list_lookup_insert_ne by done.
    split; [done|]. split; [apply stable_refl | lia].
Qed.

Lemma keeps_insert h r0 j0 j' :
  h !! r0 = Some j0 -> stable j0 j' -> attempts j' = attempts j0 ->
  keeps h (<[r0 := j']> h).
Proof.
  intros Hj0 Hs Ha. eapply evolves_ext; [|apply (evolves_insert 0 h r0 j0 j'); [done..|lia]].
  intros r. simpl. by case_decide.
Qed.

Lemma keeps_sameCore h h' : Forall2 sameCore h h' -> keeps h h'.
Proof.
  intros HF r j Hj. destruct (Forall2_lookup_l _ _ _ _ _ HF Hj) as (j' & Hj' & Hc).
  exists j'. split; [done|]. unfold sameCore, core in Hc.
  injection Hc as ? ? ? ? ? ? ? ? ? ? ? ? ?.
  split; [repeat split; congruence | lia].
Qed.

Lemma keeps_app h l : keeps h (h ++ l).
Proof.
  intros r j Hj. exists j. split; [by apply lookup_app_l_Some|].
  split; [apply stable_refl | lia].
Qed.

Lemma keeps_positions h q : keeps h (setPositions h q 0).
Proof. apply keeps_sameCore, setPositions_sameCore. Qed.

Lemma processJob_catch_keeps now rnd msg r s :
  keeps (heap s) (heap (processJob_catch now rnd msg r s)).
Proof.
  unfold processJob_catch. destruct (heap s !! r) as [job|] eqn:Hjob; [|apply keeps_refl].
  destruct (_ || _); simpl; (eapply keeps_insert; [exact Hjob | by repeat split | done]).
Qed.

Lemma processJob_settle_keeps now rnd o r s :
  keeps (heap s) (heap (processJob_settle now rnd o r s)).
Proof.
  unfold processJob_settle. destruct (heap s !! r) as [job|] eqn:Hjob; [|apply keeps_refl].
  assert (Hd : forall hash,
            keeps (heap s)
              (heap (releaseSlot (id job)
                       (withHeap (<[r := markCompleted now hash job]> (heap s)) s)))).
  { intros hash. simpl. (eapply keeps_insert; [exact Hjob | by repeat split | done]). }
  pose proof (processJob_catch_keeps now rnd) as Hc.
  destruct (type job); [destruct o; auto|].
  destruct (Js.truthy_opt _); [destruct o; auto | auto].
Qed.

Lemma cancelJob_keeps jobId now s : keeps (heap s) (heap (cancelJob jobId now s).2).
Proof.
  unfold cancelJob. destruct (jobs s !! jobId) as [r|]; [|apply keeps_refl].
  destruct (heap s !! r) as [job|] eqn:Hjob; [|apply keeps_refl].
  case_decide; [|apply keeps_refl].
  assert (Hk : keeps (heap s) (<[r := markError now "Cancelled by user" failed job]> (heap s)))
    by ((eapply keeps_insert; [exact Hjob | by repeat split | done])).
  destruct (list_find _ _) as [[index x]|]; simpl; [|done].
  eapply keeps_trans; [exact Hk | apply keeps_positions].
Qed.

Lemma retryTimer_keeps k s : keeps (heap s) (heap (retryTimer k s)).
Proof.
  unfold retryTimer. destruct (timers s !! k) as [[r d]|]; [|apply keeps_refl].
  destruct (heap s !! r) as [job|] eqn:Hjob; [|apply keeps_refl].
  case_decide; [|apply keeps_refl]. simpl.
  eapply keeps_trans; [|apply keeps_positions].
  (eapply keeps_insert; [exact Hjob | by repeat split | done]).
Qed.

Lemma processJob_start_evolves now rnd todo s r0 :
  InvT (r0 :: todo) s ->
  evolves (λ r, if decide (r = r0) then 1 else 0) (heap s)
    (heap (processJob_start now rnd s r0)).
Proof.
  intros HI.
  destruct (proj1 (inv_queue _ _ HI r0)) as (job & Hjob & Hst); [left|].
  assert (Hnp : id job ∉ processingJobs s).
  { eapply InvT_not_proc; [done..|]. by rewrite Hst. }
  rewrite (processJob_start_eq now rnd s r0 job Hjob Hnp).
  assert (Hrun : evolves (λ r, if decide (r = r0) then 1 else 0) (heap s)
                   (heap (running now r0 job s))).
  { simpl. apply (evolves_insert 1 (heap s) r0 job); [done | by repeat split | done]. }
  destruct (validateJobData _) as [msg|]; [|done].
  eapply evolves_ext;
    [|eapply evolves_trans;
       [exact Hrun
       |exact (processJob_catch_keeps now (rnd r0) msg r0
                 (resume (length (awaiting s)) (running now r0 job s)))]].
  intros r. simpl. lia.
Qed.

Lemma dispatch_evolves now rnd todo s :
  InvT todo s ->
  evolves (λ r, if decide (r ∈ todo) then 1 else 0) (heap s)
    (heap (foldl (processJob_start now rnd) s todo)).
Proof.
  revert s. induction todo as [|r0 todo IH]; intros s HI; simpl.
  - eapply evolves_ext; [|apply keeps_refl]. intros r. simpl.
    first [done | case_decide as Hc; [by apply elem_of_nil in Hc | done]].
  - pose proof (inv_nodup _ _ HI) as Hnd. simpl in Hnd.
    apply NoDup_cons in Hnd as [Hr0 _].
    eapply evolves_ext;
      [|eapply evolves_trans;
         [by apply (processJob_start_evolves now rnd todo s r0)
         |apply IH; by apply processJob_start_InvT]].
    assert (Hr0' : r0 ∉ todo) by (intros Hin; apply Hr0, elem_of_app; by left).
    intros r. cbn beta.
    destruct (decide (r = r0)) as [Heq|Hne], (decide (r ∈ todo)) as [Hin|Hnin],
      (decide (r ∈ r0 :: todo)) as [Hc|Hc]; try lia; exfalso;
      rewrite ?elem_of_cons, ?not_elem_of_cons in *; subst; tauto.
Qed.

Lemma processNextJobs_evolves now rnd s :
  Inv s ->
  evolves (λ r, if decide (r ∈ jobsToProcess s) then 1 else 0) (heap s)
    (heap (processNextJobs now rnd s)).
Proof.
  intros [HI _]. unfold processNextJobs, jobsToProcess.
  destruct (Nat.leb_spec maxConcurrentJobs (size (processingJobs s))) as [Hfull | Hfree].
  - eapply evolves_ext; [|apply keeps_refl]. intros r. simpl.
    first [done | case_decide as Hc; [by apply elem_of_nil in Hc | done]].
  - simpl. eapply evolves_ext;
      [|eapply evolves_trans; [|apply keeps_positions]].
    2:{ apply (dispatch_evolves now rnd _
                 (withPending (drop (maxConcurrentJobs - size (processingJobs s))
                                 (sortBy (compareRefs (heap s)) (pendingQueue s))) s)).
        apply (InvT_requeue [] s); [done | |].
        - simpl. rewrite take_drop. apply sortBy_perm.
        - rewrite length_take. lia. }
    intros r. simpl. lia.
Qed.

Lemma step_evolves e s s' :
  Inv s -> step e s = Some s' ->
  evolves (λ r, if decide (dispatched e s r) then 1 else 0) (heap s) (heap s').
Proof.
  intros HInv Hstep.
  assert (Hk : forall h', keeps (heap s) h' ->
                 (forall r, ~ dispatched e s r) ->
                 evolves (λ r, if decide (dispatched e s r) then 1 else 0) (heap s) h').
  { intros h' Hkeep Hno. eapply evolves_ext; [|exact Hkeep].
    intros r. simpl. by rewrite decide_False. }
  destruct e; simpl in Hstep.
  - case_decide; [|done]. simplify_eq. apply Hk; [|intros r; simpl; tauto].
    simpl. eapply keeps_trans; [apply keeps_app | apply keeps_positions].
  - simplify_eq. by apply processNextJobs_evolves.
  - destruct (awaiting s !! k); [|done]. simplify_eq. apply Hk; [|intros r; simpl; tauto].
    apply (processJob_settle_keeps now rnd o n (resume k s)).
  - destruct (timers s !! k); [|done]. simplify_eq. apply Hk; [|intros r; simpl; tauto].
    apply retryTimer_keeps.
  - simplify_eq. apply Hk; [|intros r; simpl; tauto]. apply cancelJob_keeps.
  - assert (Hr : keeps (heap s) (heap (retryFailedJob jobId now rnd s).2)).
    { unfold retryFailedJob. destruct (OMap.get _ _); [|apply keeps_refl]. simpl.
      eapply keeps_trans; [apply keeps_app | apply keeps_positions]. }
    destruct (OMap.get jobId (deadLetterQueue s)).
    + case_decide; [|done]. simplify_eq. apply Hk; [done | intros r; simpl; tauto].
    + simplify_eq. apply Hk; [done | intros r; simpl; tauto].
  - simplify_eq. apply Hk; [|intros r; simpl; tauto]. apply keeps_refl.
  - simplify_eq. apply Hk; [|intros r; simpl; tauto]. apply keeps_refl.
Qed.

Lemma processJob_settle_rejected now rnd msg r s job :
  heap s !! r = Some job ->
  exists msg', processJob_settle now rnd (Rejected msg) r s
               = processJob_catch now rnd msg' r s.
Proof.
  intros Hjob. unfold processJob_settle. rewrite Hjob.
  destruct (type job); [by exists msg|].
  destruct (Js.truthy_opt _); [by exists msg|].
  by exists "Invalid job type or missing token address".
Qed.

Lemma demoLastChance_reachable : reachable demoLastChance.
Proof.
  apply (run_reachable [EvAddJob lastChanceInput 1 "a"; EvTick 2 noJitter] emptyQueue);
    [apply reach_init|].
  vm_compute. reflexivity.
Qed.

(** C2: in every reachable state a job submitted with [maxAttempts] >= 1
    has [attempts <= maxAttempts], and strictly less while it is in the
    pending queue; an event adds one to the counter of exactly the jobs a
    dispatch pass takes off the queue and leaves every other counter, and
    every [maxAttempts], as it is; a job whose execution fails when
    [attempts] has reached [maxAttempts] becomes failed, is copied into the
    dead-letter queue and gets no retry timer; and from then on it is
    never in the pending queue again, whatever events follow. *)
Theorem attempts_bounded (s : TransactionQueue) :
  reachable s ->
  (forall r j, heap s !! r = Some j -> 1 <= maxAttempts j ->
     attempts j <= maxAttempts j /\
     (r ∈ pendingQueue s -> attempts j < maxAttempts j)) /\
  (forall e s' r j, step e s = Some s' -> heap s !! r = Some j ->
     exists j', heap s' !! r = Some j' /\ maxAttempts j' = maxAttempts j /\
       attempts j' = attempts j + (if decide (dispatched e s r) then 1 else 0)) /\
  (forall k r j now rnd msg,
     awaiting s !! k = Some r -> heap s !! r = Some j -> maxAttempts j <= attempts j ->
     let s' := processJob_settle now rnd (Rejected msg) r (resume k s) in
     (exists j', heap s' !! r = Some j' /\ status j' = failed /\
                 attempts j' = attempts j) /\
     (exists d, OMap.get (id j) (deadLetterQueue s') = Some d /\ status d = failed) /\
     timers s' = timers s /\ (r ∉ pendingQueue s')) /\
  (forall es s' r j,
     run es s = Some s' -> heap s !! r = Some j ->
     1 <= maxAttempts j <= attempts j -> r ∉ pendingQueue s').
Proof.
  intros Hreach.
  assert (Hbound : forall s0, reachable s0 ->
            forall r j, heap s0 !! r = Some j -> 1 <= maxAttempts j ->
              attempts j <= maxAttempts j /\
              (r ∈ pendingQueue s0 -> attempts j < maxAttempts j)).
  { intros s0 Hs0 r j Hj Hm. destruct (reachable_Inv s0 Hs0) as [HI _].
    destruct (inv_attempts _ _ HI r j Hj Hm) as [Ha Hb]. split; [done|].
    intros Hin. apply Hb. left.
    apply (inv_queue _ _ HI) in Hin as (y & Hy & Hst). congruence. }
  assert (Hstep : forall s0, reachable s0 ->
            forall e s' r j, step e s0 = Some s' -> heap s0 !! r = Some j ->
              exists j', heap s' !! r = Some j' /\ maxAttempts j' = maxAttempts j /\
                attempts j' = attempts j + (if decide (dispatched e s0 r) then 1 else 0)).
  { intros s0 Hs0 e s' r j He Hj.
    destruct (step_evolves e s0 s' (reachable_Inv s0 Hs0) He r j Hj)
      as (j' & Hj' & (_ & _ & _ & _ & Hm & _) & Ha).
    by exists j'. }
  split; [by apply Hbound|]. split; [by apply Hstep|]. split.
  - intros k r j now rnd msg Hk Hj Hle s'. subst s'.
    pose proof (reachable_Inv s Hreach) as HInv.
    destruct (processJob_settle_rejected now rnd msg r (resume k s) j Hj) as (msg' & ->).
    destruct (catch_permanent s k r j now rnd msg' HInv Hk Hj) as (Hh & Hd & Ht & Hq).
    { apply orb_true_iff. right. by apply Z.leb_le. }
    split; [eexists; split; [exact Hh | done]|].
    split; [eexists; split; [exact Hd | done]|].
    split; [done|]. rewrite Hq. destruct HInv as [HI _].
    assert (r ∈ awaiting s) as Hin by (by eapply list_elem_of_lookup_2).
    apply (inv_await _ _ HI) in Hin as (y & Hy & Hst).
    eapply (InvT_not_queue []); [done..|]. by rewrite Hst.
  - intros es. revert s Hreach. induction es as [|e es IH]; intros s Hreach s' r j Hrun Hj Hm.
    + simpl in Hrun. simplify_eq. intros Hin.
      destruct (Hbound s' Hreach r j Hj) as [_ Hlt]; [lia|]. specialize (Hlt Hin). lia.
    + simpl in Hrun. destruct (step e s) as [s1|] eqn:He; [|done].
      destruct (Hstep s Hreach e s1 r j He Hj) as (j1 & Hj1 & Hm1 & Ha1).
      apply (IH s1 (reach_step s e s1 Hreach He) s' r j1 Hrun Hj1).
      rewrite Hm1, Ha1. case_decide; lia.
Qed.

Lemma attempts_bounded_witness :
  (exists d, OMap.get "job_1_a"
               (deadLetterQueue
                  (processJob_settle 3 0%Q (Rejected "network timeout") 0%nat
                     (resume 0 demoLastChance))) = Some d /\ status d = failed) /\
  (0%nat ∉ pendingQueue
             (processNextJobs 4 noJitter
                (processJob_settle 3 0%Q (Rejected "network timeout") 0%nat
                   (resume 0 demoLastChance)))).
Proof.
  destruct (attempts_bounded demoLastChance demoLastChance_reachable)
    as (_ & _ & Hfail & Hnever).
  pose (j := mkQueueJob "job_1_a" ETH_CLAIM (mkJobData demoAddress None None None 0)
               processing 1 1 1 1 2 (Some 2) None None None (Some 2) (Some 1)).
  split.
  - destruct (Hfail 0%nat 0%nat j 3 0%Q "network timeout" eq_refl eq_refl) as (_ & Hd & _).
    + simpl. lia.
    + exact Hd.
  - apply (Hnever [EvSettle 0 (Rejected "network timeout") 3 0%Q; EvTick 4 noJitter]
             (processNextJobs 4 noJitter
                (processJob_settle 3 0%Q (Rejected "network timeout") 0%nat
                   (resume 0 demoLastChance))) 0%nat j).
    + reflexivity.
    + reflexivity.
    + simpl. lia.
Defined.

(** ** The holding structures *)

(** C6, counterexample: a job that has just been submitted is in the
    pending queue and in the main store, and a job that has failed for
    good is in the main store, with the terminal status failed, and in the
    dead-letter queue; neither is in exactly one structure. *)
Lemma job_in_two_structures :
  reachable demoSubmitted /\
  inPending demoSubmitted "job_1_a" /\ inMain demoSubmitted "job_1_a" /\
  ~ exactlyOne (inPending demoSubmitted "job_1_a") (inFlight demoSubmitted "job_1_a")
      (inMain demoSubmitted "job_1_a") (inDead demoSubmitted "job_1_a") /\
  reachable demoDead /\
  statusOf demoDead "job_1_a" = Some failed /\
  inMain demoDead "job_1_a" /\ inDead demoDead "job_1_a" /\
  ~ exactlyOne (inPending demoDead "job_1_a") (inFlight demoDead "job_1_a")
      (inMain demoDead "job_1_a") (inDead demoDead "job_1_a").
Proof.
  assert (H1 : inPending demoSubmitted "job_1_a").
  { exists 0%nat. eexists. split; [left|]. split; reflexivity. }
  assert (H2 : inMain demoSubmitted "job_1_a") by (exists 0%nat; reflexivity).
  assert (H3 : inMain demoDead "job_1_a") by (exists 0%nat; reflexivity).
  assert (H4 : inDead demoDead "job_1_a") by (eexists; reflexivity).
  split; [apply demoSubmitted_reachable|]. split; [done|]. split; [done|].
  split; [unfold exactlyOne; tauto|].
  split; [apply demoDead_reachable|]. split; [reflexivity|]. split; [done|].
  split; [done|]. unfold exactlyOne; tauto.
Qed.

(** C6, as the code has it: the pending queue, the in-flight set and the
    dead-letter queue are pairwise disjoint, and the main store is the
    index of all jobs rather than a fourth alternative: every job that is
    pending, in flight or waiting for a retry is also in the main store.
    A job is in the pending queue exactly when its status is pending and
    in the in-flight set exactly when its status is processing, and a
    dead-lettered job has the status failed. *)
Theorem holding_structures (s : TransactionQueue) (i : string) :
  reachable s ->
  ~ (inPending s i /\ inFlight s i) /\
  ~ (inPending s i /\ inDead s i) /\
  ~ (inFlight s i /\ inDead s i) /\
  (inPending s i \/ inFlight s i -> inMain s i) /\
  (forall r j, heap s !! r = Some j -> id j = i ->
     (status j = pending <-> r ∈ pendingQueue s) /\
     (status j = processing <-> inFlight s i) /\
     (inDead s i -> status j = failed) /\
     (status j ≠ completed -> status j ≠ failed -> jobs s !! i = Some r)).
Proof.
  intros Hreach. destruct (reachable_Inv s Hreach) as [HI _].
  assert (Hp : inPending s i -> exists r j, heap s !! r = Some j /\ id j = i /\ status j = pending).
  { intros (r & j & Hin & Hj & Hid).
    apply (inv_queue _ _ HI) in Hin as (y & Hy & Hst). exists r, j.
    split; [done|]. split; [done | congruence]. }
  assert (Hf : inFlight s i ->
               exists r j, heap s !! r = Some j /\ id j = i /\ status j = processing)
    by apply (inv_proc _ _ HI).
  assert (Hd : inDead s i -> exists r j, heap s !! r = Some j /\ id j = i /\ status j = failed).
  { intros [d Hget]. apply omap_get_elem in Hget.
    by destruct (inv_dlq _ _ HI i d Hget) as (_ & _ & H). }
  assert (Huniq : forall r1 j1 r2 j2,
            heap s !! r1 = Some j1 -> id j1 = i -> heap s !! r2 = Some j2 -> id j2 = i ->
            j1 = j2).
  { intros r1 j1 r2 j2 H1 E1 H2 E2.
    assert (r1 = r2) by (eapply (inv_ids _ _ HI); [done..|congruence]). congruence. }
  split.
  { intros [(r1 & j1 & H1 & E1 & S1)%Hp (r2 & j2 & H2 & E2 & S2)%Hf].
    assert (j1 = j2) by eauto. congruence. }
  split.
  { intros [(r1 & j1 & H1 & E1 & S1)%Hp (r2 & j2 & H2 & E2 & S2)%Hd].
    assert (j1 = j2) by eauto. congruence. }
  split.
  { intros [(r1 & j1 & H1 & E1 & S1)%Hf (r2 & j2 & H2 & E2 & S2)%Hd].
    assert (j1 = j2) by eauto. congruence. }
  split.
  { intros [(r & j & Hj & Hid & Hst)%Hp | (r & j & Hj & Hid & Hst)%Hf];
      exists r; rewrite <- Hid; apply (inv_live _ _ HI); congruence. }
  intros r j Hj Hid. split.
  { split.
    - intros Hst. apply (inv_queue _ _ HI). by exists j.
    - intros Hin. apply (inv_queue _ _ HI) in Hin as (y & Hy & Hst). congruence. }
  split.
  { split.
    - intros Hst. apply (inv_proc _ _ HI). by exists r, j.
    - intros (r2 & j2 & H2 & E2 & S2)%Hf. assert (j = j2) by eauto. congruence. }
  split.
  { intros (r2 & j2 & H2 & E2 & S2)%Hd. assert (j = j2) by eauto. congruence. }
  intros Hc Hf'. rewrite <- Hid. by apply (inv_live _ _ HI).
Qed.

Lemma holding_structures_witness :
  ~ (inPending demoRunning "job_1_a" /\ inFlight demoRunning "job_1_a") /\
  inMain demoRunning "job_1_a".
Proof.
  destruct (holding_structures demoRunning "job_1_a" demoRunning_reachable)
    as (Hpf & _ & _ & Hmain & _).
  split; [exact Hpf|]. apply Hmain. right. unfold inFlight.
  apply (bool_decide_unpack _). vm_compute. exact I.
Defined.

(** ** Queue positions *)

Lemma demoUnsorted_reachable : reachable demoUnsorted.
Proof.
  apply (run_reachable [EvAddJob (demoInput 2) 1 "a"; EvAddJob (demoInput 1) 2 "b"]
           emptyQueue); [apply reach_init|].
  vm_compute. reflexivity.
Qed.

Lemma demoFive_reachable : reachable demoFive.
Proof.
  apply (run_reachable demoFiveEvents emptyQueue); [apply reach_init|].
  vm_compute. reflexivity.
Qed.

(** C5, counterexample: after a priority-2 and then a priority-1
    submission the second job is pending with position 2, while its rank
    by (priority, createdAt) is 1. *)
Lemma position_not_rank :
  reachable demoUnsorted /\
  pendingQueue demoUnsorted = [0%nat; 1%nat] /\
  (position <$> (heap demoUnsorted !! 1%nat)) = Some (Some 2) /\
  rankOf (heap demoUnsorted) (pendingQueue demoUnsorted) 1%nat = 1.
Proof.
  split; [apply demoUnsorted_reachable|]. vm_compute. by repeat split.
Qed.

Lemma compareRefs_total h a b : compareRefs h a b <= 0 \/ compareRefs h b a <= 0.
Proof.
  unfold compareRefs. destruct (h !! a) as [ja|], (h !! b) as [jb|]; try (left; lia).
  unfold compareJobs. repeat case_decide; lia.
Qed.

Lemma compareRefs_trans h a b c :
  is_Some (h !! a) -> is_Some (h !! b) -> is_Some (h !! c) ->
  compareRefs h a b <= 0 -> compareRefs h b c <= 0 -> compareRefs h a c <= 0.
Proof.
  unfold compareRefs. intros [ja ->] [jb ->] [jc ->].
  unfold compareJobs. repeat case_decide; lia.
Qed.

Section Sorting.
Variable h : list QueueJob.
Let R (a b : nat) : Prop := compareRefs h a b <= 0.
Let valid (a : nat) : Prop := is_Some (h !! a).

Lemma sortInsert_sorted x l :
  valid x -> Forall valid l -> StronglySorted R l ->
  StronglySorted R (sortInsert (compareRefs h) x l).
Proof.
  intros Hx Hl Hs. induction Hs as [|y l Hs IH Hy]; simpl.
  - repeat constructor.
  - apply Forall_cons in Hl as [Hvy Hl].
    destruct (Z.leb_spec (compareRefs h x y) 0) as [Hle | Hgt].
    + constructor; [by constructor|]. constructor; [done|].
      rewrite Forall_forall in Hy, Hl |- *. intros z Hz.
      apply (compareRefs_trans h x y z);
        [exact Hx | exact Hvy | by apply Hl | exact Hle | by apply Hy].
    + constructor; [by apply IH|].
      rewrite sortInsert_perm. constructor; [|done].
      destruct (compareRefs_total h x y); [lia | done].
Qed.

Lemma sortBy_sorted l :
  Forall valid l -> StronglySorted R (sortBy (compareRefs h) l).
Proof.
  induction l as [|x l IH]; intros Hl; [constructor|].
  apply Forall_cons in Hl as [Hx Hl]. unfold sortBy in *. simpl.
  apply sortInsert_sorted; [done | | by apply IH].
  by rewrite (sortBy_perm (compareRefs h) l).
Qed.
End Sorting.

Lemma StronglySorted_transfer (R R' : nat -> nat -> Prop) (l : list nat) :
  (forall a b, a ∈ l -> b ∈ l -> R a b -> R' a b) ->
  StronglySorted R l -> StronglySorted R' l.
Proof.
  intros Himp Hs. induction Hs as [|x l Hs IH Hx]; constructor.
  - apply IH. intros a b Ha Hb. apply Himp; by right.
  - rewrite Forall_forall in Hx |- *. intros z Hz.
    apply Himp; [left | by right | by apply Hx].
Qed.

Lemma compareRefs_evolves d h h' a b :
  evolves d h h' -> is_Some (h !! a) -> is_Some (h !! b) ->
  compareRefs h' a b = compareRefs h a b.
Proof.
  intros He [ja Ha] [jb Hb].
  destruct (He a ja Ha) as (ja' & Ha' & (_ & _ & _ & Hpa & _ & Hca) & _).
  destruct (He b jb Hb) as (jb' & Hb' & (_ & _ & _ & Hpb & _ & Hcb) & _).
  unfold compareRefs. rewrite Ha, Hb, Ha', Hb'. unfold compareJobs.
  rewrite Hpa, Hpb, Hca, Hcb. done.
Qed.

(** C5, as the code has it: the position stored in a pending job is its
    1-based index in the pending array, rewritten after every insertion,
    removal and sort. The array is in (priority, createdAt) order, equal
    keys in their earlier order, right after a dispatch pass has sorted
    it, and then the position is the rank in that order; a submission in
    between appends at the end of the array without sorting. *)
Theorem position_is_queue_index (s : TransactionQueue) :
  reachable s ->
  (forall k r, pendingQueue s !! k = Some r ->
     exists j, heap s !! r = Some j /\ status j = pending /\
               position j = Some (Z.of_nat k + 1)) /\
  (forall now rnd,
     (size (processingJobs s) < maxConcurrentJobs)%nat ->
     let s' := processNextJobs now rnd s in
     StronglySorted (λ a b, compareRefs (heap s') a b <= 0) (pendingQueue s')) /\
  (forall input now rnd,
     pendingQueue (addJob input now rnd s).2 = pendingQueue s ++ [length (heap s)]).
Proof.
  intros Hreach. pose proof (reachable_Inv s Hreach) as HInv. destruct HInv as [HI HP].
  split.
  { intros k r Hk. destruct (HP k r Hk) as (j & Hj & Hpos). exists j.
    split; [done|]. split; [|done].
    assert (Hin : r ∈ pendingQueue s) by (by eapply list_elem_of_lookup_2).
    apply (inv_queue _ _ HI) in Hin as (y & Hy & Hst). congruence. }
  split; [|done].
  intros now rnd Hfree s'. subst s'.
  pose proof (processNextJobs_evolves now rnd s (conj HI HP)) as Hev.
  rewrite processNextJobs_pending.
  destruct (Nat.leb_spec maxConcurrentJobs (size (processingJobs s))) as [Hfull|_]; [lia|].
  set (sorted := sortBy (compareRefs (heap s)) (pendingQueue s)).
  set (n := (maxConcurrentJobs - size (processingJobs s))%nat).
  assert (Hvalid : Forall (λ a, is_Some (heap s !! a)) (pendingQueue s)).
  { rewrite Forall_forall. intros a Ha. by apply (InvT_valid [] s a HI). }
  assert (Hsorted : StronglySorted (λ a b, compareRefs (heap s) a b <= 0) sorted)
    by (by apply sortBy_sorted).
  rewrite <- (take_drop n sorted) in Hsorted.
  apply StronglySorted_app_1_r in Hsorted.
  eapply StronglySorted_transfer; [|exact Hsorted].
  assert (Hsub : forall a, a ∈ drop n sorted -> is_Some (heap s !! a)).
  { intros a Ha. rewrite Forall_forall in Hvalid. apply Hvalid.
    rewrite <- (sortBy_perm (compareRefs (heap s)) (pendingQueue s)).
    fold sorted. rewrite <- (take_drop n sorted). apply elem_of_app. by right. }
  intros a b Ha Hb Hab. simpl.
  rewrite (compareRefs_evolves _ _ _ a b Hev); auto.
Qed.

Lemma position_is_queue_index_witness :
  (exists j, heap demoUnsorted !! 1%nat = Some j /\ position j = Some 2) /\
  pendingQueue (processNextJobs 9 noJitter demoFive) = [2%nat; 4%nat] /\
  StronglySorted
    (λ a b, compareRefs (heap (processNextJobs 9 noJitter demoFive)) a b <= 0)
    (pendingQueue (processNextJobs 9 noJitter demoFive)).
Proof.
  split.
  - destruct (position_is_queue_index demoUnsorted demoUnsorted_reachable) as (Hpos & _).
    destruct (Hpos 1%nat 1%nat eq_refl) as (j & Hj & _ & Hp). by exists j.
  - split; [vm_compute; reflexivity|].
    destruct (position_is_queue_index demoFive demoFive_reachable) as (_ & Hsort & _).
    apply (Hsort 9 noJitter). vm_compute. lia.
Defined.

(** ** The scenarios of the specification *)

Example classify_funds_gas : isRetryableError "insufficient funds for gas" = false.
Proof. reflexivity. Qed.

Example classify_timeout : isRetryableError "network timeout" = true.
Proof. reflexivity. Qed.

Example classify_recipient : isRetryableError "Invalid recipient address" = true.
Proof. reflexivity. Qed.

Example classify_token : isRetryableError "Invalid token address" = false.
Proof. reflexivity. Qed.

(** Five submissions with priorities 2, 1, 2, 1, 3: the first pass takes
    jobs 2, 4 and 1, in this order, and leaves jobs 3 and 5. *)
Example dispatch_order :
  jobsToProcess demoFive = [1%nat; 3%nat; 0%nat] /\
  pendingQueue (processNextJobs 9 noJitter demoFive) = [2%nat; 4%nat].
Proof. vm_compute. done. Qed.

(** Three "network timeout" failures with [maxAttempts] = 3: the job is
    dead-lettered after the third and no fourth attempt is scheduled. *)
Example three_timeouts :
  let es := [ EvAddJob (demoInput 1) 1 "a";
              EvTick 2 noJitter; EvSettle 0 (Rejected "network timeout") 3 0%Q; EvTimer 0;
              EvTick 4 noJitter; EvSettle 0 (Rejected "network timeout") 5 0%Q; EvTimer 0;
              EvTick 6 noJitter; EvSettle 0 (Rejected "network timeout") 7 0%Q ] in
  exists s, run es emptyQueue = Some s /\
    pendingQueue s = [] /\ timers s = [] /\ awaiting s = [] /\
    ((λ d, (status d, attempts d)) <$> OMap.get "job_1_a" (deadLetterQueue s))
    = Some (failed, 3).
Proof. eexists. split; [vm_compute; reflexivity|]. vm_compute. done. Qed.


(** * Further properties of the queue *)

(** ** The entries of the dead-letter queue *)

Lemma filter_all {A} (P : A -> Prop) `{!forall x, Decision (P x)} (l : list A) :
  Forall P l -> filter P l = l.
Proof.
  induction 1 as [|x l Hx Hl IH]; [done|]. by rewrite filter_cons_True, IH.
Qed.

Section OMapKeys.
Context {V : Type}.
Implicit Types (m : list (string * V)) (k : string) (v : V).

Lemma omap_keys_set m k v :
  OMap.keys (OMap.set k v m) =
  if decide (k ∈ OMap.keys m) then OMap.keys m else OMap.keys m ++ [k].
Proof.
  induction m as [|[k' v'] m IH].
  - simpl. by destruct (decide (k ∈ [])) as [H|]; [apply elem_of_nil in H|].
  - simpl. destruct (String.eqb k k') eqn:E.
    + apply String.eqb_eq in E. subst.
      by destruct (decide (k' ∈ k' :: OMap.keys m)) as [|H]; [|destruct H; left].
    + apply String.eqb_neq in E. simpl. fold (OMap.keys (OMap.set k v m)).
      fold (OMap.keys m). rewrite IH.
      destruct (decide (k ∈ OMap.keys m)) as [Hin|Hnin],
        (decide (k ∈ k' :: OMap.keys m)) as [Hc|Hc]; try done.
      * destruct Hc. by right.
      * apply elem_of_cons in Hc as [? | ?]; congruence.
Qed.

Lemma omap_keys_set_NoDup m k v : NoDup (OMap.keys m) -> NoDup (OMap.keys (OMap.set k v m)).
Proof.
  intros Hnd. rewrite omap_keys_set. case_decide; [done|].
  apply NoDup_app. split; [done|]. split; [|apply NoDup_singleton].
  intros x Hx Hx'. apply list_elem_of_singleton in Hx'. by subst.
Qed.

Lemma omap_delete_filter m k :
  NoDup (OMap.keys m) -> OMap.delete k m = filter (λ kv, kv.1 ≠ k) m.
Proof.
  induction m as [|[k' v'] m IH]; intros Hnd; simpl; [done|].
  apply NoDup_cons in Hnd as [Hk' Hnd].
  destruct (String.eqb k k') eqn:E.
  - apply String.eqb_eq in E. subst k'.
    rewrite filter_cons_False by (simpl; tauto).
    symmetry. apply filter_all. rewrite Forall_forall. intros [k0 v0] Hin Heq.
    simpl in Heq. subst k0. apply Hk'.
    apply list_elem_of_fmap. by exists (k, v0).
  - apply String.eqb_neq in E.
    rewrite filter_cons_True by (simpl; congruence). by rewrite IH.
Qed.

Lemma omap_keys_delete_NoDup m k : NoDup (OMap.keys m) -> NoDup (OMap.keys (OMap.delete k m)).
Proof.
  intros Hnd. rewrite omap_delete_filter by done. unfold OMap.keys.
  eapply sublist_NoDup; [exact Hnd|]. apply (fmap_sublist fst), sublist_filter.
Qed.

Lemma omap_get_delete_eq m k : NoDup (OMap.keys m) -> OMap.get k (OMap.delete k m) = None.
Proof.
  intros Hnd. apply omap_get_None. rewrite omap_delete_filter by done.
  unfold OMap.keys. intros Hin. apply list_elem_of_fmap in Hin as ([k0 v0] & Hk & Hin).
  apply list_elem_of_filter in Hin as [Hne _]. simpl in *. congruence.
Qed.

Lemma omap_get_Some_elem m k v :
  NoDup (OMap.keys m) -> (k, v) ∈ m -> OMap.get k m = Some v.
Proof.
  induction m as [|[k' v'] m IH]; intros Hnd Hin; [by apply elem_of_nil in Hin|].
  apply NoDup_cons in Hnd as [Hk' Hnd]. simpl.
  apply elem_of_cons in Hin as [Heq | Hin].
  - inversion Heq; subst. by rewrite String.eqb_refl.
  - destruct (String.eqb k k') eqn:E; [|by apply IH].
    apply String.eqb_eq in E. subst k'. destruct Hk'.
    apply list_elem_of_fmap. by exists (k, v).
Qed.

Lemma omap_length_delete_present m k :
  is_Some (OMap.get k m) -> S (length (OMap.delete k m)) = length m.
Proof.
  induction m as [|[k' v'] m IH]; simpl; [by intros [? ?]|].
  destruct (String.eqb k k'); [done|]. intros H. simpl. by rewrite IH.
Qed.
End OMapKeys.

Lemma DlqOk_move now msg job dlq :
  DlqOk dlq -> DlqOk (moveToDeadLetterQueue now (markError now msg failed job) dlq).
Proof.
  intros [Hnd Hall]. set (job' := markError now msg failed job).
  assert (Hset : DlqOk (OMap.set (id job') (deadCopy now job') dlq)).
  { split; [by apply omap_keys_set_NoDup|].
    rewrite Forall_forall in Hall |- *. intros [k d] Hin.
    apply omap_elem_set in Hin as [[-> ->] | Hin]; [|by apply Hall].
    simpl. split; [done|]. split; [done|]. by eexists. }
  unfold moveToDeadLetterQueue.
  destruct (_ <? _)%nat; [|done].
  destruct (OMap.firstKey _) as [oldest|]; [|done].
  destruct (Js.truthy oldest); [|done].
  destruct Hset as [Hnd' Hall']. split; [by apply omap_keys_delete_NoDup|].
  rewrite omap_delete_filter by done.
  rewrite Forall_forall in Hall' |- *. intros kv Hin.
  apply list_elem_of_filter in Hin as [_ Hin]. by apply Hall'.
Qed.

Lemma DlqOk_delete k dlq : DlqOk dlq -> DlqOk (OMap.delete k dlq).
Proof.
  intros [Hnd Hall]. split; [by apply omap_keys_delete_NoDup|].
  rewrite omap_delete_filter by done.
  rewrite Forall_forall in Hall |- *. intros kv Hin.
  apply list_elem_of_filter in Hin as [_ Hin]. by apply Hall.
Qed.

(** The dead-letter queue changes only by [moveToDeadLetterQueue] of a job
    marked failed and by deletions. *)
Section DlqSteps.
Variable P : list (string * QueueJob) -> Prop.
Hypothesis P_move : forall now msg job dlq,
  P dlq -> P (moveToDeadLetterQueue now (markError now msg failed job) dlq).
Hypothesis P_delete : forall k dlq, P dlq -> P (OMap.delete k dlq).

Lemma catch_dlq now rnd msg r s :
  P (deadLetterQueue s) -> P (deadLetterQueue (processJob_catch now rnd msg r s)).
Proof.
  intros HP. unfold processJob_catch. destruct (heap s !! r); [|done].
  destruct (_ || _); simpl; [by apply P_move | done].
Qed.

Lemma start_dlq now rnd s r :
  P (deadLetterQueue s) -> P (deadLetterQueue (processJob_start now rnd s r)).
Proof.
  intros HP. unfold processJob_start. destruct (heap s !! r); [|done].
  case_decide; [done|]. destruct (validateJobData _); [|done].
  by apply catch_dlq.
Qed.

Lemma dispatch_dlq now rnd todo s :
  P (deadLetterQueue s) ->
  P (deadLetterQueue (foldl (processJob_start now rnd) s todo)).
Proof.
  revert s. induction todo as [|r todo IH]; intros s HP; simpl; [done|].
  by apply IH, start_dlq.
Qed.

Lemma foldr_delete_dlq (ks : list (string * QueueJob)) dlq :
  P dlq -> P (foldr (λ kv m, OMap.delete kv.1 m) dlq ks).
Proof. intros HP. induction ks as [|kv ks IH]; simpl; [done | by apply P_delete]. Qed.

Lemma step_dlq e s s' :
  step e s = Some s' -> P (deadLetterQueue s) -> P (deadLetterQueue s').
Proof.
  intros Hstep HP. destruct e; simpl in Hstep.
  - case_decide; [|done]. by simplify_eq.
  - simplify_eq. unfold processNextJobs. destruct (_ <=? _)%nat; [done|].
    simpl. by apply dispatch_dlq.
  - destruct (awaiting s !! k); [|done]. simplify_eq.
    unfold processJob_settle. simpl. destruct (heap s !! n) as [job|]; [|done].
    assert (Hc : forall msg, P (deadLetterQueue (processJob_catch now rnd msg n (resume k s))))
      by (intros; by apply catch_dlq).
    destruct (type job); [destruct o; auto|].
    destruct (Js.truthy_opt _); [destruct o; auto | auto].
  - destruct (timers s !! k) as [[r d]|] eqn:Hk; [|done]. simplify_eq.
    unfold retryTimer. rewrite Hk. destruct (heap s !! r); [|done]. by case_decide.
  - simplify_eq. unfold cancelJob. destruct (jobs s !! jobId); [|done].
    destruct (heap s !! n); [|done]. case_decide; [|done].
    by destruct (list_find _ _) as [[? ?]|].
  - assert (Hr : P (deadLetterQueue (retryFailedJob jobId now rnd s).2)).
    { unfold retryFailedJob. destruct (OMap.get _ _); [|done]. simpl. by apply P_delete. }
    destruct (OMap.get jobId (deadLetterQueue s)); [case_decide; [|done]|]; by simplify_eq.
  - by simplify_eq.
  - simplify_eq. simpl. by apply foldr_delete_dlq.
Qed.
End DlqSteps.

Lemma reachable_DlqOk s : reachable s -> DlqOk (deadLetterQueue s).
Proof.
  induction 1 as [|s e s' _ IH Hstep].
  - split; [apply NoDup_nil_2 | apply Forall_nil_2].
  - eapply (step_dlq DlqOk); [| |exact Hstep|exact IH].
    + intros. by apply DlqOk_move.
    + intros. by apply DlqOk_delete.
Qed.

(** X1: the failed jobs listed for the administrators: no id twice, every
    entry failed and with its error text, found again under its id; and
    the main-store record of a dead-lettered id, while it exists, is
    failed as well. *)
Theorem deadLetter_listing (s : TransactionQueue) :
  reachable s ->
  NoDup (id <$> getDeadLetterQueue s) /\
  (forall d, d ∈ getDeadLetterQueue s ->
     status d = failed /\ is_Some (error d) /\
     OMap.get (id d) (deadLetterQueue s) = Some d /\
     (statusOf s (id d) = None \/ statusOf s (id d) = Some failed)).
Proof.
  intros Hreach. destruct (reachable_DlqOk s Hreach) as [Hnd Hall].
  destruct (reachable_Inv s Hreach) as [HI _].
  rewrite Forall_forall in Hall.
  assert (Hids : id <$> getDeadLetterQueue s = OMap.keys (deadLetterQueue s)).
  { unfold getDeadLetterQueue, OMap.keys. rewrite <- list_fmap_compose.
    apply list_fmap_ext. intros i [k d] Hkd. simpl.
    apply list_elem_of_lookup_2 in Hkd. by destruct (Hall _ Hkd) as [? _]. }
  split; [by rewrite Hids|].
  intros d Hd. unfold getDeadLetterQueue in Hd.
  apply list_elem_of_fmap in Hd as ([k d'] & -> & Hin). simpl.
  destruct (Hall _ Hin) as (Hid & Hst & Herr). simpl in *.
  split; [done|]. split; [done|]. split.
  - rewrite Hid. by apply omap_get_Some_elem.
  - destruct (inv_dlq _ _ HI k d' Hin) as (_ & _ & r & j & Hj & Hidj & Hstj).
    unfold statusOf. rewrite Hid.
    destruct (jobs s !! k) as [r'|] eqn:Hjobs; [|by left]. right.
    destruct (inv_jobs _ _ HI k r' Hjobs) as (j' & Hj' & Hidj').
    assert (r' = r) as -> by (eapply (inv_ids _ _ HI); [done..|congruence]).
    rewrite Hj. simpl. congruence.
Qed.

Lemma deadLetter_listing_witness :
  exists d, getDeadLetterQueue demoDead = [d] /\ status d = failed /\
            statusOf demoDead (id d) = Some failed.
Proof.
  destruct (deadLetter_listing demoDead demoDead_reachable) as [_ H].
  eexists. split; [reflexivity|].
  match goal with |- status ?d = _ /\ _ =>
    destruct (H d) as (Hst & _ & _ & [Hs | Hs]); [left | discriminate Hs | by split] end.
Defined.

(** ** Replay and submission *)

Lemma setPositions_lookup_eq (q : list nat) (h : list QueueJob) (i : Z) (k r : nat)
    (j0 : QueueJob) :
  NoDup q -> q !! k = Some r -> h !! r = Some j0 ->
  setPositions h q i !! r = Some (setPosition (i + Z.of_nat k) j0).
Proof.
  revert h i k. induction q as [|r0 q IH]; intros h i k Hnd Hk Hj; [done|].
  apply NoDup_cons in Hnd as [Hr0 Hnd].
  destruct k as [|k]; simpl in *.
  - simplify_eq. rewrite setPositions_notin by done.
    rewrite list_lookup_alter_eq, Hj. simpl. do 2 f_equal. lia.
  - assert (r0 ≠ r) by (intros ->; apply Hr0; by eapply list_elem_of_lookup_2).
    rewrite (IH (alter (setPosition i) r0 h) (i + 1) k Hnd Hk).
    + do 2 f_equal. lia.
    + by rewrite list_lookup_alter_ne.
Qed.

(** The job appended by a submission or a replay, after the positions
    have been rewritten. *)
Lemma newcomer_lookup s job jbs :
  InvT [] s ->
  heap (updateQueuePositions
          (mkQueue (heap s ++ [job]) jbs (pendingQueue s ++ [length (heap s)])
             (processingJobs s) (deadLetterQueue s) (timers s) (awaiting s)))
    !! length (heap s)
  = Some (setPosition (Z.of_nat (length (pendingQueue s))) job).
Proof.
  intros HI. simpl.
  assert (Hfresh : length (heap s) ∉ pendingQueue s).
  { intros Hin. destruct (InvT_valid [] s _ HI Hin) as [j Hj].
    apply lookup_lt_Some in Hj. lia. }
  rewrite (setPositions_lookup_eq _ _ 0 (length (pendingQueue s)) (length (heap s)) job).
  - done.
  - apply NoDup_snoc_fresh; [apply (inv_nodup _ _ HI) | done].
  - by apply list_lookup_middle.
  - by apply list_lookup_middle.
Qed.

(** X2: replay of a dead-letter entry: an unknown id is refused and nothing
    changes; a known one is replayed as a new pending job under a new id,
    different from the old one, with no attempts and no error, the same
    type, data, priority and ceiling, stored in the main store and put
    last in the pending queue, and the entry leaves the dead-letter queue
    while every other entry stays. *)
Theorem retryFailedJob_replay (s : TransactionQueue) (jobId : string) (now : Z)
    (rnd : string) :
  reachable s ->
  (OMap.get jobId (deadLetterQueue s) = None ->
   retryFailedJob jobId now rnd s = (false, s)) /\
  (forall failedJob,
     OMap.get jobId (deadLetterQueue s) = Some failedJob ->
     freshId (generateJobId now rnd) s ->
     let res := retryFailedJob jobId now rnd s in
     let newId := generateJobId now rnd in
     res.1 = true /\ newId ≠ jobId /\
     (exists job, getJob newId res.2 = Some job /\ id job = newId /\
        status job = pending /\ attempts job = 0 /\ error job = None /\
        transactionHash job = None /\
        type job = type failedJob /\ data job = data failedJob /\
        priority job = priority failedJob /\ maxAttempts job = maxAttempts failedJob /\
        position job = Some (Z.of_nat (length (pendingQueue s)) + 1)) /\
     pendingQueue res.2 = pendingQueue s ++ [length (heap s)] /\
     OMap.get jobId (deadLetterQueue res.2) = None /\
     S (length (deadLetterQueue res.2)) = length (deadLetterQueue s) /\
     (forall k, k ≠ jobId ->
        OMap.get k (deadLetterQueue res.2) = OMap.get k (deadLetterQueue s))).
Proof.
  intros Hreach. destruct (reachable_Inv s Hreach) as [HI _].
  destruct (reachable_DlqOk s Hreach) as [Hnd _].
  split; [intros Hnone; unfold retryFailedJob; by rewrite Hnone|].
  intros failedJob Hget Hfresh res newId. subst res newId.
  unfold retryFailedJob. rewrite Hget.
  set (retryJob := replayCopy now (generateJobId now rnd) failedJob).
  cbn [fst snd]. split; [done|]. split.
  { intros Heq. apply omap_get_elem in Hget.
    destruct (inv_dlq _ _ HI jobId failedJob Hget) as (_ & _ & r & j & Hj & Hid & _).
    unfold freshId in Hfresh. rewrite Forall_forall in Hfresh.
    apply (Hfresh j); [by eapply list_elem_of_lookup_2 | congruence]. }
  split.
  { exists (setPosition (Z.of_nat (length (pendingQueue s))) retryJob).
    split; [|by repeat split].
    unfold getJob. cbn -[generateJobId setPositions].
    rewrite lookup_insert_eq.
    exact (newcomer_lookup s retryJob (jobs s) HI). }
  split; [done|]. cbn -[generateJobId setPositions].
  split; [by apply omap_get_delete_eq|].
  split; [apply omap_length_delete_present; by rewrite Hget|].
  intros k Hne. by apply omap_get_delete_ne.
Qed.

Lemma retryFailedJob_replay_witness :
  (retryFailedJob "job_1_a" 9 "z" demoDead).1 = true /\
  OMap.get "job_1_a" (deadLetterQueue (retryFailedJob "job_1_a" 9 "z" demoDead).2) = None /\
  retryFailedJob "job_9_q" 9 "z" demoDead = (false, demoDead).
Proof.
  destruct (retryFailedJob_replay demoDead "job_1_a" 9 "z" demoDead_reachable) as [_ Hyes].
  destruct (retryFailedJob_replay demoDead "job_9_q" 9 "z" demoDead_reachable) as [Hno _].
  assert (Hf : freshId (generateJobId 9 "z") demoDead).
  { apply (bool_decide_unpack _). vm_compute. exact I. }
  edestruct Hyes as (Ht & _ & _ & _ & Hgone & _); [reflexivity | exact Hf |].
  split; [exact Ht|]. split; [exact Hgone|]. apply Hno. reflexivity.
Defined.

(** X3: a submission can be looked up at once: [getJob] on the id returned by
    [addJob] gives a pending job with no attempts, the submitted type,
    data, priority and ceiling, and the last position of the queue with
    the matching time estimate; the status of every other id is as
    before. *)
Theorem addJob_getJob (s : TransactionQueue) (input : JobInput) (now : Z) (rnd : string) :
  reachable s ->
  let res := addJob input now rnd s in
  (exists job, getJob res.1 res.2 = Some job /\ id job = res.1 /\
     status job = pending /\ attempts job = 0 /\
     type job = in_type input /\ data job = in_data input /\
     priority job = in_priority input /\ maxAttempts job = in_maxAttempts input /\
     position job = Some (Z.of_nat (length (pendingQueue s)) + 1) /\
     estimatedProcessingTime job = Some (2 * (Z.of_nat (length (pendingQueue s)) + 1))) /\
  (forall jobId, jobId ≠ res.1 -> statusOf res.2 jobId = statusOf s jobId).
Proof.
  intros Hreach res. subst res. destruct (reachable_Inv s Hreach) as [HI _].
  set (job := newJob now (generateJobId now rnd) (length (pendingQueue s)) input).
  split.
  - exists (setPosition (Z.of_nat (length (pendingQueue s))) job).
    split; [|repeat split; try reflexivity;
               simpl; f_equal; change (processingDelay / 1000) with 2; lia].
    unfold getJob, addJob. cbn -[generateJobId setPositions].
    rewrite lookup_insert_eq. exact (newcomer_lookup s job (jobs s) HI).
  - intros jobId Hne. unfold statusOf, addJob in *. cbn -[generateJobId setPositions] in *.
    rewrite lookup_insert_ne by done.
    destruct (jobs s !! jobId) as [r|] eqn:Hr; [|done].
    destruct (inv_jobs _ _ HI jobId r Hr) as (j & Hj & _).
    match goal with |- context [setPositions ?h ?q 0 !! r] =>
      destruct (Forall2_lookup_l _ _ _ r j (setPositions_sameCore q h 0))
        as (j' & Hj' & Hc); [by apply lookup_app_l_Some|]; rewrite Hj' end.
    rewrite Hj. simpl. f_equal. symmetry.
    by destruct (sameCore_fields _ _ Hc) as (_ & ? & _).
Qed.

Lemma addJob_getJob_witness :
  exists job, getJob "job_7_x" (addJob (demoInput 2) 7 "x" demoSubmitted).2 = Some job /\
              position job = Some 2 /\ estimatedProcessingTime job = Some 4.
Proof.
  destruct (addJob_getJob demoSubmitted (demoInput 2) 7 "x" demoSubmitted_reachable)
    as [(job & Hg & _ & _ & _ & _ & _ & _ & _ & Hp & He) _].
  exists job. split; [exact Hg|]. split; [exact Hp | exact He].
Defined.

(** ** The status of a job *)

Lemma statusKept_refl h : statusKept h h.
Proof. intros r j Hj. by exists j. Qed.

Lemma statusKept_trans h1 h2 h3 : statusKept h1 h2 -> statusKept h2 h3 -> statusKept h1 h3.
Proof.
  intros H12 H23 r j Hj. destruct (H12 r j Hj) as (j2 & Hj2 & E2).
  destruct (H23 r j2 Hj2) as (j3 & Hj3 & E3). exists j3. split; [done | congruence].
Qed.

Lemma statusKept_sameCore h h' : Forall2 sameCore h h' -> statusKept h h'.
Proof.
  intros HF r j Hj. destruct (Forall2_lookup_l _ _ _ _ _ HF Hj) as (j' & Hj' & Hc).
  exists j'. split; [done|]. symmetry. by destruct (sameCore_fields _ _ Hc) as (_ & ? & _).
Qed.

Lemma statusKept_app h l : statusKept h (h ++ l).
Proof. intros r j Hj. exists j. split; [by apply lookup_app_l_Some | done]. Qed.

Lemma statusKept_moves h h' : statusKept h h' -> statusMoves h h'.
Proof. intros H r j Hj. destruct (H r j Hj) as (j' & ? & ?). exists j'. split; [done | by left]. Qed.

Lemma statusMoves_kept h1 h2 h3 : statusMoves h1 h2 -> statusKept h2 h3 -> statusMoves h1 h3.
Proof.
  intros H12 H23 r j Hj. destruct (H12 r j Hj) as (j2 & Hj2 & E2).
  destruct (H23 r j2 Hj2) as (j3 & Hj3 & E3). exists j3. split; [done|]. by rewrite E3.
Qed.

Lemma statusMoves_insert h r0 j0 j' :
  h !! r0 = Some j0 ->
  status j' = status j0 \/ transition (status j0) (status j') ->
  statusMoves h (<[r0 := j']> h).
Proof.
  intros Hj0 Hs r j Hj. destruct (decide (r = r0)) as [->|Hne].
  - exists j'. rewrite list_lookup_insert_eq by (by eapply lookup_lt_Some).
    assert (j = j0) as -> by congruence. done.
  - exists j. rewrite list_lookup_insert_ne by done. split; [done | by left].
Qed.

Lemma processJob_catch_status now rnd msg r s job :
  heap s !! r = Some job -> status job = processing ->
  statusMoves (heap s) (heap (processJob_catch now rnd msg r s)).
Proof.
  intros Hjob Hst. unfold processJob_catch. rewrite Hjob.
  destruct (_ || _); simpl; (eapply statusMoves_insert; [exact Hjob|]);
    right; rewrite Hst; done.
Qed.

Lemma processJob_settle_status now rnd o r s job :
  heap s !! r = Some job -> status job = processing ->
  statusMoves (heap s) (heap (processJob_settle now rnd o r s)).
Proof.
  intros Hjob Hst. unfold processJob_settle. rewrite Hjob.
  pose proof (fun msg => processJob_catch_status now rnd msg r s job Hjob Hst) as Hc.
  assert (Hd : forall hash,
            statusMoves (heap s)
              (heap (releaseSlot (id job)
                       (withHeap (<[r := markCompleted now hash job]> (heap s)) s)))).
  { intros hash. simpl. eapply statusMoves_insert; [exact Hjob|]. right. by rewrite Hst. }
  destruct (type job); [destruct o; auto|].
  destruct (Js.truthy_opt _); [destruct o; auto | auto].
Qed.

Lemma cancelJob_status jobId now s : statusMoves (heap s) (heap (cancelJob jobId now s).2).
Proof.
  unfold cancelJob. destruct (jobs s !! jobId) as [r|]; [|apply statusKept_moves, statusKept_refl].
  destruct (heap s !! r) as [job|] eqn:Hjob; [|apply statusKept_moves, statusKept_refl].
  case_decide as Hst; [|apply statusKept_moves, statusKept_refl].
  assert (Hm : statusMoves (heap s)
                 (<[r := markError now "Cancelled by user" failed job]> (heap s))).
  { eapply statusMoves_insert; [exact Hjob|]. right. by rewrite Hst. }
  destruct (list_find _ _) as [[index x]|]; simpl; [|done].
  eapply statusMoves_kept; [exact Hm | apply statusKept_sameCore, setPositions_sameCore].
Qed.

Lemma retryTimer_status k s : statusMoves (heap s) (heap (retryTimer k s)).
Proof.
  unfold retryTimer. destruct (timers s !! k) as [[r d]|]; [|apply statusKept_moves, statusKept_refl].
  destruct (heap s !! r) as [job|] eqn:Hjob; [|apply statusKept_moves, statusKept_refl].
  case_decide as Hst; [|apply statusKept_moves, statusKept_refl]. simpl.
  eapply statusMoves_kept; [|apply statusKept_sameCore, setPositions_sameCore].
  eapply statusMoves_insert; [exact Hjob|]. right. by rewrite Hst.
Qed.

Lemma processJob_start_status now rnd todo s r0 :
  InvT (r0 :: todo) s ->
  statusPicked [r0] (heap s) (heap (processJob_start now rnd s r0)).
Proof.
  intros HI.
  destruct (proj1 (inv_queue _ _ HI r0)) as (job & Hjob & Hst); [left|].
  assert (Hnp : id job ∉ processingJobs s).
  { eapply InvT_not_proc; [done..|]. by rewrite Hst. }
  rewrite (processJob_start_eq now rnd s r0 job Hjob Hnp).
  assert (Hlt : (r0 < length (heap s))%nat) by (by eapply lookup_lt_Some).
  intros r j Hj. destruct (decide (r ∈ [r0])) as [Hin|Hnin].
  - apply list_elem_of_singleton in Hin. subst r.
    assert (j = job) as -> by congruence.
    destruct (validateJobData _) as [msg|].
    + destruct (processJob_catch_cases now (rnd r0) msg r0
                  (resume (length (awaiting s)) (running now r0 job s))
                  (markStarted now job)) as (st & Hs & Hh & _).
      { simpl. by apply list_lookup_insert_eq. }
      eexists. split; [exact Hh|]. split; [done|]. simpl.
      destruct Hs as [-> | ->]; tauto.
    + eexists. split; [simpl; by apply list_lookup_insert_eq|].
      split; [done|]. simpl. tauto.
  - assert (Hne : r ≠ r0) by (intros ->; apply Hnin; left).
    assert (Hrun : heap (running now r0 job s) !! r = Some j)
      by (simpl; by rewrite list_lookup_insert_ne).
    destruct (validateJobData _) as [msg|]; [|by exists j].
    exists j. split; [|done].
    unfold processJob_catch. simpl.
    rewrite list_lookup_insert_eq by done.
    destruct (_ || _); simpl; rewrite list_lookup_insert_ne by done;
      by rewrite list_lookup_insert_ne.
Qed.

Lemma dispatch_status now rnd todo s :
  InvT todo s ->
  statusPicked todo (heap s) (heap (foldl (processJob_start now rnd) s todo)).
Proof.
  revert s. induction todo as [|r0 todo IH]; intros s HI; simpl.
  - intros r j Hj. exists j. split; [done|].
    by destruct (decide (r ∈ [])) as [H|]; [apply elem_of_nil in H|].
  - pose proof (inv_nodup _ _ HI) as Hnd. simpl in Hnd.
    apply NoDup_cons in Hnd as [Hr0 _].
    assert (Hr0' : r0 ∉ todo) by (intros Hin; apply Hr0, elem_of_app; by left).
    pose proof (processJob_start_status now rnd todo s r0 HI) as H1.
    pose proof (IH _ (processJob_start_InvT now rnd todo s r0 HI)) as H2.
    intros r j Hj. destruct (H1 r j Hj) as (j1 & Hj1 & E1).
    destruct (H2 r j1 Hj1) as (j2 & Hj2 & E2). exists j2. split; [done|].
    destruct (decide (r ∈ [r0])) as [Hin|Hnin].
    + apply list_elem_of_singleton in Hin. subst r.
      rewrite decide_False in E2 by done. rewrite decide_True by left.
      destruct E1 as [? ?]. split; [done|]. by rewrite E2.
    + assert (Hne : r ≠ r0) by (intros ->; apply Hnin; left).
      destruct (decide (r ∈ todo)) as [Hin|Hnin'].
      * rewrite decide_True by (by right). by rewrite <- E1.
      * rewrite decide_False; [congruence|]. rewrite not_elem_of_cons. by split.
Qed.

Lemma statusPicked_moves todo h h' : statusPicked todo h h' -> statusMoves h h'.
Proof.
  intros H r j Hj. destruct (H r j Hj) as (j' & Hj' & E). exists j'. split; [done|].
  case_decide; [|by left]. destruct E as [-> E]. right.
  destruct E as [-> | [-> | ->]]; done.
Qed.

Lemma statusPicked_kept todo h1 h2 h3 :
  statusPicked todo h1 h2 -> statusKept h2 h3 -> statusPicked todo h1 h3.
Proof.
  intros H12 H23 r j Hj. destruct (H12 r j Hj) as (j2 & Hj2 & E2).
  destruct (H23 r j2 Hj2) as (j3 & Hj3 & E3). exists j3. split; [done|]. by rewrite E3.
Qed.

Lemma processNextJobs_status now rnd s :
  Inv s -> statusPicked (jobsToProcess s) (heap s) (heap (processNextJobs now rnd s)).
Proof.
  intros [HI _]. rewrite processNextJobs_jobsToProcess. unfold jobsToProcess.
  destruct (Nat.leb_spec maxConcurrentJobs (size (processingJobs s))) as [Hfull | Hfree].
  - intros r j Hj. exists j. split; [done|].
    by destruct (decide (r ∈ [])) as [H|]; [apply elem_of_nil in H|].
  - simpl. eapply statusPicked_kept; [|apply statusKept_sameCore, setPositions_sameCore].
    apply (dispatch_status now rnd _
             (withPending (drop (maxConcurrentJobs - size (processingJobs s))
                             (sortBy (compareRefs (heap s)) (pendingQueue s))) s)).
    apply (InvT_requeue [] s); [done | |].
    + simpl. rewrite take_drop. apply sortBy_perm.
    + rewrite length_take. lia.
Qed.

Lemma step_status e s s' :
  Inv s -> step e s = Some s' -> statusMoves (heap s) (heap s').
Proof.
  intros HInv Hstep. destruct e; simpl in Hstep.
  - case_decide; [|done]. simplify_eq. apply statusKept_moves. simpl.
    eapply statusKept_trans; [apply statusKept_app|].
    apply statusKept_sameCore, setPositions_sameCore.
  - simplify_eq. eapply statusPicked_moves. by apply processNextJobs_status.
  - destruct (awaiting s !! k) as [r|] eqn:Hk; [|done]. simplify_eq.
    destruct HInv as [HI _].
    assert (r ∈ awaiting s) as Hin by (by eapply list_elem_of_lookup_2).
    apply (inv_await _ _ HI) in Hin as (job & Hjob & Hst).
    by apply (processJob_settle_status now rnd o r (resume k s) job).
  - destruct (timers s !! k); [|done]. simplify_eq. apply retryTimer_status.
  - simplify_eq. apply cancelJob_status.
  - assert (Hr : statusMoves (heap s) (heap (retryFailedJob jobId now rnd s).2)).
    { apply statusKept_moves. unfold retryFailedJob.
      destruct (OMap.get _ _); [|apply statusKept_refl]. simpl.
      eapply statusKept_trans; [apply statusKept_app|].
      apply statusKept_sameCore, setPositions_sameCore. }
    destruct (OMap.get jobId (deadLetterQueue s)); [case_decide; [|done]|]; by simplify_eq.
  - simplify_eq. apply statusKept_moves, statusKept_refl.
  - simplify_eq. apply statusKept_moves, statusKept_refl.
Qed.

(** X4: the status of a job moves along the edges of the state machine only:
    pending to processing (or, when validation fails at dispatch, on to
    failed or retrying), pending to failed by cancellation, processing to
    completed, failed or retrying, and retrying back to pending. Dispatch
    touches exactly the jobs it takes off the queue. Completed and failed
    are final: whatever events follow, the status stays. *)
Theorem status_state_machine (s : TransactionQueue) :
  reachable s ->
  (forall e s' r j, step e s = Some s' -> heap s !! r = Some j ->
     exists j', heap s' !! r = Some j' /\
       (status j' = status j \/ transition (status j) (status j'))) /\
  (forall now rnd r j, heap s !! r = Some j ->
     exists j', heap (processNextJobs now rnd s) !! r = Some j' /\
       if decide (r ∈ jobsToProcess s)
       then status j = pending /\
            (status j' = processing \/ status j' = failed \/ status j' = retrying)
       else status j' = status j) /\
  (forall es s' r j,
     run es s = Some s' -> heap s !! r = Some j ->
     status j = completed \/ status j = failed ->
     exists j', heap s' !! r = Some j' /\ status j' = status j).
Proof.
  intros Hreach. split; [|split].
  - intros e s' r j He Hj. by apply (step_status e s s' (reachable_Inv s Hreach) He).
  - intros now rnd r j Hj.
    by apply (processNextJobs_status now rnd s (reachable_Inv s Hreach)).
  - intros es. revert s Hreach. induction es as [|e es IH]; intros s Hreach s' r j Hrun Hj Hfin.
    + simpl in Hrun. simplify_eq. by exists j.
    + simpl in Hrun. destruct (step e s) as [s1|] eqn:He; [|done].
      destruct (step_status e s s1 (reachable_Inv s Hreach) He r j Hj) as (j1 & Hj1 & E1).
      assert (Hsame : status j1 = status j).
      { destruct E1 as [E1 | E1]; [done|]. destruct Hfin as [Hf | Hf]; rewrite Hf in E1; done. }
      destruct (IH s1 (reach_step s e s1 Hreach He) s' r j1 Hrun Hj1) as (j' & Hj' & E').
      { by rewrite Hsame. }
      exists j'. split; [done | congruence].
Qed.

Lemma status_state_machine_witness :
  exists j', heap (processNextJobs 8 noJitter (cleanupOldJobs 7 demoDead)) !! 0%nat = Some j' /\
             status j' = failed.
Proof.
  destruct (status_state_machine demoDead demoDead_reachable) as (_ & _ & Hfinal).
  edestruct (Hfinal [EvCleanup 7; EvTick 8 noJitter]
               (processNextJobs 8 noJitter (cleanupOldJobs 7 demoDead)) 0%nat)
    as (j' & Hj' & Hs).
  - reflexivity.
  - reflexivity.
  - right. reflexivity.
  - exists j'. split; [exact Hj' | exact Hs].
Defined.

(** ** The order of dispatch *)

Lemma compareRefs_le h a b ja jb :
  h !! a = Some ja -> h !! b = Some jb ->
  compareRefs h a b <= 0 <->
  priority ja < priority jb \/ (priority ja = priority jb /\ createdAt ja <= createdAt jb).
Proof.
  intros Ha Hb. unfold compareRefs. rewrite Ha, Hb. unfold compareJobs.
  case_decide; lia.
Qed.

(** X5: a dispatch pass splits the pending queue into the jobs it takes and
    the jobs it leaves, losing and duplicating none; the jobs taken are in
    (priority, createdAt) order, and every job taken comes before every
    job left: a lower priority value first, and within one priority the
    earlier creation first. *)
Theorem dispatch_priority (s : TransactionQueue) (now : Z) (rnd : nat -> Q) :
  reachable s ->
  jobsToProcess s ++ pendingQueue (processNextJobs now rnd s) ≡ₚ pendingQueue s /\
  StronglySorted (λ a b, compareRefs (heap s) a b <= 0) (jobsToProcess s) /\
  (forall a b,
     a ∈ jobsToProcess s -> b ∈ pendingQueue (processNextJobs now rnd s) ->
     exists ja jb, heap s !! a = Some ja /\ heap s !! b = Some jb /\
       (priority ja < priority jb \/
        (priority ja = priority jb /\ createdAt ja <= createdAt jb))).
Proof.
  intros Hreach. destruct (reachable_Inv s Hreach) as [HI _].
  rewrite processNextJobs_pending. unfold jobsToProcess.
  destruct (Nat.leb_spec maxConcurrentJobs (size (processingJobs s))) as [Hfull | Hfree].
  { split; [done|]. split; [constructor|]. intros a b Ha. by apply elem_of_nil in Ha. }
  set (sorted := sortBy (compareRefs (heap s)) (pendingQueue s)).
  set (n := (maxConcurrentJobs - size (processingJobs s))%nat).
  assert (Hperm : sorted ≡ₚ pendingQueue s) by apply sortBy_perm.
  assert (Hvalid : Forall (λ a, is_Some (heap s !! a)) (pendingQueue s)).
  { rewrite Forall_forall. intros a Ha. by apply (InvT_valid [] s a HI). }
  assert (Hsorted : StronglySorted (λ a b, compareRefs (heap s) a b <= 0) sorted)
    by (by apply sortBy_sorted).
  rewrite <- (take_drop n sorted) in Hsorted.
  split; [by rewrite take_drop|]. split; [by eapply StronglySorted_app_1_l|].
  intros a b Ha Hb.
  assert (Hin : forall x, x ∈ take n sorted ++ drop n sorted -> is_Some (heap s !! x)).
  { intros x Hx. rewrite take_drop, Hperm in Hx. rewrite Forall_forall in Hvalid. auto. }
  destruct (Hin a) as [ja Hja]; [apply elem_of_app; by left|].
  destruct (Hin b) as [jb Hjb]; [apply elem_of_app; by right|].
  exists ja, jb. split; [done|]. split; [done|].
  apply (compareRefs_le (heap s) a b ja jb Hja Hjb).
  exact (StronglySorted_app_1_elem_of (λ a b, compareRefs (heap s) a b <= 0)
           (take n sorted) (drop n sorted) a b Hsorted Ha Hb).
Qed.

Lemma dispatch_priority_witness :
  jobsToProcess demoFive ++ pendingQueue (processNextJobs 9 noJitter demoFive)
    ≡ₚ pendingQueue demoFive /\
  exists ja jb, heap demoFive !! 0%nat = Some ja /\ heap demoFive !! 2%nat = Some jb /\
    (priority ja < priority jb \/
     (priority ja = priority jb /\ createdAt ja <= createdAt jb)).
Proof.
  destruct (dispatch_priority demoFive 9 noJitter demoFive_reachable) as (Hp & _ & Ho).
  split; [exact Hp|]. apply Ho.
  - apply (bool_decide_unpack _). vm_compute. exact I.
  - apply (bool_decide_unpack _). vm_compute. exact I.
Defined.

(** ** Retention *)

Lemma cleanup_lookup now s i r :
  jobs (cleanupOldJobs now s) !! i = Some r <->
  jobs s !! i = Some r /\ ~ expired (heap s) (now - 24 * 60 * 60 * 1000) (i, r).
Proof. unfold cleanupOldJobs. simpl. by rewrite map_lookup_filter_Some. Qed.

Lemma expired_mono h c c' kv : c <= c' -> expired h c kv -> expired h c' kv.
Proof.
  unfold expired. destruct (h !! kv.2); [|done]. intros Hc [Hs Hu]. split; [done | lia].
Qed.

(** X6: the retention sweep removes from the main store exactly the completed
    and failed jobs last updated more than 24 hours before [now], and
    nothing else changes: a job that is pending, processing or retrying
    is never swept, whatever its age. Sweeping twice at the same time is
    sweeping once, and a sweep followed by a later one is the later one. *)
Theorem cleanupOldJobs_sweep (s : TransactionQueue) (now : Z) :
  (forall i r, jobs (cleanupOldJobs now s) !! i = Some r <->
     jobs s !! i = Some r /\
     ~ (exists job, heap s !! r = Some job /\
          (status job = completed \/ status job = failed) /\
          updatedAt job < now - 86400000)) /\
  (forall i st, statusOf s i = Some st -> st ≠ completed -> st ≠ failed ->
     statusOf (cleanupOldJobs now s) i = Some st) /\
  (heap (cleanupOldJobs now s) = heap s /\
   pendingQueue (cleanupOldJobs now s) = pendingQueue s /\
   processingJobs (cleanupOldJobs now s) = processingJobs s /\
   deadLetterQueue (cleanupOldJobs now s) = deadLetterQueue s) /\
  (forall now', now <= now' ->
     cleanupOldJobs now' (cleanupOldJobs now s) = cleanupOldJobs now' s).
Proof.
  assert (Hexp : forall c i r,
            expired (heap s) c (i, r) <->
            exists job, heap s !! r = Some job /\
              (status job = completed \/ status job = failed) /\ updatedAt job < c).
  { intros c i r. unfold expired. simpl. destruct (heap s !! r) as [job|].
    - split; [intros [? ?]; by exists job | intros (j & [= <-] & ? & ?); by split].
    - split; [done | intros (j & ? & _); done]. }
  split.
  { intros i r. rewrite cleanup_lookup, Hexp.
    by replace (now - 24 * 60 * 60 * 1000) with (now - 86400000) by lia. }
  split.
  { intros i st Hst Hc Hf. unfold statusOf in *.
    destruct (jobs s !! i) as [r|] eqn:Hr; [|done].
    assert (jobs (cleanupOldJobs now s) !! i = Some r) as ->; [|done].
    apply cleanup_lookup. split; [done|]. rewrite Hexp.
    intros (job & Hjob & Hterm & _). rewrite Hjob in Hst. simpl in Hst.
    destruct Hterm; congruence. }
  split; [done|].
  intros now' Hle. unfold cleanupOldJobs. simpl. f_equal.
  apply map_eq. intros i. apply option_eq. intros r.
  rewrite !map_lookup_filter_Some. split.
  - intros [[? _] ?]. by split.
  - intros [? Hn]. split; [|done]. split; [done|].
    intros He. apply Hn. eapply expired_mono; [|exact He]. lia.
Qed.

Lemma cleanupOldJobs_sweep_witness :
  statusOf (cleanupOldJobs 900000000 demoSubmitted) "job_1_a" = Some pending /\
  statusOf (cleanupOldJobs 900000000 demoDead) "job_1_a" = None /\
  cleanupOldJobs 900000000 (cleanupOldJobs 5 demoDead) = cleanupOldJobs 900000000 demoDead.
Proof.
  destruct (cleanupOldJobs_sweep demoSubmitted 900000000) as (_ & Hlive & _).
  destruct (cleanupOldJobs_sweep demoDead 900000000) as (Hchar & _).
  destruct (cleanupOldJobs_sweep demoDead 5) as (_ & _ & _ & Hcomp).
  split; [apply Hlive; [reflexivity | discriminate | discriminate]|].
  split; [|apply Hcomp; lia].
  unfold statusOf.
  destruct (jobs (cleanupOldJobs 900000000 demoDead) !! "job_1_a") as [r|] eqn:Hr; [|done].
  apply Hchar in Hr as [Hr Hn]. exfalso. apply Hn.
  assert (r = 0%nat) as -> by (vm_compute in Hr; congruence).
  eexists. split; [reflexivity|]. split; [right; reflexivity | reflexivity].
Defined.

(** ** Clearing the jobs of a user *)

Lemma filter_ext_in {A} (P Q : A -> Prop) `{!forall x, Decision (P x), !forall x, Decision (Q x)}
    (l : list A) :
  (forall x, x ∈ l -> (P x <-> Q x)) -> filter P l = filter Q l.
Proof.
  induction l as [|x l IH]; intros Hext; [done|].
  rewrite !filter_cons.
  assert (Hx : P x <-> Q x) by (apply Hext; left).
  rewrite IH by (intros y Hy; apply Hext; by right).
  destruct (decide (P x)), (decide (Q x)); tauto.
Qed.

Lemma omap_foldr_delete_filter {V} (m ds : list (string * V)) :
  NoDup (OMap.keys m) ->
  foldr (λ kv acc, OMap.delete kv.1 acc) m ds = filter (λ kv, kv.1 ∉ ds.*1) m.
Proof.
  intros Hnd. induction ds as [|d ds IH]; simpl.
  - symmetry. apply filter_all. rewrite Forall_forall. intros kv _. apply not_elem_of_nil.
  - rewrite IH. rewrite omap_delete_filter.
    + rewrite list_filter_filter. apply list_filter_iff. intros kv.
      rewrite not_elem_of_cons. tauto.
    + unfold OMap.keys. eapply sublist_NoDup; [exact Hnd|].
      apply (fmap_sublist fst), sublist_filter.
Qed.

Lemma omap_clear_filter {V} (P : string * V -> Prop) `{!forall x, Decision (P x)}
    (m : list (string * V)) :
  NoDup (OMap.keys m) ->
  foldr (λ kv acc, OMap.delete kv.1 acc) m (filter P m) = filter (λ kv, ~ P kv) m.
Proof.
  intros Hnd. rewrite omap_foldr_delete_filter by done.
  apply filter_ext_in. intros [k v] Hin. simpl. split.
  - intros Hn HP. apply Hn. apply list_elem_of_fmap. exists (k, v).
    split; [done|]. by apply list_elem_of_filter.
  - intros HnP Hk. apply list_elem_of_fmap in Hk as ([k' v'] & Hk & Hin').
    apply list_elem_of_filter in Hin' as [HP Hin']. simpl in Hk. subst k'.
    assert (v' = v); [|by subst].
    apply (omap_get_Some_elem m k) in Hin; [|done].
    apply (omap_get_Some_elem m k) in Hin'; [|done]. congruence.
Qed.

Lemma size_foldr_delete (m : gmap string nat) (ks : list string) :
  NoDup ks -> (forall k, k ∈ ks -> is_Some (m !! k)) ->
  (size (foldr delete m ks) + length ks = size m)%nat.
Proof.
  induction ks as [|k ks IH]; intros Hnd Hin; simpl; [lia|].
  apply NoDup_cons in Hnd as [Hk Hnd].
  assert (Hl : foldr delete m ks !! k = m !! k).
  { rewrite lookup_foldr_delete. apply decide_False. exact Hk. }
  assert (Hk0 : is_Some (foldr delete m ks !! k)) by (rewrite Hl; apply Hin; left).
  specialize (IH Hnd (fun k' H' => Hin k' (list_elem_of_further _ _ _ H'))).
  rewrite (map_size_delete_Some k _ Hk0).
  assert (size (foldr delete m ks) ≠ 0%nat); [|lia].
  intros H0. apply map_size_empty_inv in H0.
  rewrite H0, lookup_empty in Hk0. by destruct Hk0.
Qed.

Lemma clearedIds_keys_list addr s (L : list (string * nat)) :
  InvT [] s ->
  (forall kv, kv ∈ L -> jobs s !! kv.1 = Some kv.2) ->
  omap (λ kv : string * nat,
          match heap s !! kv.2 with
          | Some job =>
              if sameAddress addr job
                 && (bool_decide (status job = completed) || bool_decide (status job = failed))
              then Some (id job) else None
          | None => None
          end) L
  = (filter (clearable addr (heap s)) L).*1.
Proof.
  intros HI. induction L as [|[k x] L IH]; intros Hall; [done|].
  assert (Hkx : jobs s !! k = Some x) by (apply (Hall (k, x)); left).
  destruct (inv_jobs _ _ HI k x Hkx) as (job & Hjob & Hid).
  specialize (IH (fun kv H => Hall kv (list_elem_of_further _ _ _ H))).
  rewrite filter_cons. cbn [omap list_omap]. rewrite IH. clear IH.
  cbn [fst snd]. rewrite Hjob.
  assert (Hcl : clearable addr (heap s) (k, x) <->
            sameAddress addr job = true /\ (status job = completed \/ status job = failed))
    by (unfold clearable; cbn [fst snd]; by rewrite Hjob).
  destruct (decide (clearable addr (heap s) (k, x))) as [Hc|Hc].
  - apply Hcl in Hc as [-> Hc]. cbn [andb].
    replace (bool_decide (status job = completed) || bool_decide (status job = failed))
      with true.
    + rewrite fmap_cons. cbn [fst]. by rewrite Hid.
    + symmetry. apply orb_true_iff.
      destruct Hc as [Hc|Hc]; [left | right]; by apply bool_decide_eq_true_2.
  - destruct (sameAddress addr job) eqn:Hsa; cbn [andb]; [|done].
    rewrite !bool_decide_eq_false_2; [done | |]; intros ?; apply Hc, Hcl; tauto.
Qed.

Lemma clearedIds_keys addr s :
  InvT [] s ->
  clearedIds addr s = (filter (clearable addr (heap s)) (map_to_list (jobs s))).*1.
Proof.
  intros HI. apply clearedIds_keys_list; [done|].
  intros [k x] H. by apply elem_of_map_to_list.
Qed.

(** X7: [clearUserJobs] removes from the main store exactly the completed and
    failed jobs whose address is the caller's, compared without case, and
    from the dead-letter queue exactly the caller's entries; the caller's
    pending, processing and retrying jobs, every other user's jobs, the
    pending queue and the in-flight set are left alone. The number it
    returns is the number of entries removed from the two stores, and an
    address that differs only in case clears the same. *)
Theorem clearUserJobs_exact (s : TransactionQueue) (addr : string) :
  reachable s ->
  let res := clearUserJobs addr s in
  (forall i r, jobs res.2 !! i = Some r <->
     jobs s !! i = Some r /\
     ~ (exists job, heap s !! r = Some job /\ sameAddress addr job = true /\
          (status job = completed \/ status job = failed))) /\
  deadLetterQueue res.2
  = filter (λ kv, sameAddress addr kv.2 ≠ true) (deadLetterQueue s) /\
  (res.1 + size (jobs res.2) + length (deadLetterQueue res.2)
   = size (jobs s) + length (deadLetterQueue s))%nat /\
  (heap res.2 = heap s /\ pendingQueue res.2 = pendingQueue s /\
   processingJobs res.2 = processingJobs s) /\
  (forall addr', Js.toLowerCase addr' = Js.toLowerCase addr ->
     clearUserJobs addr' s = clearUserJobs addr s).
Proof.
  intros Hreach res. subst res. destruct (reachable_Inv s Hreach) as [HI _].
  destruct (reachable_DlqOk s Hreach) as [Hnd _].
  pose proof (clearedIds_keys addr s HI) as Hids.
  assert (Hmem : forall i, i ∈ clearedIds addr s <->
            exists r, jobs s !! i = Some r /\ clearable addr (heap s) (i, r)).
  { intros i. rewrite Hids, list_elem_of_fmap. split.
    - intros ([k x] & -> & Hin). apply list_elem_of_filter in Hin as [Hc Hin].
      apply elem_of_map_to_list in Hin. by exists x.
    - intros (r & Hr & Hc). exists (i, r). split; [done|].
      apply list_elem_of_filter. split; [done | by apply elem_of_map_to_list]. }
  assert (Hcl : forall i r, clearable addr (heap s) (i, r) <->
            exists job, heap s !! r = Some job /\ sameAddress addr job = true /\
              (status job = completed \/ status job = failed)).
  { intros i r. unfold clearable. simpl. destruct (heap s !! r) as [job|].
    - split; [intros [? ?]; by exists job | intros (j & [= <-] & ? & ?); by split].
    - split; [done | intros (j & ? & _); done]. }
  unfold clearUserJobs. cbn [fst snd jobs heap pendingQueue processingJobs deadLetterQueue].
  split.
  { intros i r. rewrite lookup_foldr_delete, <- (Hcl i r). case_decide as Hin.
    - split; [done|]. intros [Hr Hn]. apply Hmem in Hin as (r' & Hr' & Hc).
      assert (r' = r) as -> by congruence. done.
    - split; [|tauto]. intros Hr. split; [done|]. intros Hc. apply Hin, Hmem. by exists r. }
  split.
  { rewrite (omap_clear_filter (λ kv, sameAddress addr kv.2 = true)) by done. done. }
  split.
  { rewrite (omap_clear_filter (λ kv, sameAddress addr kv.2 = true)) by done.
    pose proof (filter_app_complement (λ kv : string * QueueJob, sameAddress addr kv.2 = true)
                  (deadLetterQueue s)) as Hp.
    apply Permutation_length in Hp. rewrite length_app in Hp.
    pose proof (size_foldr_delete (jobs s) (clearedIds addr s)) as Hsz.
    assert ((size (foldr delete (jobs s) (clearedIds addr s))
             + length (clearedIds addr s) = size (jobs s))%nat) as Hsz'.
    { apply Hsz.
      - rewrite Hids. eapply sublist_NoDup; [apply (NoDup_fst_map_to_list (jobs s))|].
        apply (fmap_sublist fst), sublist_filter.
      - intros k Hk. apply Hmem in Hk as (r & Hr & _). by exists r. }
    lia. }
  split; [done|].
  intros addr' Heq. unfold clearedIds, sameAddress. by rewrite Heq.
Qed.

Lemma clearUserJobs_exact_witness :
  (clearUserJobs "0X1234567890ABCDEFABCDEF1234567890ABCDEF12" demoDead).1 = 2%nat /\
  deadLetterQueue (clearUserJobs demoAddress demoDead).2 = [] /\
  jobs (clearUserJobs demoAddress demoDead).2 !! "job_1_a" = None.
Proof.
  destruct (clearUserJobs_exact demoDead demoAddress demoDead_reachable)
    as (Hjobs & Hdlq & _ & _ & Hcase).
  split; [rewrite (Hcase "0X1234567890ABCDEFABCDEF1234567890ABCDEF12" eq_refl); reflexivity|].
  split; [rewrite Hdlq; reflexivity|].
  destruct (jobs (clearUserJobs demoAddress demoDead).2 !! "job_1_a") as [r|] eqn:Hr; [|done].
  apply Hjobs in Hr as [Hr Hn]. exfalso. apply Hn.
  assert (r = 0%nat) as -> by (vm_compute in Hr; congruence).
  eexists. split; [reflexivity|]. split; [reflexivity | right; reflexivity].
Defined.

(** ** Statistics *)

Lemma withStatus_entries (h : list QueueJob) (st : JobStatus) (L : list (string * nat)) :
  length (withStatus st (omap (λ kv : string * nat, h !! kv.2) L))
  = length (filter (entryStatus h st) L).
Proof.
  unfold withStatus. induction L as [|[k r] L IH]; [done|].
  cbn [omap list_omap]. rewrite filter_cons.
  assert (He : entryStatus h st (k, r) <-> exists j, h !! r = Some j /\ status j = st).
  { unfold entryStatus. cbn [snd]. destruct (h !! r) as [j|]; simpl.
    - split; [intros [= <-]; by exists j | intros (j' & [= <-] & <-); done].
    - split; [done | intros (j' & ? & _); done]. }
  cbn [fst snd]. destruct (h !! r) as [j|] eqn:Hj; simpl.
  - rewrite filter_cons. destruct (decide (status j = st)) as [Hs|Hs].
    + rewrite decide_True by (apply He; by exists j). simpl. by rewrite IH.
    + rewrite decide_False; [done|]. intros (j' & [= <-] & Hs')%He. done.
  - rewrite decide_False; [done|]. intros (j' & ? & _)%He. done.
Qed.

Lemma allJobs_length s : InvT [] s -> length (allJobs s) = size (jobs s).
Proof.
  intros HI. unfold allJobs. rewrite <- (length_map_to_list (jobs s)).
  assert (Hall : forall kv, kv ∈ map_to_list (jobs s) -> is_Some (heap s !! kv.2)).
  { intros [k r] Hin. apply elem_of_map_to_list in Hin.
    destruct (inv_jobs _ _ HI k r Hin) as (j & Hj & _). by exists j. }
  induction (map_to_list (jobs s)) as [|kv L IH]; [done|].
  cbn [omap list_omap]. destruct (Hall kv) as [j Hj]; [left|]. rewrite Hj. simpl.
  f_equal. apply IH. intros kv' Hin. apply Hall. by right.
Qed.

Lemma entries_snd_NoDup s (L : list (string * nat)) :
  InvT [] s -> NoDup L -> (forall kv, kv ∈ L -> jobs s !! kv.1 = Some kv.2) -> NoDup L.*2.
Proof.
  intros HI Hnd Hall. apply NoDup_fmap_2_strong; [|done].
  intros [k1 r1] [k2 r2] H1 H2 Heq. simpl in Heq. subst r2.
  destruct (inv_jobs _ _ HI k1 r1 (Hall _ H1)) as (j1 & Hj1 & Hi1).
  destruct (inv_jobs _ _ HI k2 r1 (Hall _ H2)) as (j2 & Hj2 & Hi2).
  assert (j2 = j1) as -> by congruence. congruence.
Qed.

Lemma pending_entries s :
  InvT [] s ->
  length (filter (entryStatus (heap s) pending) (map_to_list (jobs s)))
  = length (pendingQueue s).
Proof.
  intros HI. rewrite <- (length_fmap snd).
  apply Permutation_length, NoDup_Permutation.
  - apply (entries_snd_NoDup s); [done | |].
    + apply NoDup_filter, NoDup_map_to_list.
    + intros [k r] Hin. apply list_elem_of_filter in Hin as [_ Hin].
      by apply elem_of_map_to_list.
  - apply (inv_nodup _ _ HI).
  - intros r. pose proof (inv_queue _ _ HI r) as Hq. simpl in Hq.
    rewrite Hq, list_elem_of_fmap. split.
    + intros ([k r'] & -> & Hin). apply list_elem_of_filter in Hin as [Hs _].
      unfold entryStatus in Hs. simpl in *.
      destruct (heap s !! r') as [j|]; [|done]. exists j. split; [done|].
      simpl in Hs. congruence.
    + intros (j & Hj & Hs). exists (id j, r). split; [done|].
      apply list_elem_of_filter. split.
      * unfold entryStatus. simpl. by rewrite Hj, <- Hs.
      * apply elem_of_map_to_list. apply (inv_live _ _ HI r j Hj); by rewrite Hs.
Qed.

Lemma processing_entries s :
  InvT [] s ->
  length (filter (entryStatus (heap s) processing) (map_to_list (jobs s)))
  = size (processingJobs s).
Proof.
  intros HI. rewrite <- (length_fmap fst).
  apply Permutation_length, NoDup_Permutation.
  - eapply sublist_NoDup; [apply (NoDup_fst_map_to_list (jobs s))|].
    apply (fmap_sublist fst), sublist_filter.
  - apply NoDup_elements.
  - intros i. rewrite elem_of_elements, (inv_proc _ _ HI i), list_elem_of_fmap. split.
    + intros ([k r] & -> & Hin). apply list_elem_of_filter in Hin as [Hs Hin].
      apply elem_of_map_to_list in Hin.
      destruct (inv_jobs _ _ HI k r Hin) as (j & Hj & Hid).
      unfold entryStatus in Hs. simpl in Hs. rewrite Hj in Hs. simpl in Hs.
      exists r, j. split; [done|]. split; [done | congruence].
    + intros (r & j & Hj & Hid & Hs). exists (i, r). split; [done|].
      apply list_elem_of_filter. split.
      * unfold entryStatus. simpl. by rewrite Hj, <- Hs.
      * apply elem_of_map_to_list. rewrite <- Hid.
        apply (inv_live _ _ HI r j Hj); by rewrite Hs.
Qed.

Lemma withStatus_partition (l : list QueueJob) :
  (length l = length (withStatus pending l) + length (withStatus processing l)
              + length (withStatus completed l) + length (withStatus failed l)
              + length (withStatus retrying l))%nat.
Proof.
  unfold withStatus. induction l as [|j l IH]; [done|].
  rewrite !filter_cons. destruct (status j) eqn:Hs; simpl; lia.
Qed.

(** X8: the statistics of a queue: the total is the size of the main store;
    the jobs counted as pending are those of the pending queue, so the
    two figures agree; the jobs counted as processing are those of the
    in-flight set, at most three; and what the four counts leave of the
    total are the jobs waiting for a retry. *)
Theorem getStats_consistent (s : TransactionQueue) :
  reachable s ->
  let st := getStats s in
  Stats.totalJobs st = size (jobs s) /\
  Stats.pendingJobs st = Stats.queueLength st /\
  Stats.processingJobs st = size (processingJobs s) /\
  (Stats.processingJobs st <= 3)%nat /\
  (Stats.totalJobs st
   = Stats.pendingJobs st + Stats.processingJobs st + Stats.completedJobs st
     + Stats.failedJobs st + length (withStatus retrying (allJobs s)))%nat.
Proof.
  intros Hreach st. subst st. destruct (reachable_Inv s Hreach) as [HI _].
  unfold getStats. cbn [Stats.totalJobs Stats.pendingJobs Stats.processingJobs
                        Stats.completedJobs Stats.failedJobs Stats.queueLength].
  split; [by apply allJobs_length|].
  split; [unfold allJobs; rewrite withStatus_entries; by apply pending_entries|].
  assert (Hp : length (withStatus processing (allJobs s)) = size (processingJobs s))
    by (unfold allJobs; rewrite withStatus_entries; by apply processing_entries).
  split; [done|]. split.
  - rewrite Hp. pose proof (inv_size _ _ HI) as Hsz. simpl in Hsz.
    unfold maxConcurrentJobs in Hsz. lia.
  - apply withStatus_partition.
Qed.

Lemma getStats_consistent_witness :
  Stats.pendingJobs (getStats demoFive) = 5%nat /\
  Stats.queueLength (getStats demoFive) = 5%nat /\
  Stats.processingJobs (getStats demoRunning) = 1%nat.
Proof.
  destruct (getStats_consistent demoFive demoFive_reachable) as (_ & Hq & _).
  destruct (getStats_consistent demoRunning demoRunning_reachable) as (_ & _ & Hp & _).
  split; [rewrite Hq; reflexivity|]. split; [reflexivity|]. rewrite Hp. reflexivity.
Defined.

(** ** Validation failures and error categories *)

Lemma validateJobData_cases (job : QueueJob) :
  validateJobData job =
  if Js.is_address (address (data job)) then
    match type job, tokenAddress (data job) with
    | ETH_CLAIM, _ => None
    | TOKEN_CLAIM, Some t =>
        if Js.is_address t then None else Some "Invalid token address"
    | TOKEN_CLAIM, None => Some "Invalid token address"
    end
  else Some "Invalid recipient address".
Proof.
  unfold validateJobData.
  destruct (Js.is_address (address (data job))) eqn:Ha.
  - assert (Js.truthy (address (data job)) = true) as ->
      by (by destruct (address (data job))).
    simpl. destruct (type job); [done|].
    destruct (tokenAddress (data job)) as [t|]; [|done].
    destruct (Js.is_address t) eqn:Ht; [|by rewrite orb_true_r].
    by assert (Js.truthy t = true) as -> by (by destruct t).
  - by rewrite orb_true_r.
Qed.

Lemma processJob_start_invalid now rnd s r job msg :
  heap s !! r = Some job -> id job ∉ processingJobs s ->
  validateJobData job = Some msg ->
  processJob_start now rnd s r
  = processJob_catch now (rnd r) msg r
      (mkQueue (<[r := markStarted now job]> (heap s)) (jobs s) (pendingQueue s)
         ({[id job]} ∪ processingJobs s) (deadLetterQueue s) (timers s) (awaiting s)).
Proof.
  intros Hjob Hnot Hval. unfold processJob_start. rewrite Hjob, decide_False by done.
  cbn zeta. replace (validateJobData (markStarted now job)) with (Some msg); done.
Qed.

(** X9: a job with a malformed payload, when dispatched: the attempt is
    counted and the executor is not called. A malformed recipient gives an
    error that is classified retryable, so the job is retried with
    backoff while attempts remain and dead-lettered only on its last
    attempt; a malformed or missing token address of a token claim gives a
    non-retryable error, so the job is dead-lettered at its first
    dispatch. *)
Theorem validation_failure_outcome (now : Z) (rnd : nat -> Q) (s : TransactionQueue)
    (r : nat) (job : QueueJob) :
  heap s !! r = Some job -> id job ∉ processingJobs s ->
  (length (deadLetterQueue s) <= deadLetterCapacity)%nat ->
  let s1 := processJob_start now rnd s r in
  let dead msg j' :=
    status j' = failed /\ error j' = Some msg /\
    (exists d, OMap.get (id job) (deadLetterQueue s1) = Some d /\
               status d = failed /\ error d = Some msg) /\
    timers s1 = timers s in
  awaiting s1 = match validateJobData job with
                | Some _ => awaiting s
                | None => awaiting s ++ [r]
                end /\
  (validateJobData job = Some "Invalid recipient address" <->
   Js.is_address (address (data job)) = false) /\
  (validateJobData job = Some "Invalid recipient address" ->
   exists j', heap s1 !! r = Some j' /\ attempts j' = attempts job + 1 /\
     if decide (attempts job + 1 < maxAttempts job)
     then status j' = retrying /\
          error j' = Some "Unknown error: Invalid recipient address" /\
          timers s1 = timers s ++ [(r, backoffDelay (attempts job + 1) (rnd r))] /\
          deadLetterQueue s1 = deadLetterQueue s
     else dead "Unknown error: Invalid recipient address" j') /\
  (validateJobData job = Some "Invalid token address" ->
   exists j', heap s1 !! r = Some j' /\ attempts j' = attempts job + 1 /\
     dead "Unknown error: Invalid token address" j').
Proof.
  intros Hjob Hnot Hlen s1 dead. subst s1 dead. cbn beta.
  assert (Hlt : (r < length (heap s))%nat) by (by eapply lookup_lt_Some).
  split.
  { destruct (validateJobData job) as [msg|] eqn:Hval.
    - rewrite (processJob_start_invalid now rnd s r job msg) by done.
      unfold processJob_catch. cbn [heap]. rewrite list_lookup_insert_eq by done.
      by destruct (_ || _).
    - unfold processJob_start. rewrite Hjob, decide_False by done. cbn zeta.
      by replace (validateJobData (markStarted now job)) with (@None string). }
  split.
  { rewrite validateJobData_cases.
    destruct (Js.is_address (address (data job))); [|done].
    split; [|done]. destruct (type job); [done|].
    destruct (tokenAddress (data job)) as [t|]; [|done]. by destruct (Js.is_address t). }
  split.
  - intros Hval.
    rewrite (processJob_start_invalid now rnd s r job _ Hjob Hnot Hval).
    unfold processJob_catch. cbn [heap]. rewrite list_lookup_insert_eq by done.
    assert (isRetryableError "Invalid recipient address" = true) as -> by reflexivity.
    assert (categorizeError "Invalid recipient address"
            = "Unknown error: Invalid recipient address") as -> by reflexivity.
    cbn [negb orb]. cbn [markStarted maxAttempts attempts].
    destruct (decide (attempts job + 1 < maxAttempts job)) as [Hlt'|Hge].
    + replace (maxAttempts job <=? attempts job + 1)%Z with false
        by (symmetry; by apply Z.leb_gt).
      eexists. split; [cbn; by apply list_lookup_insert_eq; rewrite length_insert|].
      done.
    + replace (maxAttempts job <=? attempts job + 1)%Z with true
        by (symmetry; apply Z.leb_le; lia).
      eexists. split; [cbn; by apply list_lookup_insert_eq; rewrite length_insert|].
      split; [done|]. split; [done|]. split; [done|]. split; [|done].
      eexists. cbn [deadLetterQueue releaseSlot].
      split; [apply (move_get now (markError now _ failed (markStarted now job))); done|].
      done.
  - intros Hval.
    rewrite (processJob_start_invalid now rnd s r job _ Hjob Hnot Hval).
    unfold processJob_catch. cbn [heap]. rewrite list_lookup_insert_eq by done.
    assert (isRetryableError "Invalid token address" = false) as -> by reflexivity.
    assert (categorizeError "Invalid token address"
            = "Unknown error: Invalid token address") as -> by reflexivity.
    cbn [negb orb].
    eexists. split; [cbn; by apply list_lookup_insert_eq; rewrite length_insert|].
    split; [done|]. split; [done|]. split; [done|]. split; [|done].
    eexists. cbn [deadLetterQueue releaseSlot].
    split; [apply (move_get now (markError now _ failed (markStarted now job))); done|].
    done.
Qed.

Lemma validation_failure_outcome_witness :
  exists j', heap (processJob_start 2 noJitter (addJob badInput 1 "a" emptyQueue).2 0%nat)
               !! 0%nat = Some j' /\
             status j' = retrying /\ attempts j' = 1.
Proof.
  destruct (validation_failure_outcome 2 noJitter (addJob badInput 1 "a" emptyQueue).2 0%nat
              (setPosition 0 (newJob 1 "job_1_a" 0 badInput)))
    as (_ & _ & H & _).
  - reflexivity.
  - apply (bool_decide_unpack _). vm_compute. exact I.
  - vm_compute. lia.
  - destruct (H eq_refl) as (j' & Hj & Ha & Hc). exists j'.
    rewrite decide_True in Hc by (vm_compute; reflexivity).
    destruct Hc as (Hs & _). split; [exact Hj|]. split; [exact Hs | exact Ha].
Defined.

Lemma prefix_split (p s : string) :
  String.prefix p s = true -> exists b, s = p +:+ b.
Proof.
  revert s. induction p as [|c p IH]; intros s H; simpl in H.
  - by exists s.
  - destruct s as [|c' s]; simpl in H; [done|].
    destruct (ascii_dec c c') as [<-|]; [|done].
    destruct (IH s H) as [b ->]. by exists b.
Qed.

Lemma includes_split (s p : string) :
  Js.includes s p = true -> exists a b, s = a +:+ p +:+ b.
Proof.
  induction s as [|c s IH]; cbn [Js.includes]; intros H.
  - rewrite orb_false_r in H. apply prefix_split in H as [b ->]. by exists EmptyString, b.
  - apply orb_true_iff in H as [H | H].
    + apply prefix_split in H as [b ->]. by exists EmptyString, b.
    + destruct (IH H) as (a & b & ->). by exists (String c a), b.
Qed.

Lemma includes_toLowerCase (s p : string) :
  Js.includes s p = true ->
  Js.includes (Js.toLowerCase s) (Js.toLowerCase p) = true.
Proof.
  intros (a & b & ->)%includes_split. rewrite !toLowerCase_app. apply includes_app.
Qed.

Lemma categorizeError_cooldown (msg : string) :
  categorizeError msg = "Cooldown period not met: " +:+ errorText msg ->
  Js.includes (errorText msg) "cooldown" || Js.includes (errorText msg) "Cooldown" = true.
Proof.
  unfold categorizeError. cbn zeta.
  repeat match goal with
         | |- (if ?c then _ else _) = _ -> _ => destruct c; [simpl; discriminate|]
         end.
  destruct (_ || _); [done | simpl; discriminate].
Qed.

(** X10: an error whose text contains the word cooldown, in any letter case,
    is never retried; in particular every error that [categorizeError]
    reports as a cooldown that is not met is classified non-retryable, so
    the failing job is marked failed and dead-lettered whatever attempts
    it has left. *)
Theorem cooldown_never_retried (msg : string) :
  (forall w, Js.toLowerCase w = "cooldown" -> Js.includes (errorText msg) w = true ->
     isRetryableError msg = false) /\
  (categorizeError msg = "Cooldown period not met: " +:+ errorText msg ->
   isRetryableError msg = false /\
   forall now rnd r s job,
     heap s !! r = Some job ->
     (length (deadLetterQueue s) <= deadLetterCapacity)%nat ->
     let s' := processJob_catch now rnd msg r s in
     (exists j', heap s' !! r = Some j' /\ status j' = failed /\
        error j' = Some (categorizeError msg)) /\
     is_Some (OMap.get (id job) (deadLetterQueue s')) /\
     timers s' = timers s).
Proof.
  assert (Hw : forall w, Js.toLowerCase w = "cooldown" ->
            Js.includes (errorText msg) w = true -> isRetryableError msg = false).
  { intros w Hlow Hin. unfold isRetryableError. cbn zeta.
    apply includes_toLowerCase in Hin. rewrite Hlow in Hin.
    replace (firstMatch (Js.toLowerCase (errorText msg)) nonRetryablePatterns) with true;
      [done|].
    symmetry. apply firstMatch_true. exists "cooldown". split; [|done].
    unfold nonRetryablePatterns. set_solver. }
  split; [exact Hw|]. intros Hcat.
  assert (Hnr : isRetryableError msg = false).
  { apply categorizeError_cooldown, orb_true_iff in Hcat as [H | H];
      [apply (Hw "cooldown") | apply (Hw "Cooldown")]; done. }
  split; [done|]. intros now rnd r s job Hjob Hlen s'. subst s'.
  unfold processJob_catch. rewrite Hjob, Hnr. cbn [negb orb].
  cbn [heap deadLetterQueue timers releaseSlot].
  split; [|split; [|done]].
  - eexists. split; [apply list_lookup_insert_eq; by eapply lookup_lt_Some|]. done.
  - rewrite (move_get now (markError now (categorizeError msg) failed job)) by done. done.
Qed.

Lemma cooldown_never_retried_witness :
  isRetryableError "COOLDOWN active, network busy" = false /\
  isRetryableError "Cooldown period of 24h" = false.
Proof.
  destruct (cooldown_never_retried "COOLDOWN active, network busy") as [H1 _].
  destruct (cooldown_never_retried "Cooldown period of 24h") as [_ H2].
  split; [apply (H1 "COOLDOWN"); reflexivity|].
  destruct (H2 eq_refl) as [H _]. exact H.
Defined.

(** ** The payload of the jobs handed to the executor *)

Lemma validateJobData_stable j j' : stable j j' -> validateJobData j' = validateJobData j.
Proof. intros (_ & Ht & Hd & _). unfold validateJobData. by rewrite Ht, Hd. Qed.

Lemma AwaitValid_evolves d s s' :
  AwaitValid s -> evolves d (heap s) (heap s') ->
  (forall r, r ∈ awaiting s' -> r ∈ awaiting s) -> AwaitValid s'.
Proof.
  intros HP Hk Hsub r Hr. destruct (HP r (Hsub r Hr)) as (job & Hjob & Hval).
  destruct (Hk r job Hjob) as (j' & Hj' & Hst & _).
  exists j'. split; [done|]. by rewrite (validateJobData_stable job j').
Qed.

Lemma processJob_catch_awaiting now rnd msg r s :
  awaiting (processJob_catch now rnd msg r s) = awaiting s.
Proof.
  unfold processJob_catch. destruct (heap s !! r); [|done]. by destruct (_ || _).
Qed.

Lemma processJob_catch_AwaitValid now rnd msg r s :
  AwaitValid s -> AwaitValid (processJob_catch now rnd msg r s).
Proof.
  intros HP. eapply AwaitValid_evolves; [exact HP | apply processJob_catch_keeps|].
  intros r'. by rewrite processJob_catch_awaiting.
Qed.

Lemma processJob_start_AwaitValid now rnd s r0 :
  AwaitValid s -> AwaitValid (processJob_start now rnd s r0).
Proof.
  intros HP. unfold processJob_start.
  destruct (heap s !! r0) as [job|] eqn:Hjob; [|done].
  case_decide; [done|]. cbn zeta.
  set (s1 := mkQueue (<[r0 := markStarted now job]> (heap s)) (jobs s) (pendingQueue s)
               ({[id job]} ∪ processingJobs s) (deadLetterQueue s) (timers s) (awaiting s)).
  assert (He : evolves (λ r, if decide (r = r0) then 1 else 0) (heap s) (heap s1))
    by (apply (evolves_insert 1 (heap s) r0 job (markStarted now job));
        [done | by repeat split | done]).
  assert (HP1 : AwaitValid s1) by (eapply AwaitValid_evolves; [exact HP | exact He | done]).
  destruct (validateJobData (markStarted now job)) as [msg|] eqn:Hval.
  - by apply processJob_catch_AwaitValid.
  - intros r Hr. cbn [awaiting] in Hr. apply elem_of_app in Hr as [Hr | Hr].
    + apply (HP1 r Hr).
    + apply list_elem_of_singleton in Hr as ->. exists (markStarted now job).
      split; [|done]. cbn [heap]. apply list_lookup_insert_eq. by eapply lookup_lt_Some.
Qed.

Lemma dispatch_AwaitValid now rnd todo s :
  AwaitValid s -> AwaitValid (foldl (processJob_start now rnd) s todo).
Proof.
  revert s. induction todo as [|r todo IH]; intros s HP; simpl; [done|].
  by apply IH, processJob_start_AwaitValid.
Qed.

Lemma step_AwaitValid e s s' :
  step e s = Some s' -> AwaitValid s -> AwaitValid s'.
Proof.
  intros Hstep HP. destruct e; simpl in Hstep.
  - case_decide; [|done]. simplify_eq.
    eapply AwaitValid_evolves; [exact HP| |done]. simpl.
    eapply keeps_trans; [apply keeps_app | apply keeps_positions].
  - simplify_eq. unfold processNextJobs. destruct (_ <=? _)%nat; [done|].
    eapply AwaitValid_evolves; [|apply keeps_positions|done].
    apply dispatch_AwaitValid.
    eapply AwaitValid_evolves; [exact HP | apply keeps_refl | done].
  - destruct (awaiting s !! k) as [r|] eqn:Hk; [|done]. simplify_eq.
    assert (HPr : AwaitValid (resume k s)).
    { eapply AwaitValid_evolves; [exact HP | apply keeps_refl|].
      intros r'. simpl. apply list_elem_of_delete_inv. }
    unfold processJob_settle. destruct (heap (resume k s) !! r) as [job|] eqn:Hjob; [|done].
    assert (Hc : forall msg, AwaitValid (processJob_catch now rnd msg r (resume k s)))
      by (intros; by apply processJob_catch_AwaitValid).
    assert (Hd : forall hash,
              AwaitValid (releaseSlot (id job)
                            (withHeap (<[r := markCompleted now hash job]> (heap (resume k s)))
                               (resume k s)))).
    { intros hash. eapply AwaitValid_evolves; [exact HPr| |done]. simpl.
      eapply keeps_insert; [exact Hjob | by repeat split | done]. }
    destruct (type job); [destruct o; auto|].
    destruct (Js.truthy_opt _); [destruct o; auto | auto].
  - destruct (timers s !! k) as [[r d]|] eqn:Hk; [|done]. simplify_eq.
    eapply AwaitValid_evolves; [exact HP | apply retryTimer_keeps|].
    unfold retryTimer. rewrite Hk. destruct (heap s !! r); [|done]. by case_decide.
  - simplify_eq. eapply AwaitValid_evolves; [exact HP | apply cancelJob_keeps|].
    unfold cancelJob. destruct (jobs s !! jobId); [|done].
    destruct (heap s !! n); [|done]. case_decide; [|done].
    by destruct (list_find _ _) as [[? ?]|].
  - assert (Hr : AwaitValid (retryFailedJob jobId now rnd s).2).
    { unfold retryFailedJob. destruct (OMap.get _ _); [|done]. simpl.
      eapply AwaitValid_evolves; [exact HP| |done]. simpl.
      eapply keeps_trans; [apply keeps_app | apply keeps_positions]. }
    destruct (OMap.get jobId (deadLetterQueue s)); [case_decide; [|done]|]; by simplify_eq.
  - simplify_eq. eapply AwaitValid_evolves; [exact HP | apply keeps_refl | done].
  - simplify_eq. eapply AwaitValid_evolves; [exact HP | apply keeps_refl | done].
Qed.

Lemma reachable_AwaitValid s : reachable s -> AwaitValid s.
Proof.
  induction 1 as [|s e s' _ IH Hstep].
  - intros r Hr. by apply elem_of_nil in Hr.
  - by eapply step_AwaitValid.
Qed.

(** X11: the executor is called only for payloads that pass the validation:
    in every reachable state a job whose execution is suspended on the
    executor is processing, its recipient is an address and, for a token
    claim, so is its token address. The error "Invalid job type or
    missing token address" therefore never occurs: what the call settles
    to is what the executor settled to, and when it resolves with a hash
    the job is completed with that hash at that time, with the attempts it
    had, its slot is released and a status query finds it. *)
Theorem executor_payload_valid (s : TransactionQueue) (k r : nat) :
  reachable s -> awaiting s !! k = Some r ->
  exists job,
    heap s !! r = Some job /\ status job = processing /\
    Js.is_address (address (data job)) = true /\
    (type job = TOKEN_CLAIM ->
     exists t, tokenAddress (data job) = Some t /\ Js.is_address t = true) /\
    (forall now rnd msg,
       processJob_settle now rnd (Rejected msg) r (resume k s)
       = processJob_catch now rnd msg r (resume k s)) /\
    (forall now rnd hash,
       let s' := processJob_settle now rnd (Resolved hash) r (resume k s) in
       getJob (id job) s' = Some (markCompleted now hash job) /\
       status (markCompleted now hash job) = completed /\
       transactionHash (markCompleted now hash job) = Some hash /\
       completedAt (markCompleted now hash job) = Some now /\
       attempts (markCompleted now hash job) = attempts job /\
       (id job ∉ processingJobs s') /\
       deadLetterQueue s' = deadLetterQueue s /\ timers s' = timers s /\
       pendingQueue s' = pendingQueue s).
Proof.
  intros Hreach Hk. destruct (reachable_Inv s Hreach) as [HI _].
  assert (Hin : r ∈ awaiting s) by (by eapply list_elem_of_lookup_2).
  destruct (reachable_AwaitValid s Hreach r Hin) as (job & Hjob & Hval).
  destruct (proj1 (inv_await _ _ HI r) Hin) as (job' & Hjob' & Hst).
  assert (job' = job) as -> by congruence.
  exists job. split; [done|]. split; [done|].
  rewrite validateJobData_cases in Hval.
  destruct (Js.is_address (address (data job))) eqn:Ha; [|done].
  split; [done|].
  assert (Htok : type job = TOKEN_CLAIM ->
            exists t, tokenAddress (data job) = Some t /\ Js.is_address t = true).
  { intros Ht. rewrite Ht in Hval. destruct (tokenAddress (data job)) as [t|]; [|done].
    exists t. split; [done|]. by destruct (Js.is_address t). }
  split; [done|].
  assert (Hres : forall o,
            match type job with
            | ETH_CLAIM => o
            | TOKEN_CLAIM =>
                if Js.truthy_opt (tokenAddress (data job)) then o
                else Rejected "Invalid job type or missing token address"
            end = o).
  { intros o. destruct (type job) eqn:Ht; [done|].
    destruct (Htok eq_refl) as (t & -> & Hta). simpl.
    by assert (Js.truthy t = true) as -> by (by destruct t). }
  split.
  - intros now rnd msg. unfold processJob_settle. cbn [heap resume]. rewrite Hjob.
    cbn zeta. by rewrite Hres.
  - intros now rnd hash s'. subst s'. unfold processJob_settle. cbn [heap resume].
    rewrite Hjob. cbn zeta. rewrite Hres.
    split.
    { unfold getJob. cbn [jobs heap releaseSlot withHeap resume].
      rewrite (inv_live _ _ HI r job Hjob) by (by rewrite Hst).
      apply list_lookup_insert_eq. by eapply lookup_lt_Some. }
    split; [done|]. split; [done|]. split; [done|]. split; [done|].
    split; [|done]. cbn [processingJobs releaseSlot].
    intros Hin'. apply elem_of_difference in Hin' as [_ Hn]. apply Hn.
    by apply elem_of_singleton.
Qed.

Lemma executor_payload_valid_witness :
  exists job, heap demoRunning !! 0%nat = Some job /\
    Js.is_address (address (data job)) = true /\
    status <$> getJob (id job) (processJob_settle 3 0%Q (Resolved "0xabc") 0%nat
                                  (resume 0 demoRunning)) = Some completed.
Proof.
  destruct (executor_payload_valid demoRunning 0%nat 0%nat demoRunning_reachable eq_refl)
    as (job & Hjob & _ & Ha & _ & _ & Hok).
  exists job. split; [exact Hjob|]. split; [exact Ha|].
  destruct (Hok 3 0%Q "0xabc") as (Hget & _). rewrite Hget. reflexivity.
Defined.

(** ** Authentication *)

(** X12: the nonce store keeps one nonce per address, whatever the letter case
    of the address: a stored nonce is read back under every spelling of
    the address and replaces the one stored before, a removed one is gone
    under every spelling, other addresses are not touched, and the sweep
    keeps a nonce up to five minutes after it was stored and drops it
    after that. *)
Theorem nonce_store_round_trip (address nonce : string) (now : Z)
    (nonces : gmap string Auth.NonceEntry) :
  (forall a, Js.toLowerCase a = Js.toLowerCase address ->
     Auth.getNonce a (Auth.storeNonce address nonce now nonces) = Some nonce /\
     Auth.getNonce a (Auth.removeNonce address nonces) = None /\
     (forall now',
        Auth.getNonce a (Auth.sweepNonces now' (Auth.storeNonce address nonce now nonces))
        = if decide (now' - now <= 300000) then Some nonce else None)) /\
  (forall a, Js.toLowerCase a ≠ Js.toLowerCase address ->
     Auth.getNonce a (Auth.storeNonce address nonce now nonces) = Auth.getNonce a nonces /\
     Auth.getNonce a (Auth.removeNonce address nonces) = Auth.getNonce a nonces).
Proof.
  unfold Auth.getNonce, Auth.storeNonce, Auth.removeNonce, Auth.sweepNonces. split.
  - intros a ->. rewrite lookup_insert_eq, lookup_delete_eq. split; [done|]. split; [done|].
    intros now'.
    destruct (decide (now' - now <= 300000)) as [Hle|Hgt].
    + assert (H : filter (λ kv, ¬ Auth.expiredNonce now' kv)
                    (<[Js.toLowerCase address := Auth.mkNonceEntry nonce now]> nonces)
                  !! Js.toLowerCase address = Some (Auth.mkNonceEntry nonce now)).
      { apply map_lookup_filter_Some. split; [apply lookup_insert_eq|].
        unfold Auth.expiredNonce. simpl. lia. }
      by rewrite H.
    + assert (H : filter (λ kv, ¬ Auth.expiredNonce now' kv)
                    (<[Js.toLowerCase address := Auth.mkNonceEntry nonce now]> nonces)
                  !! Js.toLowerCase address = None).
      { apply map_lookup_filter_None. right.
        intros x Hx Hn. rewrite lookup_insert_eq in Hx. injection Hx as <-.
        apply Hn. unfold Auth.expiredNonce. simpl. lia. }
      by rewrite H.
  - intros a Hne. by rewrite lookup_insert_ne, lookup_delete_ne.
Qed.

Lemma nonce_store_round_trip_witness :
  Auth.getNonce "0XABC" (Auth.storeNonce "0xabc" "n1" 5 ∅) = Some "n1" /\
  Auth.getNonce "0xdef" (Auth.storeNonce "0xabc" "n1" 5 ∅) = None.
Proof.
  destruct (nonce_store_round_trip "0xabc" "n1" 5 ∅) as [H1 H2].
  destruct (H1 "0XABC" eq_refl) as (Hsame & _).
  destruct (H2 "0xdef") as (Hother & _); [vm_compute; discriminate|].
  split; [exact Hsame|]. rewrite Hother. vm_compute. reflexivity.
Defined.

Section AuthRoutes.
Variable isAddress : string -> bool.
Variable verifyMessage : string -> string -> option string.
Variable sign : Auth.JWTPayload -> option string.
Variable adminAddress : string.

(** X13: a nonce is good for one authentication. A token is issued only when
    the nonce sent is the one stored for the address and the signature
    over its message recovers the address; the token carries the address
    in lower case; the nonce is then removed, so that every further
    request for that address, under any spelling, is refused with 400
    until a new nonce is stored. A request refused with 400 leaves the
    store as it was. *)
Theorem verifyRoute_single_use (body : Auth.VerifyBody) (nonces : gmap string Auth.NonceEntry) :
  let route := Auth.verifyRoute isAddress verifyMessage sign adminAddress in
  let res := route body nonces in
  (forall token addr, res.1 = Auth.VerifyOk token addr ->
     exists address signature nonce,
       Auth.vb_address body = Some address /\
       Auth.vb_signature body = Some signature /\
       Auth.vb_nonce body = Some nonce /\
       isAddress address = true /\
       Auth.getNonce address nonces = Some nonce /\
       Auth.verifySignature verifyMessage address signature nonce = true /\
       addr = Js.toLowerCase address /\
       sign (Auth.mkJWTPayload (Js.toLowerCase address)
               (Auth.isAdmin adminAddress address)) = Some token /\
       res.2 = Auth.removeNonce address nonces /\
       forall body' a,
         Auth.vb_address body' = Some a ->
         Js.toLowerCase a = Js.toLowerCase address ->
         exists err, route body' res.2 = (Auth.VerifyError 400 err, res.2)) /\
  (forall err, res.1 = Auth.VerifyError 400 err -> res.2 = nonces).
Proof.
  intros route res. subst route res. split.
  - intros token addr. unfold Auth.verifyRoute. cbn zeta.
    destruct (Auth.vb_address body) as [address|] eqn:Hadr; [|done]. cbn [default from_option Datatypes.id].
    destruct (Js.truthy address) eqn:Hta; [|done].
    destruct (isAddress address) eqn:Hia; [|done]. cbn [negb orb].
    destruct (Auth.vb_signature body) as [signature|] eqn:Hsig; [|done]. cbn [default from_option Datatypes.id].
    destruct (Js.truthy signature) eqn:Hts; [|done]. cbn [negb orb].
    destruct (Auth.vb_nonce body) as [nonce|] eqn:Hnon; [|done]. cbn [default from_option Datatypes.id].
    destruct (Js.truthy nonce) eqn:Htn; [|done]. cbn [negb].
    destruct (Auth.getNonce address nonces) as [stored|] eqn:Hget; [|done].
    cbn [Js.truthy_opt].
    destruct (Js.truthy stored); [|done]. cbn [negb orb].
    case_bool_decide as Heq; [|done]. injection Heq as ->. cbn [negb].
    destruct (Auth.verifySignature verifyMessage address signature nonce) eqn:Hvs; [|done].
    cbn [negb]. unfold Auth.generateToken.
    destruct (sign _) as [tok|] eqn:Hsign; [|done].
    cbn [fst snd]. intros [= <- <-].
    exists address, signature, nonce. do 9 (split; [done|]).
    intros body' a Ha Hlow. rewrite Ha. cbn [default from_option Datatypes.id].
    assert (Hgone : Auth.getNonce a (Auth.removeNonce address nonces) = None)
      by (unfold Auth.getNonce, Auth.removeNonce; by rewrite Hlow, lookup_delete_eq).
    destruct (negb (Js.truthy a) || negb (isAddress a)); [by eexists|].
    destruct (negb _ || negb _); [by eexists|].
    rewrite Hgone. cbn [Js.truthy_opt negb orb]. by eexists.
  - intros err. unfold Auth.verifyRoute. cbn zeta.
    repeat match goal with
           | |- context [if ?c then _ else _] => destruct c; [done|]
           end.
    unfold Auth.generateToken. destruct (sign _); cbn [fst snd]; intros [=].
Qed.
End AuthRoutes.

Lemma verifyRoute_single_use_witness :
  let route := Auth.verifyRoute Js.is_address (λ _ sig, Some sig)
                 (λ p, Some (Auth.p_address p)) demoAddress in
  let body := Auth.mkVerifyBody (Some demoAddress) (Some demoAddress) (Some "n1") in
  let nonces := Auth.storeNonce demoAddress "n1" 5 ∅ in
  (route body nonces).1 = Auth.VerifyOk (Js.toLowerCase demoAddress) (Js.toLowerCase demoAddress) /\
  exists err, route body (route body nonces).2
              = (Auth.VerifyError 400 err, (route body nonces).2).
Proof.
  intros route body nonces.
  assert (Hok : (route body nonces).1
                = Auth.VerifyOk (Js.toLowerCase demoAddress) (Js.toLowerCase demoAddress))
    by (vm_compute; reflexivity).
  split; [exact Hok|].
  destruct (verifyRoute_single_use Js.is_address (λ _ sig, Some sig)
              (λ p, Some (Auth.p_address p)) demoAddress body nonces) as [H _].
  destruct (H _ _ Hok) as (address & _ & _ & Ha & _ & _ & _ & _ & _ & _ & _ & _ & Hnext).
  injection Ha as <-. exact (Hnext body demoAddress eq_refl eq_refl).
Defined.

(** ** The cancellation route *)

Lemma getJob_pending s jobId job :
  InvT [] s -> getJob jobId s = Some job -> status job = pending ->
  exists r, jobs s !! jobId = Some r /\ heap s !! r = Some job.
Proof.
  intros HI Hget Hst. unfold getJob in Hget.
  destruct (jobs s !! jobId) as [r|]; [by exists r|].
  apply omap_get_elem in Hget.
  destruct (inv_dlq _ _ HI jobId job Hget) as (_ & Hf & _). congruence.
Qed.

Lemma cancelJob_pending_true s jobId now r job :
  jobs s !! jobId = Some r -> heap s !! r = Some job -> status job = pending ->
  (cancelJob jobId now s).1 = true.
Proof.
  intros Hjobs Hjob Hst. unfold cancelJob. rewrite Hjobs, Hjob, decide_True by done.
  by destruct (list_find _ _) as [[? ?]|].
Qed.

Section CancelRoute.
Variable verify : string -> option Auth.JWTPayload.

(** X14: the cancellation route changes the queue only when it answers with
    success, and it does so only for a bearer token that verifies, a job
    of the main store that is pending, and a caller who is an
    administrator or whose address is the job's, compared without case;
    the job is then cancelled by [cancelJob]. Every refusal leaves the
    queue as it was, and the refusal "Cancellation Failed" with status
    500 never occurs. *)
Theorem cancelRoute_guards (s : TransactionQueue) (authHeader : option string)
    (jobId : string) (now : Z) :
  reachable s ->
  let res := Routes.cancelRoute verify authHeader jobId now s in
  (forall err, res.1 ≠ Routes.CancelError 500 err) /\
  (forall code err, res.1 = Routes.CancelError code err -> res.2 = s) /\
  (forall j, res.1 = Routes.CancelOk j ->
     j = jobId /\
     exists header payload r job,
       authHeader = Some header /\ String.prefix "Bearer " header = true /\
       verify (Routes.bearerToken header) = Some payload /\
       jobs s !! jobId = Some r /\ heap s !! r = Some job /\ status job = pending /\
       (Auth.p_isAdmin payload = true \/ sameAddress (Auth.p_address payload) job = true) /\
       (cancelJob jobId now s).1 = true /\ res.2 = (cancelJob jobId now s).2).
Proof.
  intros Hreach res. subst res. destruct (reachable_Inv s Hreach) as [HI _].
  unfold Routes.cancelRoute, Auth.verifyToken. cbn zeta.
  destruct authHeader as [header|]; cbn [default from_option Datatypes.id];
    [|by (split; [|split])].
  destruct (Js.truthy header); [|by (split; [|split])].
  destruct (String.prefix "Bearer " header) eqn:Hpre; [|by (split; [|split])].
  cbn [negb orb].
  destruct (verify (Routes.bearerToken header)) as [payload|] eqn:Hver;
    [|by (split; [|split])].
  destruct (Js.truthy jobId); [|by (split; [|split])]. cbn [negb].
  destruct (getJob jobId s) as [job|] eqn:Hget; [|by (split; [|split])].
  destruct (negb (Auth.p_isAdmin payload) && _) eqn:Hown; [by (split; [|split])|].
  case_bool_decide as Hst; [|by (split; [|split])]. cbn [negb].
  destruct (getJob_pending s jobId job HI Hget Hst) as (r & Hjobs & Hjob).
  rewrite (cancelJob_pending_true s jobId now r job Hjobs Hjob Hst). cbn [negb fst snd].
  split; [done|]. split; [done|]. intros j [= <-]. split; [done|].
  exists header, payload, r, job. do 6 (split; [done|]).
  split; [|by split].
  apply andb_false_iff in Hown as [Hadm | Hsame].
  - left. by destruct (Auth.p_isAdmin payload).
  - right. unfold sameAddress. by destruct (String.eqb _ _).
Qed.
End CancelRoute.

Lemma cancelRoute_guards_witness :
  let verify := λ token : string, Some (Auth.mkJWTPayload token false) in
  (Routes.cancelRoute verify
     (Some "Bearer 0x1234567890ABCDEFabcdef1234567890abcdef12") "job_1_a" 5
     demoSubmitted).1 = Routes.CancelOk "job_1_a" /\
  Routes.cancelRoute verify (Some "Bearer 0xother") "job_1_a" 5 demoSubmitted
  = (Routes.CancelError 403 "Forbidden", demoSubmitted).
Proof.
  intros verify.
  destruct (cancelRoute_guards verify demoSubmitted (Some "Bearer 0xother") "job_1_a" 5
              demoSubmitted_reachable) as (_ & Hsame & _).
  split; [reflexivity|].
  assert (H1 : (Routes.cancelRoute verify (Some "Bearer 0xother") "job_1_a" 5
                  demoSubmitted).1 = Routes.CancelError 403 "Forbidden") by reflexivity.
  specialize (Hsame _ _ H1).
  destruct (Routes.cancelRoute verify (Some "Bearer 0xother") "job_1_a" 5 demoSubmitted)
    as [resp st]. simpl in *. by subst.
Defined.

(** ** The claim route *)

Lemma addJob_getJob_eq s input now rnd :
  InvT [] s ->
  getJob (addJob input now rnd s).1 (addJob input now rnd s).2
  = Some (setPosition (Z.of_nat (length (pendingQueue s)))
            (newJob now (generateJobId now rnd) (length (pendingQueue s)) input)).
Proof.
  intros HI. unfold getJob, addJob. cbn -[generateJobId setPositions].
  rewrite lookup_insert_eq. exact (newcomer_lookup s _ (jobs s) HI).
Qed.

Section ClaimRoute.
Variable verify : string -> option Auth.JWTPayload.
Variable isAddress : string -> bool.

Lemma serve_count k rq st :
  let res := Routes.serve verify isAddress rq st in
  let one := if Routes.isQueued res.1 && bool_decide (Routes.requestKey rq = k)
             then 1 else 0 in
  Routes.dailyCount k res.2 = Routes.dailyCount k st + one /\
  (one = 1 -> Routes.dailyCount k st < 5).
Proof.
  intros res one. subst res one.
  unfold Routes.serve, Routes.claimRoute, Routes.requestKey, Auth.verifyToken. cbn zeta.
  repeat match goal with
         | |- context [if negb ?c || negb ?d then _ else _] =>
             destruct (negb c || negb d); [cbn; split; [lia | done]|]
         | |- context [match verify ?t with _ => _ end] =>
             destruct (verify t); [|cbn; split; [lia | done]]
         | |- context [if negb (String.eqb ?a ?b) then _ else _] =>
             destruct (negb (String.eqb a b)); [cbn; split; [lia | done]|]
         end.
  set (key := Routes.claimKey (default EmptyString (Routes.cb_address (Routes.rq_body rq)))
                (Routes.rq_today rq)).
  destruct (match Routes.dailyClaims st !! key with
            | Some d => (5 <=? Routes.count d)%Z
            | None => false
            end) eqn:Hlim; [cbn; split; [lia | done]|].
  destruct (_ && _ && _); [cbn; split; [lia | done]|].
  cbn [fst snd Routes.isQueued andb]. unfold Routes.dailyCount. cbn [Routes.dailyClaims].
  case_bool_decide as Hk.
  - subst k. rewrite lookup_insert_eq. cbn [fmap option_fmap option_map Routes.orZero default from_option
                                             Datatypes.id Routes.count].
    split; [done|]. intros _.
    destruct (Routes.dailyClaims st !! key) as [d|]; cbn; [|lia].
    by apply Z.leb_gt in Hlim.
  - rewrite lookup_insert_ne by done. split; [lia | done].
Qed.

(** X15: the daily limit of the claim route: whatever requests arrive, in
    whatever order and under whatever tokens, the count stored under a
    key (the address in lower case with the date) grows by one with each
    request queued under the key and never passes five, so that at most
    five requests are queued under a key whose count starts at zero. *)
Theorem claim_daily_limit (k : string) (rqs : list Routes.ClaimRequest)
    (st : Routes.ClaimState) :
  Routes.dailyCount k st <= 5 ->
  Routes.dailyCount k (Routes.serveAll verify isAddress rqs st)
  = Routes.dailyCount k st + Z.of_nat (Routes.queuedFor verify isAddress k rqs st) /\
  Routes.dailyCount k st + Z.of_nat (Routes.queuedFor verify isAddress k rqs st) <= 5.
Proof.
  revert st. induction rqs as [|rq rqs IH]; intros st Hle.
  - cbn. lia.
  - destruct (serve_count k rq st) as [Hc Hlt]. cbn zeta in Hc, Hlt.
    cbn [Routes.queuedFor Routes.serveAll foldl].
    set (one := if Routes.isQueued (Routes.serve verify isAddress rq st).1
                   && bool_decide (Routes.requestKey rq = k) then 1 else 0) in *.
    assert (Hone : one = 0 \/ one = 1) by (subst one; destruct (_ && _); lia).
    destruct (IH (Routes.serve verify isAddress rq st).2) as [IH1 IH2].
    { rewrite Hc. destruct Hone as [-> | H1]; [lia|]. specialize (Hlt H1). lia. }
    fold (Routes.serveAll verify isAddress rqs (Routes.serve verify isAddress rq st).2).
    rewrite IH1, Hc in *.
    assert (Hnat : Z.of_nat (if Routes.isQueued (Routes.serve verify isAddress rq st).1
                                && bool_decide (Routes.requestKey rq = k)
                             then 1%nat else 0%nat) = one)
      by (subst one; by destruct (_ && _)).
    rewrite Nat2Z.inj_add, Hnat. lia.
Qed.
(** X16: a request that leaves [useQueue] at its default changes the state
    only when it is queued. It is queued only under a bearer token that
    verifies for the address claimed, in lower case. The job submitted
    is a claim of ETH with priority 1 when no token address or the zero
    address is given, and a claim of the token with priority 2
    otherwise; it has three attempts and the address as it was sent; and
    the response gives its id, the last position of the pending queue
    and two seconds per position as the estimate. *)
Theorem claimRoute_queued (authHeader userAgent : option string)
    (body : Routes.ClaimBody) (today : string) (now : Z) (rnd : string)
    (st : Routes.ClaimState) :
  reachable (Routes.queue st) ->
  let res := Routes.claimRoute verify isAddress authHeader userAgent body today now rnd st in
  (forall code err, res.1 = Routes.ClaimError code err -> res.2 = st) /\
  (forall jobId pos est, res.1 = Routes.ClaimQueued jobId pos est ->
     exists header payload addr job,
       authHeader = Some header /\
       verify (Routes.bearerToken header) = Some payload /\
       Routes.cb_address body = Some addr /\ isAddress addr = true /\
       Auth.p_address payload = Js.toLowerCase addr /\
       Routes.dailyCount (Routes.claimKey addr today) st < 5 /\
       jobId = generateJobId now rnd /\
       pos = Z.of_nat (length (pendingQueue (Routes.queue st))) + 1 /\
       est = 2 * pos /\
       pendingQueue (Routes.queue res.2)
       = pendingQueue (Routes.queue st) ++ [length (heap (Routes.queue st))] /\
       getJob jobId (Routes.queue res.2) = Some job /\
       status job = pending /\ attempts job = 0 /\ maxAttempts job = 3 /\
       address (data job) = addr /\
       match Routes.cb_tokenAddress body with
       | Some t =>
           if Js.truthy t && negb (String.eqb t Routes.zeroAddress)
           then type job = TOKEN_CLAIM /\ priority job = 2 /\
                tokenAddress (data job) = Some t /\ isAddress t = true
           else type job = ETH_CLAIM /\ priority job = 1
       | None => type job = ETH_CLAIM /\ priority job = 1 /\ tokenAddress (data job) = None
       end).
Proof.
  intros Hreach res. subst res. destruct (reachable_Inv _ Hreach) as [HI _].
  unfold Routes.claimRoute, Auth.verifyToken. cbn zeta.
  destruct authHeader as [header|]; cbn [default from_option Datatypes.id]; [|by split].
  destruct (Js.truthy header); [|by split].
  destruct (String.prefix "Bearer " header); [|by split]. cbn [negb orb].
  destruct (verify (Routes.bearerToken header)) as [payload|] eqn:Hver; [|by split].
  destruct (Routes.cb_address body) as [addr|] eqn:Hadr;
    cbn [default from_option Datatypes.id]; [|by split].
  destruct (Js.truthy addr); [|by split].
  destruct (isAddress addr) eqn:Hia; [|by split]. cbn [negb orb].
  destruct (String.eqb (Auth.p_address payload) (Js.toLowerCase addr)) eqn:Hown;
    [|by split].
  apply String.eqb_eq in Hown. cbn [negb].
  set (key := Routes.claimKey addr today).
  destruct (match Routes.dailyClaims st !! key with
            | Some d => (5 <=? Routes.count d)%Z
            | None => false
            end) eqn:Hlim; [by split|].
  assert (Hcount : Routes.dailyCount key st < 5).
  { unfold Routes.dailyCount. destruct (Routes.dailyClaims st !! key) as [d|]; cbn; [|lia].
    by apply Z.leb_gt in Hlim. }
  destruct (_ && _ && _) eqn:Htok; [by split|].
  split; [done|]. cbn [fst snd Routes.queue]. intros jobId pos est.
  match goal with |- context [addJob ?i now rnd _] => set (input := i) end.
  pose proof (addJob_getJob_eq (Routes.queue st) input now rnd HI) as Hget.
  rewrite Hget.
  cbn [mbind option_bind position estimatedProcessingTime setPosition Routes.orZero
       default from_option Datatypes.id].
  intros [= <- <- <-].
  exists header, payload, addr,
    (setPosition (Z.of_nat (length (pendingQueue (Routes.queue st))))
       (newJob now (generateJobId now rnd) (length (pendingQueue (Routes.queue st))) input)).
  do 7 (split; [done|]).
  split; [done|]. split; [change (processingDelay / 1000) with 2; lia|].
  split; [done|]. split; [exact Hget|]. subst input.
  cbn [status attempts maxAttempts data type priority setPosition newJob in_type in_data
       in_priority in_maxAttempts address tokenAddress].
  do 4 (split; [done|]).
  destruct (Routes.cb_tokenAddress body) as [t|];
    cbn [default from_option Datatypes.id] in *; [|done].
  destruct (Js.truthy t); cbn [negb orb andb] in *; [|done].
  destruct (String.eqb t Routes.zeroAddress); cbn [negb andb] in *; [done|].
  destruct (isAddress t); [done | discriminate].
Qed.

End ClaimRoute.

Lemma claim_daily_limit_witness :
  Routes.queuedFor demoVerify Js.is_address
    (Routes.claimKey demoAddress "Mon Nov 02 2026") demoClaims demoClaimState = 5%nat /\
  Routes.dailyCount (Routes.claimKey demoAddress "Mon Nov 02 2026")
    (Routes.serveAll demoVerify Js.is_address demoClaims demoClaimState) = 5.
Proof.
  destruct (claim_daily_limit demoVerify Js.is_address
              (Routes.claimKey demoAddress "Mon Nov 02 2026") demoClaims demoClaimState)
    as [Hc _]; [vm_compute; discriminate|].
  assert (Hq : Routes.queuedFor demoVerify Js.is_address
                 (Routes.claimKey demoAddress "Mon Nov 02 2026") demoClaims demoClaimState
               = 5%nat) by (vm_compute; reflexivity).
  split; [exact Hq|]. rewrite Hc, Hq. vm_compute. reflexivity.
Defined.

Lemma claimRoute_queued_witness :
  exists job,
    getJob "job_1_a" (Routes.queue (Routes.serve demoVerify Js.is_address (demoClaim 1 "a")
                                      demoClaimState).2) = Some job /\
    type job = ETH_CLAIM /\ priority job = 1.
Proof.
  assert (Hres : (Routes.serve demoVerify Js.is_address (demoClaim 1 "a") demoClaimState).1
                 = Routes.ClaimQueued "job_1_a" 1 2) by (vm_compute; reflexivity).
  destruct (claimRoute_queued demoVerify Js.is_address
              (Routes.rq_authHeader (demoClaim 1 "a")) None
              (Routes.rq_body (demoClaim 1 "a")) "Mon Nov 02 2026" 1 "a" demoClaimState
              reach_init) as [_ H].
  destruct (H "job_1_a" 1 2 Hres)
    as (header & payload & address & job & _ & _ & _ & _ & _ & _ & _ & _ & _ & _ & Hget
        & _ & _ & _ & _ & Hty & Hpr & _).
  exists job. split; [exact Hget|]. split; [exact Hty | exact Hpr].
Defined.

(** ** The status route *)

(** X17: what a status query reports. An id that is falsy is refused with
    400 "Missing Job ID", an id found in neither store with 404 "Job Not
    Found", and every other query is answered with the job found. For a
    job of the pending queue the position reported is its place in the
    array, counted from one, the completion time reported is thirty
    seconds per position from now, and, when the clock does not move
    between the two readings, the estimate is thirty seconds per
    position. For a job that is not pending no estimate is reported. *)
Theorem statusRoute_report (s : TransactionQueue) (now now' : Z) :
  reachable s ->
  (forall jobId,
     (Js.truthy jobId = false ->
      StatusRoute.statusRoute jobId now now' s
      = StatusRoute.StatusError 400 "Missing Job ID") /\
     (Js.truthy jobId = true -> getJob jobId s = None ->
      StatusRoute.statusRoute jobId now now' s
      = StatusRoute.StatusError 404 "Job Not Found") /\
     (Js.truthy jobId = true ->
      forall job, getJob jobId s = Some job ->
        exists pos est ect,
          StatusRoute.statusRoute jobId now now' s
          = StatusRoute.StatusOk job pos est ect)) /\
  (forall jobId,
     (exists code err, StatusRoute.statusRoute jobId now now' s
                       = StatusRoute.StatusError code err) <->
     Js.truthy jobId = false \/ getJob jobId s = None) /\
  (forall k r job,
     pendingQueue s !! k = Some r -> heap s !! r = Some job -> 0 < now ->
     StatusRoute.statusRoute (id job) now now' s
     = StatusRoute.StatusOk job (Z.of_nat k + 1)
         (Some (StatusRoute.ceilSeconds (now + (Z.of_nat k + 1) * 30 * 1000 - now')))
         (Some (now + (Z.of_nat k + 1) * 30 * 1000)) /\
     StatusRoute.ceilSeconds (now + (Z.of_nat k + 1) * 30 * 1000 - now)
     = 30 * (Z.of_nat k + 1)) /\
  (forall jobId job pos est ect,
     StatusRoute.statusRoute jobId now now' s = StatusRoute.StatusOk job pos est ect ->
     status job ≠ pending -> est = None /\ ect = None).
Proof.
  intros Hreach. destruct (reachable_Inv s Hreach) as [HI HP]. split; [|split; [|split]].
  - intros jobId. unfold StatusRoute.statusRoute. split; [|split].
    + by intros ->.
    + by intros -> ->.
    + intros -> job ->. cbn [negb]. by eexists _, _, _.
  - intros jobId. unfold StatusRoute.statusRoute.
    destruct (Js.truthy jobId); cbn [negb].
    + destruct (getJob jobId s) as [job|].
      * split; [by intros (code & err & ?) | by intros [? | ?]].
      * split; [by right | by eexists _, _].
    + split; [by left | by eexists _, _].
  - intros k r job Hk Hjob Hnow.
    destruct (HP k r Hk) as (j & Hj & Hpos). assert (j = job) as -> by congruence.
    assert (Hin : r ∈ pendingQueue s) by (by eapply list_elem_of_lookup_2).
    pose proof (inv_queue _ _ HI r) as Hq. simpl in Hq.
    apply Hq in Hin as (j & Hj' & Hst). assert (j = job) as -> by congruence.
    assert (Hget : getJob (id job) s = Some job).
    { unfold getJob. rewrite (inv_live _ _ HI r job Hjob) by (by rewrite Hst). done. }
    assert (Hz1 : (Z.of_nat k + 1 =? 0)%Z = false) by (apply Z.eqb_neq; lia).
    assert (Hz2 : (now + (Z.of_nat k + 1) * 30 * 1000 =? 0)%Z = false)
      by (apply Z.eqb_neq; lia).
    unfold StatusRoute.statusRoute.
    rewrite (inv_truthy _ _ HI r job Hjob), Hget, Hpos. cbn [negb]. cbn zeta.
    rewrite bool_decide_eq_true_2 by done.
    rewrite !Hz1. cbn [negb andb]. rewrite Hz2.
    split; [done|]. unfold StatusRoute.ceilSeconds.
    replace (- (now + (Z.of_nat k + 1) * 30 * 1000 - now))
      with ((- (30 * (Z.of_nat k + 1))) * 1000) by lia.
    rewrite Z.div_mul by lia. lia.
  - intros jobId job pos est ect. unfold StatusRoute.statusRoute.
    destruct (negb (Js.truthy jobId)); [done|].
    destruct (getJob jobId s) as [job'|]; [|done]. cbn zeta.
    intros [= <- <- <- <-] Hst.
    rewrite bool_decide_eq_false_2 by done. done.
Qed.

Lemma statusRoute_report_witness :
  (exists job est,
     StatusRoute.statusRoute "job_3_c" 100 100 demoFive
     = StatusRoute.StatusOk job 3 (Some est) (Some 90100) /\ est = 90) /\
  StatusRoute.statusRoute EmptyString 100 100 demoFive
  = StatusRoute.StatusError 400 "Missing Job ID" /\
  StatusRoute.statusRoute "job_9_z" 100 100 demoFive
  = StatusRoute.StatusError 404 "Job Not Found".
Proof.
  destruct (statusRoute_report demoFive 100 100 demoFive_reachable) as (Hc & _ & H & _).
  assert (Hnone : getJob "job_9_z" demoFive = None) by (vm_compute; reflexivity).
  split; [|split].
  - edestruct (H 2%nat 2%nat) as [Hr He]; [reflexivity | reflexivity | lia |].
    eexists _, _. split; [exact Hr | exact He].
  - destruct (Hc EmptyString) as (H400 & _). exact (H400 eq_refl).
  - destruct (Hc "job_9_z") as (_ & H404 & _). exact (H404 eq_refl Hnone).
Defined.

(** ** Job ids *)

Lemma pretty_N_go_noUnderscore (x : N) (s : string) :
  noUnderscore s = true -> noUnderscore (pretty_N_go x s) = true.
Proof.
  revert s. induction (N.lt_wf_0 x) as [x _ IH]; intros s Hs.
  assert (x = 0 \/ 0 < x)%N as [-> | Hpos] by lia.
  - by rewrite pretty_N_go_0.
  - rewrite pretty_N_go_step by done. apply IH; [by apply N.div_lt|].
    cbn [noUnderscore]. rewrite Hs, andb_true_r.
    unfold pretty_N_char. by repeat case_match.
Qed.

Lemma pretty_Z_noUnderscore (z : Z) : noUnderscore (pretty z) = true.
Proof.
  assert (HN : forall p : positive, noUnderscore (pretty p) = true).
  { intros p. unfold pretty, pretty_positive, pretty, pretty_N.
    case_decide; [done|]. by apply pretty_N_go_noUnderscore. }
  destruct z as [|p|p]; [done | apply HN|].
  change (pretty (Z.neg p)) with (String "-" (pretty p)).
  change (noUnderscore (String "-" (pretty p)))
    with (negb (Ascii.eqb "-" "_") && noUnderscore (pretty p)).
  by rewrite (HN p).
Qed.

Lemma underscore_split (a b r1 r2 : string) :
  noUnderscore a = true -> noUnderscore b = true ->
  a +:+ String "_" r1 = b +:+ String "_" r2 -> a = b /\ r1 = r2.
Proof.
  revert b. induction a as [|c a IH]; intros [|d b] Ha Hb Heq; cbn in *.
  - by injection Heq as ->.
  - injection Heq as <- _. by rewrite Ascii.eqb_refl in Hb.
  - injection Heq as -> _. by rewrite Ascii.eqb_refl in Ha.
  - injection Heq as -> Heq. apply andb_true_iff in Ha as [_ Ha], Hb as [_ Hb].
    destruct (IH b Ha Hb Heq) as [-> ->]. done.
Qed.

(** X18: the ids that [generateJobId] builds are truthy and start with
    "job_", and two of them are equal only when both the time and the
    random digits are: an id is repeated only within one millisecond and
    with the same draw. *)
Theorem generateJobId_injective (now now' : Z) (rnd rnd' : string) :
  Js.truthy (generateJobId now rnd) = true /\
  String.prefix "job_" (generateJobId now rnd) = true /\
  (generateJobId now rnd = generateJobId now' rnd' -> now = now' /\ rnd = rnd').
Proof.
  split; [done|]. split; [apply (prefix_app "job_")|].
  unfold generateJobId. intros Heq.
  cbn [append] in Heq. injection Heq as Heq.
  apply underscore_split in Heq as [Hnow ->]; try apply pretty_Z_noUnderscore.
  split; [|done]. by apply (inj pretty).
Qed.

Lemma generateJobId_injective_witness :
  String.prefix "job_" (generateJobId 1785000000000 "k3j9x0q2a") = true /\
  1785000000000 = 1785000000000 /\ "k3j9x0q2a" = "k3j9x0q2a".
Proof.
  destruct (generateJobId_injective 1785000000000 1785000000000 "k3j9x0q2a" "k3j9x0q2a")
    as (_ & Hp & H).
  split; [exact Hp | exact (H eq_refl)].
Defined.

(** ** Retry timers *)

Lemma sameRetrying_refl h : sameRetrying h h.
Proof. by intros r. Qed.

Lemma sameRetrying_trans h1 h2 h3 :
  sameRetrying h1 h2 -> sameRetrying h2 h3 -> sameRetrying h1 h3.
Proof. intros H12 H23 r. by rewrite (H12 r). Qed.

Lemma sameRetrying_sameCore h h' : Forall2 sameCore h h' -> sameRetrying h h'.
Proof.
  intros HF r. split; intros (j & Hj & Hst).
  - destruct (Forall2_lookup_l _ _ _ _ _ HF Hj) as (j' & Hj' & Hc).
    exists j'. split; [done|]. destruct (sameCore_fields _ _ Hc) as (_ & <- & _). done.
  - destruct (Forall2_lookup_r _ _ _ _ _ HF Hj) as (j' & Hj' & Hc).
    exists j'. split; [done|]. destruct (sameCore_fields _ _ Hc) as (_ & -> & _). done.
Qed.

Lemma sameRetrying_app h job : status job ≠ retrying -> sameRetrying h (h ++ [job]).
Proof.
  intros Hst r. split; intros (j & Hj & Hs).
  - exists j. split; [by apply lookup_app_l_Some | done].
  - apply lookup_app_Some in Hj as [Hj | [_ Hj]]; [by exists j|].
    apply list_lookup_singleton_Some in Hj as [_ <-]. done.
Qed.

Lemma sameRetrying_insert h r j j' :
  h !! r = Some j -> status j ≠ retrying -> status j' ≠ retrying ->
  sameRetrying h (<[r := j']> h).
Proof.
  intros Hj Hs Hs' x. assert (Hlt : (r < length h)%nat) by (by eapply lookup_lt_Some).
  destruct (decide (x = r)) as [->|Hne].
  - split; intros (y & Hy & Hst).
    + congruence.
    + rewrite list_lookup_insert_eq in Hy by done. congruence.
  - unfold retryingAt. by rewrite list_lookup_insert_ne.
Qed.

Lemma TimersOk_same s s' :
  TimersOk s -> sameRetrying (heap s) (heap s') -> timers s' = timers s -> TimersOk s'.
Proof. intros [Hnd Hiff] Hsame Ht. rewrite <- Ht in *. split; [done|]. intros r. by rewrite Hiff. Qed.

Lemma TimersOk_positions s : TimersOk s -> TimersOk (updateQueuePositions s).
Proof.
  intros HT. apply (TimersOk_same s); [done | | done].
  apply sameRetrying_sameCore, setPositions_sameCore.
Qed.

Lemma processJob_catch_TimersOk now rnd msg r s job :
  heap s !! r = Some job -> status job = processing ->
  TimersOk s -> TimersOk (processJob_catch now rnd msg r s).
Proof.
  intros Hjob Hst HT. unfold processJob_catch. rewrite Hjob.
  assert (Hlt : (r < length (heap s))%nat) by (by eapply lookup_lt_Some).
  destruct (_ || _).
  - apply (TimersOk_same s); [done | | done]. cbn [heap releaseSlot].
    eapply sameRetrying_insert; [exact Hjob | by rewrite Hst | done].
  - destruct HT as [Hnd Hiff].
    assert (Hfresh : r ∉ (timers s).*1).
    { intros Hin. apply Hiff in Hin as (j & Hj & Hs). congruence. }
    split; cbn [heap timers releaseSlot]; rewrite fmap_app.
    + by apply NoDup_snoc_fresh.
    + intros x. rewrite elem_of_app. cbn [fmap list_fmap fst]. rewrite list_elem_of_singleton.
      split.
      * intros [Hx | ->].
        -- assert (x ≠ r) by (by intros ->).
           apply Hiff in Hx as (j & Hj & Hs). exists j. by rewrite list_lookup_insert_ne.
        -- eexists. split; [by apply list_lookup_insert_eq | done].
      * intros (j & Hj & Hs). destruct (decide (x = r)) as [->|Hne]; [by right|]. left.
        rewrite list_lookup_insert_ne in Hj by done. apply Hiff. by exists j.
Qed.

Lemma processJob_start_TimersOk now rnd todo s r0 :
  InvT (r0 :: todo) s -> TimersOk s -> TimersOk (processJob_start now rnd s r0).
Proof.
  intros HI HT.
  destruct (proj1 (inv_queue _ _ HI r0)) as (job & Hjob & Hst); [left|].
  assert (Hnp : id job ∉ processingJobs s).
  { eapply InvT_not_proc; [done..|]. by rewrite Hst. }
  rewrite (processJob_start_eq now rnd s r0 job Hjob Hnp).
  assert (HR : TimersOk (running now r0 job s)).
  { apply (TimersOk_same s); [done | | done]. cbn [heap running].
    eapply sameRetrying_insert; [exact Hjob | by rewrite Hst | done]. }
  destruct (validateJobData _) as [msg|]; [|done].
  apply (processJob_catch_TimersOk now (rnd r0) msg r0 _ (markStarted now job)).
  - cbn [heap resume running]. apply list_lookup_insert_eq. by eapply lookup_lt_Some.
  - done.
  - by apply (TimersOk_same (running now r0 job s)).
Qed.

Lemma dispatch_TimersOk now rnd todo s :
  InvT todo s -> TimersOk s -> TimersOk (foldl (processJob_start now rnd) s todo).
Proof.
  revert s. induction todo as [|r0 todo IH]; intros s HI HT; simpl; [done|].
  apply IH; [by apply processJob_start_InvT | by eapply processJob_start_TimersOk].
Qed.

Lemma processNextJobs_TimersOk now rnd s :
  Inv s -> TimersOk s -> TimersOk (processNextJobs now rnd s).
Proof.
  intros [HI _] HT. unfold processNextJobs.
  destruct (Nat.leb_spec maxConcurrentJobs (size (processingJobs s))) as [Hfull | Hfree];
    [done|].
  cbn zeta. apply TimersOk_positions. apply dispatch_TimersOk.
  - apply (InvT_requeue [] s); [done | |].
    + simpl. rewrite take_drop. apply sortBy_perm.
    + rewrite length_take. lia.
  - by apply (TimersOk_same s).
Qed.

Lemma settle_TimersOk now rnd o k r s :
  Inv s -> awaiting s !! k = Some r -> TimersOk s ->
  TimersOk (processJob_settle now rnd o r (resume k s)).
Proof.
  intros [HI _] Hk HT.
  assert (Hin : r ∈ awaiting s) by (by eapply list_elem_of_lookup_2).
  apply (inv_await _ _ HI) in Hin as (job & Hjob & Hst).
  assert (HTr : TimersOk (resume k s)) by (by apply (TimersOk_same s)).
  unfold processJob_settle. cbn [heap resume]. rewrite Hjob.
  assert (Hc : forall msg, TimersOk (processJob_catch now rnd msg r (resume k s)))
    by (intros msg; by apply (processJob_catch_TimersOk now rnd msg r (resume k s) job)).
  assert (Hd : forall hash,
            TimersOk (releaseSlot (id job)
                        (withHeap (<[r := markCompleted now hash job]> (heap s))
                           (resume k s)))).
  { intros hash. apply (TimersOk_same s); [done | | done]. cbn [heap releaseSlot withHeap].
    eapply sameRetrying_insert; [exact Hjob | by rewrite Hst | done]. }
  destruct (type job); [destruct o; auto|].
  destruct (Js.truthy_opt _); [destruct o; auto | auto].
Qed.

Lemma retryTimer_TimersOk k s : TimersOk s -> TimersOk (retryTimer k s).
Proof.
  intros [Hnd Hiff]. unfold retryTimer.
  destruct (timers s !! k) as [[r d]|] eqn:Hk; [|done].
  assert (Hk1 : (timers s).*1 !! k = Some r) by (by rewrite list_lookup_fmap, Hk).
  destruct (proj1 (Hiff r)) as (job & Hjob & Hst); [by eapply list_elem_of_lookup_2|].
  rewrite Hjob, decide_True by done.
  assert (Hlt : (r < length (heap s))%nat) by (by eapply lookup_lt_Some).
  apply TimersOk_positions. split; cbn [heap timers withPending withHeap];
    rewrite list_fmap_delete.
  - by apply NoDup_delete_at.
  - intros x. rewrite (drop_iff _ k r x False Hnd Hk1 (λ f, f)). split.
    + intros [[Hne Hx] | [_ []]]. apply Hiff in Hx as (j & Hj & Hs).
      exists j. by rewrite list_lookup_insert_ne.
    + intros (j & Hj & Hs). left. destruct (decide (x = r)) as [->|Hne].
      * rewrite list_lookup_insert_eq in Hj by done. by injection Hj as <-.
      * rewrite list_lookup_insert_ne in Hj by done. split; [done|]. apply Hiff. by exists j.
Qed.

Lemma cancelJob_TimersOk jobId now s : TimersOk s -> TimersOk (cancelJob jobId now s).2.
Proof.
  intros HT. unfold cancelJob. destruct (jobs s !! jobId) as [r|]; [|done].
  destruct (heap s !! r) as [job|] eqn:Hjob; [|done].
  case_decide as Hst; [|done].
  assert (Hh : sameRetrying (heap s)
                 (<[r := markError now "Cancelled by user" failed job]> (heap s)))
    by (eapply sameRetrying_insert; [exact Hjob | by rewrite Hst | done]).
  destruct (list_find _ _) as [[index x]|]; cbn [snd].
  - apply TimersOk_positions. by apply (TimersOk_same s).
  - by apply (TimersOk_same s).
Qed.

Lemma step_TimersOk e s s' :
  Inv s -> TimersOk s -> step e s = Some s' -> TimersOk s'.
Proof.
  intros HInv HT Hstep. destruct e; simpl in Hstep.
  - case_decide; [|done]. simplify_eq. cbn [snd addJob].
    apply TimersOk_positions. apply (TimersOk_same s); [done | | done].
    cbn [heap]. by apply sameRetrying_app.
  - simplify_eq. by apply processNextJobs_TimersOk.
  - destruct (awaiting s !! k) as [r|] eqn:Hk; [|done]. simplify_eq.
    by apply settle_TimersOk.
  - destruct (timers s !! k); [|done]. simplify_eq. by apply retryTimer_TimersOk.
  - simplify_eq. by apply cancelJob_TimersOk.
  - assert (Hr : TimersOk (retryFailedJob jobId now rnd s).2).
    { unfold retryFailedJob. destruct (OMap.get _ _); [|done]. cbn [snd].
      apply (TimersOk_same
               (updateQueuePositions
                  (mkQueue (heap s ++ [replayCopy now (generateJobId now rnd) q])
                     (<[generateJobId now rnd := length (heap s)]> (jobs s))
                     (pendingQueue s ++ [length (heap s)]) (processingJobs s)
                     (deadLetterQueue s) (timers s) (awaiting s)))); [| done | done].
      apply TimersOk_positions. apply (TimersOk_same s); [done | | done].
      cbn [heap]. by apply sameRetrying_app. }
    destruct (OMap.get jobId (deadLetterQueue s)); [case_decide; [|done]|]; by simplify_eq.
  - simplify_eq. by apply (TimersOk_same s).
  - simplify_eq. by apply (TimersOk_same s).
Qed.

Lemma reachable_TimersOk s : reachable s -> TimersOk s.
Proof.
  induction 1 as [|s e s' Hs IH Hstep].
  - split; [apply NoDup_nil_2|]. intros r. split.
    + intros Hin. by apply elem_of_nil in Hin.
    + by intros (j & Hj & _).
  - eapply step_TimersOk; [by apply reachable_Inv | exact IH | exact Hstep].
Qed.

(** X19: no retry is lost and none is doubled. In every reachable state
    the jobs whose status is retrying are exactly the jobs of the
    outstanding retry timers, one timer each. When a timer fires its job
    is retrying, so the guard of the callback holds: the job becomes
    pending with the attempts and the error it had, goes last in the
    pending queue, where it was not, and has no timer left. *)
Theorem retry_timers (s : TransactionQueue) :
  reachable s ->
  NoDup (timers s).*1 /\
  (forall r j, heap s !! r = Some j -> (status j = retrying <-> r ∈ (timers s).*1)) /\
  (forall k r d, timers s !! k = Some (r, d) ->
     exists job, heap s !! r = Some job /\ status job = retrying /\
       (r ∉ pendingQueue s) /\
       pendingQueue (retryTimer k s) = pendingQueue s ++ [r] /\
       (exists j', heap (retryTimer k s) !! r = Some j' /\ status j' = pending /\
          attempts j' = attempts job /\ error j' = error job) /\
       timers (retryTimer k s) = delete k (timers s) /\
       (r ∉ (timers (retryTimer k s)).*1)).
Proof.
  intros Hreach. destruct (reachable_Inv s Hreach) as [HI HP].
  destruct (reachable_TimersOk s Hreach) as [Hnd Hiff].
  split; [done|]. split.
  { intros r j Hj. rewrite Hiff. split; [intros Hs; by exists j|].
    intros (j' & Hj' & Hs). congruence. }
  intros k r d Hk.
  assert (Hk1 : (timers s).*1 !! k = Some r) by (by rewrite list_lookup_fmap, Hk).
  destruct (proj1 (Hiff r)) as (job & Hjob & Hst); [by eapply list_elem_of_lookup_2|].
  exists job. split; [done|]. split; [done|].
  assert (Hnq : r ∉ pendingQueue s).
  { eapply (InvT_not_queue []); [done..|]. by rewrite Hst. }
  split; [done|].
  pose proof (retryTimer_TimersOk k s (conj Hnd Hiff)) as [_ Hiff'].
  unfold retryTimer in *. rewrite Hk, Hjob, decide_True in * by done.
  cbn [pendingQueue heap timers updateQueuePositions withHeap withPending] in *.
  split; [done|]. split.
  - destruct (Forall2_lookup_l _ _ _ r (markPending job)
                (setPositions_sameCore (pendingQueue s ++ [r])
                   (<[r := markPending job]> (heap s)) 0)) as (j' & Hj' & Hc).
    { apply list_lookup_insert_eq. by eapply lookup_lt_Some. }
    exists j'. split; [done|]. unfold sameCore, core in Hc.
    injection Hc as _ _ _ Hs Hp Ha _ _ _ _ _ He _.
    split; [by rewrite <- Hs|]. split; [by rewrite <- Ha | by rewrite <- He].
  - split; [done|]. intros Hin. apply Hiff' in Hin as (j' & Hj' & Hs').
    destruct (Forall2_lookup_r _ _ _ r j'
                (setPositions_sameCore (pendingQueue s ++ [r])
                   (<[r := markPending job]> (heap s)) 0) Hj') as (j0 & Hj0 & Hc).
    rewrite list_lookup_insert_eq in Hj0 by (by eapply lookup_lt_Some).
    injection Hj0 as <-. destruct (sameCore_fields _ _ Hc) as (_ & Hs0 & _).
    rewrite <- Hs0 in Hs'. done.
Qed.

Lemma demoRetrying_reachable : reachable demoRetrying.
Proof.
  apply (run_reachable demoRetryingEvents emptyQueue); [apply reach_init|].
  vm_compute. reflexivity.
Qed.

Lemma retry_timers_witness :
  exists job, heap demoRetrying !! 0%nat = Some job /\ status job = retrying /\
    pendingQueue (retryTimer 0 demoRetrying) = [0%nat].
Proof.
  destruct (retry_timers demoRetrying demoRetrying_reachable) as (_ & _ & H).
  destruct (H 0%nat 0%nat _ eq_refl) as (job & Hjob & Hst & _ & Hq & _).
  exists job. split; [exact Hjob|]. split; [exact Hst | exact Hq].
Defined.
